(** * SourcePawn include parser ([src/parser/inc_to_json.py])

    A shallow embedding of the include-file scanner: the Python string
    methods it calls, the backtracking regular-expression matcher of
    Python's [re] restricted to the constructs its patterns use, the
    patterns themselves, the three parsing functions and the command-line
    driver, followed by the properties of the scanner.

    Text is modelled as a list of 8-bit characters.  The character classes
    [\s] and [\w] and [str.strip] are those of Python on the ASCII range;
    codes above 127 are neither blank nor word characters. *)

From Stdlib Require Import List Bool Arith Lia Ascii String DecimalString.
Import ListNotations.

Set Implicit Arguments.

Open Scope string_scope.
Open Scope list_scope.
Open Scope nat_scope.
Open Scope bool_scope.

(** ** Text *)

Definition text := list ascii.

Definition txt (s : string) : text := list_ascii_of_string s.
Coercion txt : string >-> text.

(** Concatenation, as [+] on Python strings and inside f-strings. *)
Definition cat (a b : text) : text := a ++ b.
Infix "+++" := cat (at level 60, right associativity).

Definition LF : ascii := "010"%char.
Definition CR : ascii := "013"%char.

Definition text_eqb (a b : text) : bool :=
  if list_eq_dec ascii_dec a b then true else false.

(** ** Python string methods *)
Module PyStr.

(** [str.isspace] on one character: TAB..CR, FS..US and the space. *)
Definition isspace (c : ascii) : bool :=
  let n := nat_of_ascii c in
  ((9 <=? n) && (n <=? 13)) || ((28 <=? n) && (n <=? 32)).

Definition isdigit (c : ascii) : bool :=
  let n := nat_of_ascii c in (48 <=? n) && (n <=? 57).

Definition isalpha (c : ascii) : bool :=
  let n := nat_of_ascii c in
  ((65 <=? n) && (n <=? 90)) || ((97 <=? n) && (n <=? 122)).

Fixpoint lstrip (s : text) : text :=
  match s with
  | c :: t => if isspace c then lstrip t else s
  | [] => []
  end.

Definition rstrip (s : text) : text := rev (lstrip (rev s)).

Definition strip (s : text) : text := rstrip (lstrip s).

Fixpoint startswith (s pre : text) : bool :=
  match pre, s with
  | [], _ => true
  | p :: pre', c :: s' => Ascii.eqb p c && startswith s' pre'
  | _ :: _, [] => false
  end.

Definition endswith (s suf : text) : bool := startswith (rev s) (rev suf).

(** [s[n:]] and [s[:-n]] for a literal [n] *)
Definition slice_from (n : nat) (s : text) : text := skipn n s.
Definition slice_to_neg (n : nat) (s : text) : text :=
  firstn (List.length s - n) s.

(** [s.split(sep)] for a one-character separator *)
Fixpoint split_aux (sep : ascii) (cur : text) (s : text) : list text :=
  match s with
  | [] => [rev cur]
  | c :: t =>
      if Ascii.eqb c sep then rev cur :: split_aux sep [] t
      else split_aux sep (c :: cur) t
  end.

Definition split (sep : ascii) (s : text) : list text := split_aux sep [] s.

(** [sep.join(parts)] *)
Fixpoint join (sep : text) (parts : list text) : text :=
  match parts with
  | [] => []
  | [p] => p
  | p :: ps => p ++ sep ++ join sep ps
  end.

(** [s.replace(old, new)] for a non-empty [old]: occurrences are taken
    left to right and do not overlap.  [skip] counts the characters of
    the occurrence being replaced that are still to be passed over. *)
Fixpoint replace_aux (old new : text) (skip : nat) (s : text) : text :=
  match s with
  | [] => []
  | c :: t =>
      match skip with
      | S n => replace_aux old new n t
      | O =>
          if startswith s old
          then new ++ replace_aux old new (List.length old - 1) t
          else c :: replace_aux old new 0 t
      end
  end.

Definition replace (old new : text) (s : text) : text :=
  replace_aux old new 0 s.

(** [str(n)] *)
Definition of_nat (n : nat) : text :=
  txt (NilZero.string_of_uint (Nat.to_uint n)).

End PyStr.

(** ** Regular expressions: the part of Python's [re] the parser uses *)
Module Re.

(** What one repetition step may consume: every quantifier of the
    parser's patterns ranges over a single character. *)
Inductive atom : Type :=
| AChr (c : ascii)               (* a literal character *)
| ASet (p : ascii -> bool)       (* a class: [\s], [\w], [[...]] *)
| ADot.                          (* [.] *)

Inductive regex : Type :=
| Eps
| Atom (a : atom)
| Str (s : text)                 (* a literal word *)
| Bol                            (* [^] *)
| Eol                            (* [$] *)
| Seq (r1 r2 : regex)
| Alt (r1 r2 : regex)            (* [r1|r2], left first *)
| Opt (r : regex)                (* [(?:r)?], greedy *)
| Star (greedy : bool) (a : atom)(* [a*] and [a*?] *)
| Group (name : string) (r : regex)
| Ahead (r : regex).             (* [(?=r)] *)

Definition Plus (greedy : bool) (a : atom) : regex :=
  Seq (Atom a) (Star greedy a).

Record flags : Type := Flags { multiline : bool; dotall : bool }.

Definition NOFLAGS := Flags false false.
Definition DOTALL := Flags false true.
Definition MULTILINE_DOTALL := Flags true true.

(** [\s] and [\w] *)
Definition space : atom := ASet PyStr.isspace.
Definition is_word (c : ascii) : bool :=
  PyStr.isalpha c || PyStr.isdigit c || Ascii.eqb c "_".
Definition word : atom := ASet is_word.

(** The matcher's position: offset in the subject, the character just
    before it (none at offset 0), what is left of the subject, and the
    groups captured so far (latest first). *)
Record mstate : Type := MState {
  pos : nat;
  prev : option ascii;
  rest : text;
  caps : list (string * text)
}.

Definition atom_ok (fl : flags) (a : atom) (c : ascii) : bool :=
  match a with
  | AChr d => Ascii.eqb d c
  | ASet p => p c
  | ADot => dotall fl || negb (Ascii.eqb c LF)
  end.

Definition at_bol (fl : flags) (st : mstate) : bool :=
  match prev st with
  | None => true
  | Some c => multiline fl && Ascii.eqb c LF
  end.

Definition at_eol (fl : flags) (st : mstate) : bool :=
  match rest st with
  | [] => true
  | c :: t =>
      Ascii.eqb c LF && (multiline fl || match t with [] => true | _ => false end)
  end.

(** First success wins; the alternative is only run on failure. *)
Notation "x 'orelse' y" :=
  (match x with Some v => Some v | None => y end)
    (at level 60, right associativity, only parsing).

Section Exec.
Variable fl : flags.

(** Literal word, character by character. *)
Fixpoint exec_str (w : text) (k : mstate -> option mstate)
         (p : nat) (pv : option ascii) (cs : list (string * text))
         (s : text) {struct w} : option mstate :=
  match w with
  | [] => k (MState p pv s cs)
  | d :: w' =>
      match s with
      | c :: t =>
          if Ascii.eqb d c then exec_str w' k (S p) (Some c) cs t else None
      | [] => None
      end
  end.

(** Greedy repetition: take one more character while it fits, and
    give it back when what follows fails. *)
Fixpoint star_greedy (a : atom) (k : mstate -> option mstate)
         (p : nat) (pv : option ascii) (cs : list (string * text))
         (s : text) {struct s} : option mstate :=
  match s with
  | c :: t =>
      if atom_ok fl a c
      then star_greedy a k (S p) (Some c) cs t
           orelse k (MState p pv s cs)
      else k (MState p pv s cs)
  | [] => k (MState p pv s cs)
  end.

(** Lazy repetition: try what follows first, take one more character
    only when that fails. *)
Fixpoint star_lazy (a : atom) (k : mstate -> option mstate)
         (p : nat) (pv : option ascii) (cs : list (string * text))
         (s : text) {struct s} : option mstate :=
  k (MState p pv s cs)
  orelse match s with
         | c :: t =>
             if atom_ok fl a c
             then star_lazy a k (S p) (Some c) cs t
             else None
         | [] => None
         end.

(** Backtracking matcher in continuation-passing style: [exec r k st]
    matches [r] at [st] and hands every way of doing so to [k], in
    the order Python tries them, until [k] accepts one. *)
Fixpoint exec (r : regex) (k : mstate -> option mstate) (st : mstate)
  : option mstate :=
  match r with
  | Eps => k st
  | Atom a =>
      match rest st with
      | c :: t =>
          if atom_ok fl a c
          then k (MState (S (pos st)) (Some c) t (caps st))
          else None
      | [] => None
      end
  | Str w => exec_str w k (pos st) (prev st) (caps st) (rest st)
  | Bol => if at_bol fl st then k st else None
  | Eol => if at_eol fl st then k st else None
  | Seq r1 r2 => exec r1 (exec r2 k) st
  | Alt r1 r2 => exec r1 k st orelse exec r2 k st
  | Opt r1 => exec r1 k st orelse k st
  | Star true a => star_greedy a k (pos st) (prev st) (caps st) (rest st)
  | Star false a => star_lazy a k (pos st) (prev st) (caps st) (rest st)
  | Group n r1 =>
      exec r1
        (fun st' =>
           k (MState (pos st') (prev st') (rest st')
                ((n, firstn (pos st' - pos st) (rest st)) :: caps st')))
        st
  | Ahead r1 =>
      match exec r1 (fun st' => Some st') st with
      | Some _ => k st
      | None => None
      end
  end.
End Exec.

(** A match object: [m.start()], [m.end()], [m.group(0)] and the groups
    that took part. *)
Record match_obj : Type := Match {
  m_start : nat;
  m_end : nat;
  group0 : text;
  m_caps : list (string * text)
}.

Fixpoint lookup (n : string) (cs : list (string * text)) : option text :=
  match cs with
  | [] => None
  | (n', v) :: cs' => if String.eqb n n' then Some v else lookup n cs'
  end.

(** [m.groupdict()[n]]: [None] for a group that did not take part. *)
Definition group_opt (m : match_obj) (n : string) : option text :=
  lookup n (m_caps m).

(** [m.group(n)] where the group is one every match goes through. *)
Definition group (m : match_obj) (n : string) : text :=
  match group_opt m n with Some v => v | None => [] end.

(** One attempt at one position.  [must_advance] is set by the iterator
    after an empty match: an empty match at the same place is refused. *)
Definition match_here (fl : flags) (r : regex) (must_advance : bool)
           (p : nat) (pv : option ascii) (s : text) : option match_obj :=
  match exec fl r
          (fun st => if must_advance && (pos st =? p) then None else Some st)
          (MState p pv s [])
  with
  | Some st => Some (Match p (pos st) (firstn (pos st - p) s) (caps st))
  | None => None
  end.

(** [re.match(r, s)] *)
Definition re_match (fl : flags) (r : regex) (s : text) : option match_obj :=
  match_here fl r false 0 None s.

(** Leftmost match at or after the current position. *)
Fixpoint search_from (fl : flags) (r : regex)
         (p : nat) (pv : option ascii) (s : text) : option match_obj :=
  match match_here fl r false p pv s with
  | Some m => Some m
  | None =>
      match s with
      | [] => None
      | c :: t => search_from fl r (S p) (Some c) t
      end
  end.

(** [re.search(r, s)] *)
Definition search (fl : flags) (r : regex) (s : text) : option match_obj :=
  search_from fl r 0 None s.

(** [re.finditer(r, s)]: the successive non-overlapping matches, left to
    right.  [skip] counts the characters still covered by the last
    match.  After an empty match the same position is tried once more
    with [must_advance] set. *)
Fixpoint finditer_from (fl : flags) (r : regex) (skip : nat)
         (p : nat) (pv : option ascii) (s : text) {struct s}
  : list match_obj :=
  let resume (n : nat) : list match_obj :=
    match s with
    | [] => []
    | c :: t => finditer_from fl r (n - 1) (S p) (Some c) t
    end in
  match skip with
  | S n => resume (S n)
  | O =>
      match match_here fl r false p pv s with
      | None => resume 1
      | Some m =>
          if m_end m =? m_start m then
            m :: match match_here fl r true p pv s with
                 | None => resume 1
                 | Some m' => m' :: resume (m_end m' - m_start m')
                 end
          else m :: resume (m_end m - m_start m)
      end
  end.

Definition finditer (fl : flags) (r : regex) (s : text) : list match_obj :=
  finditer_from fl r 0 0 None s.

(** [re.split(r, s, 1)] for a pattern without groups that cannot match
    the empty string: cut once, at the leftmost match. *)
Definition split1 (fl : flags) (r : regex) (s : text) : list text :=
  match search fl r s with
  | Some m => [firstn (m_start m) s; skipn (m_end m) s]
  | None => [s]
  end.

End Re.

Import Re.

Declare Scope regex_scope.
Delimit Scope regex_scope with re.
Infix ";;" := Seq (at level 61, right associativity) : regex_scope.
Local Open Scope regex_scope.

(** ** The patterns *)

(** The class "[\w:<>\[\]]" *)
Definition return_type_char (c : ascii) : bool :=
  is_word c || existsb (Ascii.eqb c) (txt ":<>[]").

(** The class "[\w:\[\]]" *)
Definition param_type_char (c : ascii) : bool :=
  is_word c || existsb (Ascii.eqb c) (txt ":[]").

(** The class "[\w:]" *)
Definition typedef_type_char (c : ascii) : bool :=
  is_word c || Ascii.eqb c ":".

(** Each pattern is quoted from the source; a blank is put between a
    star and a closing parenthesis where the two meet.

    The pattern
    "^(?P<type>native|stock|forward|public)\s+(?:New:\s* )?(?P<return_type>[\w:<>\[\]]+)\s+(?P<name>\w+)\s*\((?P<params>.*?)\);"
    compiled with [re.MULTILINE | re.DOTALL]. *)
Definition FUNC_REGEX : regex :=
  Bol ;;
  Group "type"
    (Alt (Str "native") (Alt (Str "stock") (Alt (Str "forward") (Str "public")))) ;;
  Plus true space ;;
  Opt (Str "New:" ;; Star true space) ;;
  Group "return_type" (Plus true (ASet return_type_char)) ;;
  Plus true space ;;
  Group "name" (Plus true word) ;;
  Star true space ;;
  Str "(" ;; Group "params" (Star false ADot) ;; Str ");".

Definition FUNC_FLAGS : flags := MULTILINE_DOTALL.

(** "^methodmap\s+(?P<name>\w+)(?:\s*<\s*(?P<inherits>\w+))?" *)
Definition METHODMAP_REGEX : regex :=
  Bol ;; Str "methodmap" ;; Plus true space ;;
  Group "name" (Plus true word) ;;
  Opt (Star true space ;; Str "<" ;; Star true space ;;
       Group "inherits" (Plus true word)).

(** "^\s*public\s+property\s+(?P<property_type>\w+)\s+(?P<name>\w+)" *)
Definition PROPERTY_REGEX : regex :=
  Bol ;; Star true space ;; Str "public" ;; Plus true space ;;
  Str "property" ;; Plus true space ;;
  Group "property_type" (Plus true word) ;; Plus true space ;;
  Group "name" (Plus true word).

(** "^\s*typedef\s+(?P<name>\w+)\s*=\s*function\s+(?P<return_type>[\w:]+)\s*\((?P<params>.*?)\);" *)
Definition TYPEDEF_REGEX : regex :=
  Bol ;; Star true space ;; Str "typedef" ;; Plus true space ;;
  Group "name" (Plus true word) ;; Star true space ;;
  Str "=" ;; Star true space ;; Str "function" ;; Plus true space ;;
  Group "return_type" (Plus true (ASet typedef_type_char)) ;;
  Star true space ;;
  Str "(" ;; Group "params" (Star false ADot) ;; Str ");".

(** "\n\s*@", the cut between description and tags *)
Definition TAGS_SPLIT_REGEX : regex :=
  Atom (AChr LF) ;; Star true space ;; Str "@".

(** "(@(?P<tag>\w+))\s*(?P<content>.*?)(?=\n\s*@|$)" with [re.DOTALL] *)
Definition TAG_REGEX : regex :=
  Group "1" (Str "@" ;; Group "tag" (Plus true word)) ;;
  Star true space ;;
  Group "content" (Star false ADot) ;;
  Ahead (Alt (Atom (AChr LF) ;; Star true space ;; Str "@") Eol).

(** "(?P<name>\w+)\s*(?P<desc>.* )" *)
Definition PARAM_TAG_REGEX : regex :=
  Group "name" (Plus true word) ;; Star true space ;;
  Group "desc" (Star true ADot).

(** "(?:const\s+)?(?P<type>[\w:\[\]]+)\s+&?(?P<name>\w+)(?:\s*=\s*(?P<default>.*?))?" *)
Definition PARAM_REGEX : regex :=
  Opt (Str "const" ;; Plus true space) ;;
  Group "type" (Plus true (ASet param_type_char)) ;;
  Plus true space ;;
  Opt (Str "&") ;;
  Group "name" (Plus true word) ;;
  Opt (Star true space ;; Str "=" ;; Star true space ;;
       Group "default" (Star false ADot)).

(** "(?P<comment>/\*\*.+?\*/)\s*(?P<code>.*?)(?=/\*\*|$)" with [re.DOTALL] *)
Definition BLOCK_REGEX : regex :=
  Group "comment" (Str "/**" ;; Plus false ADot ;; Str "*/") ;;
  Star true space ;;
  Group "code" (Star false ADot) ;;
  Ahead (Alt (Str "/**") Eol).

(** "methodmap\s+.+?\{(.+?)\n\};" with [re.DOTALL] *)
Definition FULL_MAP_REGEX : regex :=
  Str "methodmap" ;; Plus true space ;; Plus false ADot ;; Str "{" ;;
  Group "1" (Plus false ADot) ;;
  Atom (AChr LF) ;; Str "};".

(** ** Records of the output *)

Record ParamDoc : Type := {
  pd_name : text;
  pd_description : text
}.

(** The [tags] dictionary: the four keys it is created with, and the keys
    [setdefault] adds, in insertion order. *)
Record Tags : Type := {
  t_param : list ParamDoc;
  t_error : list text;
  t_note : list text;
  t_return : text;
  t_more : list (text * list text)
}.

Record ParsedComment : Type := {
  description : text;
  tags : Tags
}.

Record ParameterEntry : Type := {
  p_name : text;
  p_type : text;
  p_default : option text;
  p_description : text
}.

Record FunctionEntry : Type := {
  f_name : text;
  f_type : text;
  f_source_file : text;
  f_return_type : text;
  f_comment : text;
  f_tags : Tags;
  f_params : list ParameterEntry;
  f_full_declaration : text
}.

Record MethodEntry : Type := {
  me_name : text;
  me_type : text;
  me_return_type : text;
  me_params : list ParameterEntry;
  me_full_declaration : text
}.

Record PropertyEntry : Type := {
  pr_name : text;
  pr_type : text
}.

Record MethodmapEntry : Type := {
  mm_name : text;
  mm_source_file : text;
  mm_inherits : option text;
  mm_comment : text;
  mm_tags : Tags;
  mm_methods : list MethodEntry;
  mm_properties : list PropertyEntry;
  mm_full_declaration : text
}.

Record TypedefEntry : Type := {
  td_name : text;
  td_source_file : text;
  td_return_type : text;
  td_comment : text;
  td_tags : Tags;
  td_params : list ParameterEntry;
  td_full_declaration : text
}.

(** One element of the output array; the ["type"] key of the dictionary
    is the constructor, and for a function also [f_type]. *)
Inductive ApiEntry : Type :=
| Function (f : FunctionEntry)
| Methodmap (m : MethodmapEntry)
| Typedef (t : TypedefEntry).

(** ** [parse_comment_block] *)

Definition clean_line (line : text) : text :=
  let line := PyStr.strip line in
  let line := if PyStr.startswith line "/**" then PyStr.slice_from 3 line else line in
  let line := if PyStr.endswith line "*/" then PyStr.slice_to_neg 2 line else line in
  let line := if PyStr.startswith line "*" then PyStr.slice_from 1 line else line in
  PyStr.strip line.

Definition initial_tags : Tags :=
  {| t_param := []; t_error := []; t_note := []; t_return := []; t_more := [] |}.

(** [d.setdefault(key, []).append(v)] on the keys added later *)
Fixpoint setdefault_append (key : text) (v : text)
         (d : list (text * list text)) : list (text * list text) :=
  match d with
  | [] => [(key, [v])]
  | (k, vs) :: d' =>
      if text_eqb k key then (k, vs ++ [v]) :: d'
      else (k, vs) :: setdefault_append key v d'
  end.

Definition tags_append (tag_name content : text) (t : Tags) : Tags :=
  if text_eqb tag_name "error" then
    {| t_param := t_param t; t_error := t_error t ++ [content];
       t_note := t_note t; t_return := t_return t; t_more := t_more t |}
  else if text_eqb tag_name "note" then
    {| t_param := t_param t; t_error := t_error t;
       t_note := t_note t ++ [content]; t_return := t_return t;
       t_more := t_more t |}
  else
    {| t_param := t_param t; t_error := t_error t; t_note := t_note t;
       t_return := t_return t;
       t_more := setdefault_append tag_name content (t_more t) |}.

(** The body of the loop over the tag matches. *)
Definition add_tag (t : Tags) (m : match_obj) : Tags :=
  let tag_name := group m "tag" in
  let content :=
    PyStr.join " "
      (map PyStr.strip (PyStr.split LF (PyStr.strip (group m "content")))) in
  if text_eqb tag_name "param" then
    match re_match NOFLAGS PARAM_TAG_REGEX content with
    | Some pm =>
        {| t_param := t_param t ++
                        [{| pd_name := group pm "name";
                            pd_description := PyStr.strip (group pm "desc") |}];
           t_error := t_error t; t_note := t_note t;
           t_return := t_return t; t_more := t_more t |}
    | None => t
    end
  else if text_eqb tag_name "return" then
    {| t_param := t_param t; t_error := t_error t; t_note := t_note t;
       t_return := content; t_more := t_more t |}
  else if existsb (text_eqb tag_name)
            [txt "error"; txt "note"; txt "deprecated"; txt "see"; txt "author"]
  then tags_append tag_name content t
  else t.

Definition full_comment_of (comment_lines : list text) : text :=
  PyStr.strip (PyStr.join [LF] (map clean_line comment_lines)).

Definition parse_comment_block (comment_lines : list text) : ParsedComment :=
  let full_comment := full_comment_of comment_lines in
  let parts := split1 NOFLAGS TAGS_SPLIT_REGEX full_comment in
  let description := PyStr.strip (hd [] parts) in
  let tags_str :=
    match parts with
    | _ :: p1 :: _ => "@"%char :: p1
    | _ => []
    end in
  let tag_matches := finditer DOTALL TAG_REGEX tags_str in
  {| description := description;
     tags := fold_left add_tag tag_matches initial_tags |}.

(** ** [parse_params_string] *)

(** A dictionary built by assignment: a later value for a key replaces
    the earlier one. *)
Fixpoint dict_set (k v : text) (d : list (text * text)) : list (text * text) :=
  match d with
  | [] => [(k, v)]
  | (k', v') :: d' =>
      if text_eqb k' k then (k', v) :: d' else (k', v') :: dict_set k v d'
  end.

Fixpoint dict_get (k : text) (d : list (text * text)) (default : text) : text :=
  match d with
  | [] => default
  | (k', v') :: d' => if text_eqb k' k then v' else dict_get k d' default
  end.

Definition comment_params_of (parsed_comment : ParsedComment)
  : list (text * text) :=
  fold_left (fun d p => dict_set (pd_name p) (pd_description p) d)
            (t_param (tags parsed_comment)) [].

(** The body of the loop over the comma-separated pieces. *)
Definition parse_param (comment_params : list (text * text)) (param : text)
  : list ParameterEntry :=
  let param := PyStr.strip param in
  match param with
  | [] => []
  | _ =>
      match re_match NOFLAGS PARAM_REGEX param with
      | Some m =>
          [{| p_name := group m "name";
              p_type := group m "type";
              p_default := group_opt m "default";
              p_description := dict_get (group m "name") comment_params [] |}]
      | None => []
      end
  end.

Definition parse_params_string (params_str : text)
           (parsed_comment : ParsedComment) : list ParameterEntry :=
  match PyStr.strip params_str with
  | [] => []
  | _ =>
      let params := PyStr.split "," params_str in
      let comment_params := comment_params_of parsed_comment in
      flat_map (parse_param comment_params) params
  end.

(** ** [parse_include_file] *)

(** The replacement of every line feed by a blank that closes a
    [full_declaration]. *)
Definition one_line (s : text) : text :=
  PyStr.replace [LF] " " (PyStr.strip s).

(** [content.replace('\r\n', '\n').replace('\r', '\n')] *)
Definition normalize_line_endings (content : text) : text :=
  PyStr.replace [CR] [LF] (PyStr.replace [CR; LF] [LF] content).

(** The comment handed to [parse_params_string] for the methods of a
    methodmap: a dictionary whose only [param] list is empty. *)
Definition no_comment : ParsedComment :=
  {| description := []; tags := initial_tags |}.

Definition method_of_match (map_func : match_obj) : MethodEntry :=
  {| me_name := group map_func "name";
     me_type := group map_func "type";
     me_return_type := group map_func "return_type";
     me_params := parse_params_string (group map_func "params") no_comment;
     me_full_declaration := one_line (group0 map_func) |}.

Definition property_of_match (map_prop : match_obj) : PropertyEntry :=
  {| pr_name := group map_prop "name";
     pr_type := group map_prop "property_type" |}.

(** The methods and properties found in the chunk of a methodmap. *)
Definition methodmap_members (code_text : text)
  : list MethodEntry * list PropertyEntry :=
  match search DOTALL FULL_MAP_REGEX code_text with
  | Some full_map_match =>
      let map_body := group full_map_match "1" in
      (map method_of_match (finditer FUNC_FLAGS FUNC_REGEX map_body),
       map property_of_match (finditer NOFLAGS PROPERTY_REGEX map_body))
  | None => ([], [])
  end.

(** The body of the loop over the blocks: the entry, if any, of one
    comment and the code after it.  The three shapes are tried in the
    order of the source, and the first that is found ends the turn. *)
Definition entry_of_block (filename : text) (comment_text code_text : text)
  : option ApiEntry :=
  let parsed_comment := parse_comment_block (PyStr.split LF comment_text) in
  match search FUNC_FLAGS FUNC_REGEX code_text with
  | Some func_match =>
      Some (Function
        {| f_name := group func_match "name";
           f_type := group func_match "type";
           f_source_file := filename;
           f_return_type := group func_match "return_type";
           f_comment := description parsed_comment;
           f_tags := tags parsed_comment;
           f_params :=
             parse_params_string (group func_match "params") parsed_comment;
           f_full_declaration := one_line (group0 func_match) |})
  | None =>
  match search NOFLAGS METHODMAP_REGEX code_text with
  | Some methodmap_match =>
      let (methods, properties) := methodmap_members code_text in
      Some (Methodmap
        {| mm_name := group methodmap_match "name";
           mm_source_file := filename;
           mm_inherits := group_opt methodmap_match "inherits";
           mm_comment := description parsed_comment;
           mm_tags := tags parsed_comment;
           mm_methods := methods;
           mm_properties := properties;
           mm_full_declaration := PyStr.strip (group0 methodmap_match) |})
  | None =>
  match search NOFLAGS TYPEDEF_REGEX code_text with
  | Some typedef_match =>
      Some (Typedef
        {| td_name := group typedef_match "name";
           td_source_file := filename;
           td_return_type := group typedef_match "return_type";
           td_comment := description parsed_comment;
           td_tags := tags parsed_comment;
           td_params :=
             parse_params_string (group typedef_match "params") parsed_comment;
           td_full_declaration := PyStr.strip (group0 typedef_match) |})
  | None => None
  end end end.

(** The pairs of a comment and the code that follows it. *)
Definition comment_and_code_blocks (content : text) : list match_obj :=
  finditer DOTALL BLOCK_REGEX content.

Definition block_step (filename : text) (api_entries : list ApiEntry)
           (block : match_obj) : list ApiEntry :=
  match entry_of_block filename (group block "comment") (group block "code") with
  | Some entry => api_entries ++ [entry]
  | None => api_entries
  end.

(** What [parse_include_file] does with the text it has read. *)
Definition parse_include_content (content : text) (filename : text)
  : list ApiEntry :=
  let content := normalize_line_endings content in
  fold_left (block_step filename) (comment_and_code_blocks content) [].

(** ** The file system and [main] *)

(** A call either returns or raises an exception, kept as its message. *)
Inductive result (A : Type) : Type :=
| Ok (a : A)
| Raised (message : text).
Arguments Ok {A} a.
Arguments Raised {A} message.

(** The part of the world [main] looks at: [os.path.isdir], the triples
    of [os.walk] reduced to root and file names, what opening and
    reading a file yields, and what opening a file for writing yields. *)
Record World : Type := {
  isdir : text -> bool;
  walk : text -> list (text * list text);
  read_file : text -> result text;
  open_output : text -> result unit
}.

Definition parse_include_file (w : World) (filepath filename : text)
  : result (list ApiEntry) :=
  match read_file w filepath with
  | Ok content => Ok (parse_include_content content filename)
  | Raised e => Raised e
  end.

(** [os.path.join(root, file)] for a file name of [os.walk] *)
Definition path_join (root file : text) : text :=
  match root with
  | [] => file
  | _ => if PyStr.endswith root "/" then root +++ file else root +++ "/" +++ file
  end.

(** What a run leaves behind: the lines printed, the file written with
    the array that [json.dump] was given, the exception that ended the
    run when one was not caught, and the status the interpreter exits
    with: 0 when [main] returns, 1 after an exception. *)
Record Outcome : Type := {
  stdout : list text;
  written : option (text * list ApiEntry);
  uncaught : option text;
  exit_status : nat
}.

(** The state of the two nested loops of [main]. *)
Record Scan : Type := {
  all_api_data : list ApiEntry;
  printed : list text
}.

Definition scan_file (w : World) (root : text) (st : Scan) (file : text) : Scan :=
  if PyStr.endswith file ".inc" then
    let filepath := path_join root file in
    let out := printed st ++ ["  -> Parsing " +++ file +++ "..."] in
    match parse_include_file w filepath file with
    | Ok entries =>
        {| all_api_data :=
             match entries with
             | [] => all_api_data st
             | _ => all_api_data st ++ entries
             end;
           printed := out |}
    | Raised e =>
        {| all_api_data := all_api_data st;
           printed := out ++ ["    !! Failed to parse " +++ file +++ ": " +++ e] |}
    end
  else st.

Definition scan_dir (w : World) (st : Scan) (d : text * list text) : Scan :=
  fold_left (scan_file w (fst d)) (snd d) st.

(** The two nested loops of [main], from the first line printed on. *)
Definition scan_all (w : World) (include_dir : text) : Scan :=
  let st0 :=
    {| all_api_data := [];
       printed := ["Scanning for .inc files in '" +++ include_dir +++ "'..."] |} in
  fold_left (scan_dir w) (walk w include_dir) st0.

(** [main], given the two command-line arguments.  A missing directory
    and the end of the function are plain returns; the output is opened
    outside any [try], so an exception raised there ends the run. *)
Definition main (w : World) (include_dir output : text) : Outcome :=
  if negb (isdir w include_dir) then
    {| stdout := ["Error: Directory not found at '" +++ include_dir +++ "'"];
       written := None;
       uncaught := None;
       exit_status := 0 |}
  else
    let st := scan_all w include_dir in
    let out :=
      printed st ++
      [[LF] +++ "Successfully parsed " +++
         PyStr.of_nat (List.length (all_api_data st)) +++ " API entries."] in
    match open_output w output with
    | Ok _ =>
        {| stdout := out ++ ["API data has been written to '" +++ output +++ "'"];
           written := Some (output, all_api_data st);
           uncaught := None;
           exit_status := 0 |}
    | Raised e =>
        {| stdout := out;
           written := None;
           uncaught := Some e;
           exit_status := 1 |}
    end.

(** ** Notions used to state the properties *)

(** A text given line by line. *)
Definition lines (ls : list string) : text := PyStr.join [LF] (map txt ls).

Definition option_list {A} (o : option A) : list A :=
  match o with Some a => [a] | None => [] end.

(** *** Patterns *)

(** The words a pattern can match, anchors and look-ahead left aside:
    what the matcher's answers are checked against. *)
Inductive lang (fl : flags) : regex -> text -> Prop :=
| L_eps : lang fl Eps []
| L_atom a c : atom_ok fl a c = true -> lang fl (Atom a) [c]
| L_str w : lang fl (Str w) w
| L_bol : lang fl Bol []
| L_eol : lang fl Eol []
| L_seq r1 r2 w1 w2 :
    lang fl r1 w1 -> lang fl r2 w2 -> lang fl (Seq r1 r2) (w1 ++ w2)
| L_alt_l r1 r2 w : lang fl r1 w -> lang fl (Alt r1 r2) w
| L_alt_r r1 r2 w : lang fl r2 w -> lang fl (Alt r1 r2) w
| L_opt_some r w : lang fl r w -> lang fl (Opt r) w
| L_opt_none r : lang fl (Opt r) []
| L_star g a w :
    Forall (fun c => atom_ok fl a c = true) w -> lang fl (Star g a) w
| L_group n r w : lang fl r w -> lang fl (Group n r) w
| L_ahead r : lang fl (Ahead r) [].

(** The names of the groups of a pattern. *)
Fixpoint group_names (r : regex) : list string :=
  match r with
  | Seq r1 r2 | Alt r1 r2 => group_names r1 ++ group_names r2
  | Opt r1 | Ahead r1 => group_names r1
  | Group n r1 => n :: group_names r1
  | _ => []
  end.

(** The captures all bear names of groups of the pattern. *)
Definition caps_of (r : regex) (cs : list (string * text)) : Prop :=
  Forall (fun nv => In (fst nv) (group_names r)) cs.

(** Whether a pattern looks at what comes before the position. *)
Fixpoint uses_bol (r : regex) : bool :=
  match r with
  | Bol => true
  | Seq r1 r2 | Alt r1 r2 => uses_bol r1 || uses_bol r2
  | Opt r1 | Ahead r1 | Group _ r1 => uses_bol r1
  | _ => false
  end.

(** A match object moved [d] characters to the right. *)
Definition shift_match (d : nat) (m : match_obj) : match_obj :=
  Match (d + m_start m) (d + m_end m) (group0 m) (m_caps m).

(** Two positions of the matcher that differ only by where the subject
    is taken to start: [d] characters further on, after whatever
    character. *)
Definition shifted (d : nat) (st1 st2 : mstate) : Prop :=
  pos st1 = d + pos st2 /\ rest st1 = rest st2 /\ caps st1 = caps st2.

Definition shifted_opt (d : nat) (o1 o2 : option mstate) : Prop :=
  match o1, o2 with
  | Some st1, Some st2 => shifted d st1 st2
  | None, None => True
  | _, _ => False
  end.

Definition shifted_cont (d : nat) (k1 k2 : mstate -> option mstate) : Prop :=
  forall st1 st2, shifted d st1 st2 -> shifted_opt d (k1 st1) (k2 st2).

(** *** Texts *)

(** Every line feed turned into a blank. *)
Definition newlines_to_spaces (s : text) : text :=
  map (fun c => if Ascii.eqb c LF then " "%char else c) s.

Definition ends_with (c : ascii) (s : text) : Prop := exists x, s = x ++ [c].

(** [sub] occurs somewhere in [s]. *)
Fixpoint occurs (sub s : text) : bool :=
  PyStr.startswith s sub ||
  match s with
  | [] => false
  | _ :: t => occurs sub t
  end.

(** The text holds a documentation comment: the opening mark, at least
    one character, and the closing mark further on. *)
Fixpoint has_doc_block (s : text) : bool :=
  (PyStr.startswith s "/**" && occurs "*/" (skipn 4 s)) ||
  match s with
  | [] => false
  | _ :: t => has_doc_block t
  end.

(** The two replacements of the normalisation of line endings. *)
Definition crlf_to_lf (s : text) : text := PyStr.replace [CR; LF] [LF] s.
Definition cr_to_lf (s : text) : text := PyStr.replace [CR] [LF] s.

(** How the normalisation of line endings relates a text to its result:
    a carriage return becomes a line feed, or goes when a line feed
    follows it; everything else stays. *)
Inductive line_endings : text -> text -> Prop :=
| LE_nil : line_endings [] []
| LE_keep c s s' :
    c <> CR -> line_endings s s' -> line_endings (c :: s) (c :: s')
| LE_cr s s' :
    line_endings s s' -> line_endings (CR :: s) (LF :: s')
| LE_crlf s s' :
    line_endings s s' -> line_endings (CR :: LF :: s) (LF :: s').

(** *** Outputs *)

(** The function entries of an output, in order. *)
Definition function_entries (es : list ApiEntry) : list FunctionEntry :=
  flat_map (fun e => match e with Function f => [f] | _ => [] end) es.

(** What one block adds to the output. *)
Definition entries_of_block (filename : text) (block : match_obj) : list ApiEntry :=
  option_list (entry_of_block filename (group block "comment") (group block "code")).

(** What a file contributes to the output of a run. *)
Definition entries_of_file (w : World) (root file : text) : list ApiEntry :=
  if PyStr.endswith file ".inc" then
    match parse_include_file w (path_join root file) file with
    | Ok entries => entries
    | Raised _ => []
    end
  else [].

(** *** Inputs of the examples *)

Definition dox_inc : text :=
  lines ["/** Does X.";
         " * @param a the value";
         " * @return true on success */";
         "native bool DoX(int a);"].

Definition foo_one_line_inc : text :=
  lines ["/** A handle. */";
         "methodmap Foo < Bar { public native void Go(); public property int Size { ... } };"].

Definition foo_indented_inc : text :=
  lines ["/** A handle. */";
         "methodmap Foo < Bar {";
         "    public void Go();";
         "};"].

Definition foo_inline_inc : text :=
  lines ["/** A handle. */";
         "methodmap Foo {public void Go(int a);";
         "};"].

Definition leading_tag_comment : list text :=
  map txt ["/**"; " * @param a the value"; " * @return true on success"; " */"].

Definition undocumented_inc : text :=
  lines ["native bool DoX(int a);"].

Definition two_declarations_inc : text :=
  lines ["/** Does X. */";
         "native bool DoX(int a);";
         "native bool DoY(int a);"].

(** A declaration ahead of the first comment of [dox_inc]. *)
Definition early_declaration : text :=
  lines ["native bool Early(int a);"; ""].

(** The file system with the given files under "inc"; a file with no
    content cannot be read. *)
Fixpoint lookup_file (files : list (text * option text)) (path : text)
  : result text :=
  match files with
  | [] => Raised "[Errno 2] No such file or directory"
  | (name, c) :: files' =>
      if text_eqb (path_join "inc" name) path then
        match c with
        | Some content => Ok content
        | None => Raised "[Errno 13] Permission denied"
        end
      else lookup_file files' path
  end.

(** In that file system a file can be created in the current directory
    and under "inc"; there is no other directory. *)
Definition create_file (path : text) : result unit :=
  if existsb (Ascii.eqb "/") path && negb (PyStr.startswith path "inc/")
  then Raised ("[Errno 2] No such file or directory: '" +++ path +++ "'")
  else Ok tt.

Definition world_of (files : list (text * option text)) : World :=
  {| isdir := fun d => text_eqb d "inc";
     walk := fun d => if text_eqb d "inc" then [(txt "inc", map fst files)] else [];
     read_file := lookup_file files;
     open_output := create_file |}.

(** A directory with a file that cannot be read and a file that can. *)
Definition mixed_world : World :=
  world_of [(txt "bad.inc", None); (txt "dox.inc", Some dox_inc)].

Definition empty_world : World := world_of [].

Definition declarations_world : World :=
  world_of [(txt "undocumented.inc", Some undocumented_inc);
            (txt "early.inc", Some (early_declaration ++ dox_inc))].

(** *** Expected outputs of the examples *)

Definition dox_param : ParameterEntry :=
  {| p_name := "a"; p_type := "int"; p_default := None;
     p_description := "the value" |}.

Definition dox_tags : Tags :=
  {| t_param := [{| pd_name := "a"; pd_description := "the value" |}];
     t_error := []; t_note := [];
     t_return := "true on success";
     t_more := [] |}.

Definition dox_entry (filename : text) : FunctionEntry :=
  {| f_name := "DoX"; f_type := "native"; f_source_file := filename;
     f_return_type := "bool"; f_comment := "Does X.";
     f_tags := dox_tags; f_params := [dox_param];
     f_full_declaration := "native bool DoX(int a);" |}.

(** The entry of a methodmap [Foo] that inherits from [Bar] and has no
    members. *)
Definition foo_entry (filename : text) : MethodmapEntry :=
  {| mm_name := "Foo"; mm_source_file := filename;
     mm_inherits := Some (txt "Bar"); mm_comment := "A handle.";
     mm_tags := initial_tags;
     mm_methods := []; mm_properties := [];
     mm_full_declaration := "methodmap Foo < Bar" |}.

(** The entry of [foo_inline_inc], with its method and the parameter of
    the method. *)
Definition foo_inline_param : ParameterEntry :=
  {| p_name := "a"; p_type := "int"; p_default := None; p_description := [] |}.

Definition foo_inline_method : MethodEntry :=
  {| me_name := "Go"; me_type := "public"; me_return_type := "void";
     me_params := [foo_inline_param];
     me_full_declaration := "public void Go(int a);" |}.

Definition foo_inline_entry : MethodmapEntry :=
  {| mm_name := "Foo"; mm_source_file := "foo.inc";
     mm_inherits := None; mm_comment := "A handle.";
     mm_tags := initial_tags;
     mm_methods := [foo_inline_method];
     mm_properties := [];
     mm_full_declaration := "methodmap Foo" |}.

(** *** Words of a pattern with what its groups capture *)

(** [lang_caps fl r w cs]: [w] is a word of [r], matched in a way that
    leaves the captures [cs], latest first.  Anchors and look-ahead are
    left aside as in [lang]. *)
Inductive lang_caps (fl : flags) : regex -> text -> list (string * text) -> Prop :=
| LC_eps : lang_caps fl Eps [] []
| LC_atom a c : atom_ok fl a c = true -> lang_caps fl (Atom a) [c] []
| LC_str w : lang_caps fl (Str w) w []
| LC_bol : lang_caps fl Bol [] []
| LC_eol : lang_caps fl Eol [] []
| LC_seq r1 r2 w1 w2 cs1 cs2 :
    lang_caps fl r1 w1 cs1 -> lang_caps fl r2 w2 cs2 ->
    lang_caps fl (Seq r1 r2) (w1 ++ w2) (cs2 ++ cs1)
| LC_alt_l r1 r2 w cs : lang_caps fl r1 w cs -> lang_caps fl (Alt r1 r2) w cs
| LC_alt_r r1 r2 w cs : lang_caps fl r2 w cs -> lang_caps fl (Alt r1 r2) w cs
| LC_opt_some r w cs : lang_caps fl r w cs -> lang_caps fl (Opt r) w cs
| LC_opt_none r : lang_caps fl (Opt r) [] []
| LC_star g a w :
    Forall (fun c => atom_ok fl a c = true) w -> lang_caps fl (Star g a) w []
| LC_group n r w cs :
    lang_caps fl r w cs -> lang_caps fl (Group n r) w ((n, w) :: cs)
| LC_ahead r : lang_caps fl (Ahead r) [] [].

(** *** Well-formed fields *)

(** A non-empty text made of characters of one class. *)
Definition word_of (p : ascii -> bool) (v : text) : Prop :=
  v <> [] /\ Forall (fun c => p c = true) v.

(** The four keywords a declaration of a function can start with. *)
Definition function_keywords : list text :=
  [txt "native"; txt "stock"; txt "forward"; txt "public"].

(** The source file an entry says it comes from. *)
Definition source_file_of (e : ApiEntry) : text :=
  match e with
  | Function f => f_source_file f
  | Methodmap m => mm_source_file m
  | Typedef t => td_source_file t
  end.

(** The methodmap entries of an output, in order. *)
Definition methodmap_entries (es : list ApiEntry) : list MethodmapEntry :=
  flat_map (fun e => match e with Methodmap m => [m] | _ => [] end) es.

(** The typedef entries of an output, in order. *)
Definition typedef_entries (es : list ApiEntry) : list TypedefEntry :=
  flat_map (fun e => match e with Typedef t => [t] | _ => [] end) es.

(** What is asked of the fields a declaration of a function fills in,
    for an entry or for a method alike. *)
Definition function_fields_ok (type return_type name full_declaration : text)
  : Prop :=
  In type function_keywords /\
  word_of return_type_char return_type /\
  word_of is_word name /\
  PyStr.startswith full_declaration type = true /\
  ends_with ";" full_declaration /\
  ~ In LF full_declaration.

(** *** Line-ending conventions *)

(** A text with Unix line endings, saved with Windows ones and with the
    ones of the classic Mac. *)
Definition to_crlf (s : text) : text :=
  flat_map (fun c => if Ascii.eqb c LF then [CR; LF] else [c]) s.

Definition to_cr (s : text) : text :=
  map (fun c => if Ascii.eqb c LF then CR else c) s.

(** How many times a character occurs. *)
Definition count_char (c : ascii) (s : text) : nat :=
  List.length (filter (Ascii.eqb c) s).

(** A comment that documents the parameter [a] twice. *)
Definition twice_documented : ParsedComment :=
  parse_comment_block
    (map txt ["/** Does X."; " * @param a first"; " * @param a second */"]).

(** *** Comments *)

(** A text that neither starts nor ends with a blank. *)
Definition trimmed (s : text) : Prop :=
  (forall c t, s = c :: t -> PyStr.isspace c = false) /\
  (forall x d, s = x ++ [d] -> PyStr.isspace d = false).

(** The part of the comment that holds the tags and the matches of the
    tags in it, as [parse_comment_block] finds them, and the content it
    reads off each. *)
Definition tags_str_of (comment_lines : list text) : text :=
  match split1 NOFLAGS TAGS_SPLIT_REGEX (full_comment_of comment_lines) with
  | _ :: p1 :: _ => "@"%char :: p1
  | _ => []
  end.

Definition tag_matches_of (comment_lines : list text) : list match_obj :=
  finditer DOTALL TAG_REGEX (tags_str_of comment_lines).

Definition tag_content (m : match_obj) : text :=
  PyStr.join " "
    (map PyStr.strip (PyStr.split LF (PyStr.strip (group m "content")))).

Definition tag_is (name : text) (m : match_obj) : bool :=
  text_eqb (group m "tag") name.

(** A comment without tags. *)
Definition plain_comment : list text := [txt "/** Does X. */"].

(** *** Runs *)

(** The entries the files of the visited directories give, in the order
    of the visit. *)
Definition visited_entries (w : World) (include_dir : text) : list ApiEntry :=
  flat_map (fun d => flat_map (entries_of_file w (fst d)) (snd d))
           (walk w include_dir).

(** Two worlds that [main] cannot tell apart from [include_dir] and
    [output]: the same answer on the directory, the same visit, the same
    content for every visited file whose name ends in [.inc], and the
    same answer when the output is opened for writing. *)
Definition same_includes (w1 w2 : World) (include_dir output : text) : Prop :=
  isdir w1 include_dir = isdir w2 include_dir /\
  walk w1 include_dir = walk w2 include_dir /\
  open_output w1 output = open_output w2 output /\
  forall d file,
    In d (walk w1 include_dir) -> In file (snd d) ->
    PyStr.endswith file ".inc" = true ->
    read_file w1 (path_join (fst d) file) =
    read_file w2 (path_join (fst d) file).

(** The directory of [mixed_world] with a note beside the two files, and
    the same with the note out of reach. *)
Definition noted_world : World :=
  world_of [(txt "bad.inc", None); (txt "dox.inc", Some dox_inc);
            (txt "notes.txt", Some (txt "/** note */ native int N();"))].

Definition unread_note_world : World :=
  world_of [(txt "bad.inc", None); (txt "dox.inc", Some dox_inc);
            (txt "notes.txt", None)].

(** *** Where the iterator finds its matches *)

(** The character before the position reached after [a], when the one
    before [a] is [pv]. *)
Definition prev_after (pv : option ascii) (a : text) : option ascii :=
  match rev a with
  | c :: _ => Some c
  | [] => pv
  end.

(** Whether a pattern looks at what comes after the match. *)
Fixpoint looks_ahead (r : regex) : bool :=
  match r with
  | Eol | Ahead _ => true
  | Seq r1 r2 | Alt r1 r2 => looks_ahead r1 || looks_ahead r2
  | Opt r1 | Group _ r1 => looks_ahead r1
  | _ => false
  end.

(** Two positions of the matcher, the second on a subject that goes on
    with [tail] where the first ends. *)
Definition extended (tail : text) (st1 st2 : mstate) : Prop :=
  rest st2 = rest st1 ++ tail /\ prev st2 = prev st1.

Definition extended_cont (tail : text) (k1 k2 : mstate -> option mstate)
  : Prop :=
  forall st1 st2, extended tail st1 st2 -> k1 st1 <> None -> k2 st2 <> None.

(** *** Tags *)

(** The entry a [param] tag leaves, if its content starts with a name. *)
Definition param_of_tag (m : match_obj) : list ParamDoc :=
  match re_match NOFLAGS PARAM_TAG_REGEX (tag_content m) with
  | Some pm =>
      [{| pd_name := group pm "name";
          pd_description := PyStr.strip (group pm "desc") |}]
  | None => []
  end.

(** [d.get(key)] on the keys added later. *)
Definition more_lookup (key : text) (d : list (text * list text))
  : option (list text) :=
  match find (fun kv => text_eqb (fst kv) key) d with
  | Some kv => Some (snd kv)
  | None => None
  end.

(** The names, besides the four the dictionary starts with, under which
    tags are collected. *)
Definition collected_keys : list text :=
  [txt "deprecated"; txt "see"; txt "author"].

Definition some_if_any {A} (l : list A) : option (list A) :=
  match l with
  | [] => None
  | _ => Some l
  end.

(** Whether a character can be part of a word of a pattern. *)
Fixpoint can_hold (fl : flags) (c : ascii) (r : regex) : bool :=
  match r with
  | Atom a | Star _ a => atom_ok fl a c
  | Str w => existsb (Ascii.eqb c) w
  | Seq r1 r2 | Alt r1 r2 => can_hold fl c r1 || can_hold fl c r2
  | Opt r1 | Group _ r1 => can_hold fl c r1
  | Eps | Bol | Eol | Ahead _ => false
  end.

(** A methodmap whose first method follows the opening brace on the
    same line. *)
Definition brace_method_inc : text :=
  lines ["/** A handle. */";
         "methodmap Foo {public int Go();";
         "    public int Stop();";
         "};"].

(** *** The blocks of a file, from their description *)

(** [s] cut at the first occurrence of [sub]: what precedes it and what
    follows it. *)
Fixpoint cut_at (sub s : text) : option (text * text) :=
  if PyStr.startswith s sub then Some ([], skipn (List.length sub) s)
  else match s with
       | [] => None
       | c :: t =>
           match cut_at sub t with
           | Some (a, b) => Some (c :: a, b)
           | None => None
           end
       end.

(** Whether the text is over, a last line feed left aside. *)
Definition at_end (s : text) : bool :=
  match s with
  | [] => true
  | [c] => Ascii.eqb c LF
  | _ => false
  end.

(** The code chunk at the head of [s]: the text up to the next opener,
    closed or not, or to the end of the text, a last line feed left
    out. *)
Fixpoint chunk (s : text) : text :=
  match s with
  | [] => []
  | c :: t =>
      if PyStr.startswith s "/**" || at_end s then [] else c :: chunk t
  end.

(** The block that starts at the head of [s], if one does: an opener, at
    least one character and the first closing mark behind it make the
    comment; blanks are passed over; the chunk follows.  The number is
    the length of the whole. *)
Definition block_at (s : text) : option (text * text * nat) :=
  if PyStr.startswith s "/**" then
    match skipn 3 s with
    | c :: t =>
        match cut_at "*/" t with
        | Some (x, r) =>
            let code := chunk (PyStr.lstrip r) in
            Some (txt "/**" ++ c :: x ++ txt "*/", code,
                  6 + List.length x +
                  (List.length r - List.length (PyStr.lstrip r)) +
                  List.length code)
        | None => None
        end
    | [] => None
    end
  else None.

(** The blocks of a text as the specification describes them, each with
    its comment and its code chunk, left to right: the next block is
    looked for behind the chunk of the last.  [skip] counts the
    characters still covered by the last block. *)
Fixpoint doc_blocks_from (skip : nat) (s : text) : list (text * text) :=
  match s with
  | [] => []
  | _ :: t =>
      match skip with
      | S n => doc_blocks_from n t
      | O =>
          match block_at s with
          | Some (comment, code, len) =>
              (comment, code) :: doc_blocks_from (len - 1) t
          | None => doc_blocks_from 0 t
          end
      end
  end.

Definition doc_blocks (s : text) : list (text * text) := doc_blocks_from 0 s.

(** The comment and the code chunk of a block the scanner found. *)
Definition block_texts (block : match_obj) : text * text :=
  (group block "comment", group block "code").

(** *** Declarations of functions, from their description *)

(** A place where a line starts: the start of the text, or right behind
    a line feed. *)
Definition line_start (before : text) : Prop :=
  before = [] \/ exists l, before = l ++ [LF].

(** The code holds, at the start of one of its lines, a text of the
    shape of a declaration of a function. *)
Definition declares_function (code : text) : Prop :=
  exists before w after,
    code = before ++ w ++ after /\ line_start before /\
    lang FUNC_FLAGS FUNC_REGEX w.

(** [decl] is the first declaration of a function in [code]: it starts
    at the leftmost start of a line where such a declaration can be
    read, and it ends with the first ");" behind that place. *)
Definition first_declaration (code decl : text) : Prop :=
  exists before after x,
    code = before ++ decl ++ after /\ line_start before /\
    lang FUNC_FLAGS FUNC_REGEX decl /\
    decl = x ++ txt ");" /\ occurs ");" x = false /\
    forall before' w' after',
      code = before' ++ w' ++ after' -> line_start before' ->
      lang FUNC_FLAGS FUNC_REGEX w' ->
      List.length before <= List.length before'.

(** Whether a pattern is free of anchors and look-ahead. *)
Fixpoint plain (r : regex) : bool :=
  match r with
  | Bol | Eol | Ahead _ => false
  | Seq r1 r2 | Alt r1 r2 => plain r1 && plain r2
  | Opt r1 | Group _ r1 => plain r1
  | _ => true
  end.

(** A declaration of a function, and the same without its keyword. *)
Definition dox_declaration : text := "native bool DoX(int a);".
Definition bare_declaration : text := "bool DoX(int a);".

(** * Properties *)

(** ** The matcher answers only with words of the pattern *)
Section Soundness.
Variable fl : flags.

Lemma exec_str_sound w : forall k p pv cs s res,
  exec_str w k p pv cs s = Some res ->
  exists s1 pv1, s = w ++ s1 /\
    k (MState (p + List.length w) pv1 s1 cs) = Some res.
Proof.
  induction w as [|d w IH]; intros k p pv cs s res H; simpl in H.
  - exists s, pv. rewrite Nat.add_0_r. auto.
  - destruct s as [|c t]; [discriminate|].
    destruct (Ascii.eqb d c) eqn:E; [|discriminate].
    apply Ascii.eqb_eq in E. subst c.
    apply IH in H. destruct H as (s1 & pv1 & -> & H).
    exists s1, pv1. split; [reflexivity|].
    simpl. rewrite <- Nat.add_succ_comm. exact H.
Qed.

Lemma star_greedy_sound a k : forall s p pv cs res,
  star_greedy fl a k p pv cs s = Some res ->
  exists w s1 pv1, Forall (fun c => atom_ok fl a c = true) w /\
    s = w ++ s1 /\ k (MState (p + List.length w) pv1 s1 cs) = Some res.
Proof.
  induction s as [|c t IH]; intros p pv cs res H; simpl in H.
  - exists [], [], pv. rewrite Nat.add_0_r. auto.
  - destruct (atom_ok fl a c) eqn:E.
    + destruct (star_greedy fl a k (S p) (Some c) cs t) eqn:G.
      * injection H as <-. apply IH in G.
        destruct G as (w & s1 & pv1 & Hw & -> & G).
        exists (c :: w), s1, pv1. repeat split; auto.
        simpl. rewrite <- Nat.add_succ_comm. exact G.
      * exists [], (c :: t), pv. rewrite Nat.add_0_r. auto.
    + exists [], (c :: t), pv. rewrite Nat.add_0_r. auto.
Qed.

Lemma star_lazy_sound a k : forall s p pv cs res,
  star_lazy fl a k p pv cs s = Some res ->
  exists w s1 pv1, Forall (fun c => atom_ok fl a c = true) w /\
    s = w ++ s1 /\ k (MState (p + List.length w) pv1 s1 cs) = Some res.
Proof.
  induction s as [|c t IH]; intros p pv cs res H; simpl in H.
  - exists [], [], pv. rewrite Nat.add_0_r.
    destruct (k (MState p pv [] cs)); [auto | discriminate].
  - destruct (k (MState p pv (c :: t) cs)) eqn:K.
    + exists [], (c :: t), pv. rewrite Nat.add_0_r. rewrite K. auto.
    + destruct (atom_ok fl a c) eqn:E; [|discriminate].
      apply IH in H. destruct H as (w & s1 & pv1 & Hw & -> & G).
      exists (c :: w), s1, pv1. repeat split; auto.
      simpl. rewrite <- Nat.add_succ_comm. exact G.
Qed.

Theorem exec_sound r : forall k st res,
  exec fl r k st = Some res ->
  exists w s1 pv1 cs',
    lang fl r w /\ rest st = w ++ s1 /\ caps_of r cs' /\
    k (MState (pos st + List.length w) pv1 s1 (cs' ++ caps st)) = Some res.
Proof.
  induction r as [ | a | w | | | r1 IH1 r2 IH2 | r1 IH1 r2 IH2 | r1 IH1
                 | g a | n r1 IH1 | r1 IH1 ];
    intros k st res H; simpl in H.
  - exists [], (rest st), (prev st), []. rewrite Nat.add_0_r.
    destruct st; simpl in *. repeat split; auto; constructor.
  - destruct (rest st) as [|c t] eqn:R; [discriminate|].
    destruct (atom_ok fl a c) eqn:E; [|discriminate].
    exists [c], t, (Some c), []. rewrite Nat.add_1_r.
    repeat split; auto; constructor; auto.
  - apply exec_str_sound in H. destruct H as (s1 & pv1 & R & H).
    exists w, s1, pv1, []. repeat split; auto; constructor.
  - destruct (at_bol fl st); [|discriminate].
    exists [], (rest st), (prev st), []. rewrite Nat.add_0_r.
    destruct st; simpl in *. repeat split; auto; constructor.
  - destruct (at_eol fl st); [|discriminate].
    exists [], (rest st), (prev st), []. rewrite Nat.add_0_r.
    destruct st; simpl in *. repeat split; auto; constructor.
  - apply IH1 in H. destruct H as (w1 & s1 & pv1 & cs1 & L1 & R1 & C1 & H).
    apply IH2 in H. simpl in H.
    destruct H as (w2 & s2 & pv2 & cs2 & L2 & R2 & C2 & H).
    exists (w1 ++ w2), s2, pv2, (cs2 ++ cs1).
    split; [constructor; auto|].
    split; [rewrite R1, R2, app_assoc; reflexivity|].
    split.
    + apply Forall_app; split;
        [ revert C2 | revert C1 ]; apply Forall_impl; intros x Hx; simpl;
        apply in_or_app; auto.
    + rewrite length_app, Nat.add_assoc, <- app_assoc. exact H.
  - destruct (exec fl r1 k st) eqn:E1.
    + injection H as <-. apply IH1 in E1.
      destruct E1 as (w & s1 & pv1 & cs1 & L & R & C & H).
      exists w, s1, pv1, cs1. repeat split; auto.
      * apply L_alt_l; auto.
      * revert C. apply Forall_impl. intros x Hx. simpl. apply in_or_app; auto.
    + apply IH2 in H.
      destruct H as (w & s1 & pv1 & cs1 & L & R & C & H).
      exists w, s1, pv1, cs1. repeat split; auto.
      * apply L_alt_r; auto.
      * revert C. apply Forall_impl. intros x Hx. simpl. apply in_or_app; auto.
  - destruct (exec fl r1 k st) eqn:E1.
    + injection H as <-. apply IH1 in E1.
      destruct E1 as (w & s1 & pv1 & cs1 & L & R & C & H).
      exists w, s1, pv1, cs1. repeat split; auto. constructor; auto.
    + exists [], (rest st), (prev st), []. rewrite Nat.add_0_r.
      destruct st; simpl in *.
      repeat split; auto; [apply L_opt_none | constructor].
  - destruct g.
    + apply star_greedy_sound in H.
      destruct H as (w & s1 & pv1 & Hw & R & H).
      exists w, s1, pv1, []. repeat split; auto; constructor; auto.
    + apply star_lazy_sound in H.
      destruct H as (w & s1 & pv1 & Hw & R & H).
      exists w, s1, pv1, []. repeat split; auto; constructor; auto.
  - apply IH1 in H. simpl in H.
    destruct H as (w & s1 & pv1 & cs1 & L & R & C & H).
    exists w, s1, pv1, ((n, firstn (pos st + List.length w - pos st) (rest st)) :: cs1).
    repeat split; auto.
    + constructor; auto.
    + constructor; [simpl; auto|].
      revert C. apply Forall_impl. intros x Hx. simpl. auto.
  - destruct (exec fl r1 (fun st' => Some st') st); [|discriminate].
    exists [], (rest st), (prev st), []. rewrite Nat.add_0_r.
    destruct st; simpl in *. repeat split; auto; constructor.
Qed.
End Soundness.

(** ** Matches, searches and iterations *)
Section Matches.
Variables (fl : flags) (r : regex).

Lemma match_here_sound adv p pv s m :
  match_here fl r adv p pv s = Some m ->
  lang fl r (group0 m) /\ m_start m = p /\
  m_end m = p + List.length (group0 m) /\
  (exists s1, s = group0 m ++ s1) /\
  caps_of r (m_caps m).
Proof.
  unfold match_here. intros H.
  destruct (exec fl r _ _) as [st|] eqn:E; [|discriminate].
  injection H as <-. simpl.
  apply exec_sound in E. simpl in E.
  destruct E as (w & s1 & pv1 & cs' & L & -> & C & K).
  destruct (adv && _); [discriminate|]. injection K as <-. simpl.
  rewrite Nat.add_comm, Nat.add_sub, firstn_app, Nat.sub_diag, firstn_all.
  simpl. rewrite !app_nil_r.
  repeat split; auto; [lia | eauto].
Qed.

Lemma search_from_sound : forall s p pv m,
  search_from fl r p pv s = Some m ->
  lang fl r (group0 m) /\
  exists a s1, s = a ++ group0 m ++ s1 /\
    m_start m = p + List.length a /\
    m_end m = m_start m + List.length (group0 m).
Proof.
  induction s as [|c t IH]; intros p pv m H; simpl in H.
  - destruct (match_here fl r false p pv []) eqn:E; [|discriminate].
    injection H as ->. apply match_here_sound in E.
    destruct E as (L & S & E & (s1 & R) & _). split; auto.
    exists [], s1. simpl. repeat split; auto; lia.
  - destruct (match_here fl r false p pv (c :: t)) eqn:E.
    + injection H as ->. apply match_here_sound in E.
      destruct E as (L & S & E & (s1 & R) & _). split; auto.
      exists [], s1. simpl. repeat split; auto; lia.
    + apply IH in H. destruct H as (L & a & s1 & -> & S & E').
      split; auto. exists (c :: a), s1. simpl. repeat split; auto; lia.
Qed.

Lemma search_sound s m :
  search fl r s = Some m ->
  lang fl r (group0 m) /\
  exists s1, s = firstn (m_start m) s ++ group0 m ++ s1 /\
             skipn (m_end m) s = s1.
Proof.
  unfold search. intros H. apply search_from_sound in H.
  destruct H as (L & a & s1 & -> & S & E). split; auto.
  exists s1. simpl in S. rewrite E, S. split.
  - rewrite firstn_app, Nat.sub_diag, firstn_all. simpl.
    rewrite app_nil_r. reflexivity.
  - rewrite <- length_app, app_assoc, skipn_app, skipn_all, Nat.sub_diag.
    reflexivity.
Qed.

(** Nothing is found where no attempt succeeds. *)
Lemma finditer_from_none : forall s sk p pv,
  (forall a b p' pv', s = a ++ b ->
     match_here fl r false p' pv' b = None) ->
  finditer_from fl r sk p pv s = [].
Proof.
  induction s as [|c t IH]; intros sk p pv H.
  - simpl. destruct sk; [|reflexivity].
    rewrite (H [] []); reflexivity.
  - simpl. destruct sk.
    + rewrite (H [] (c :: t)) by reflexivity.
      apply IH. intros a b p' pv' ->. apply (H (c :: a) b). reflexivity.
    + apply IH. intros a b p' pv' ->. apply (H (c :: a) b). reflexivity.
Qed.

Lemma finditer_from_sound : forall s sk p pv m,
  In m (finditer_from fl r sk p pv s) -> lang fl r (group0 m).
Proof.
  induction s as [|c t IH]; intros sk p pv m H.
  - simpl in H. destruct sk; [|contradiction].
    destruct (match_here fl r false p pv []) as [m1|] eqn:E1; [|contradiction].
    destruct (m_end m1 =? m_start m1).
    + destruct H as [<-|H]; [apply match_here_sound in E1; apply E1|].
      destruct (match_here fl r true p pv []) as [m2|] eqn:E2; [|contradiction].
      destruct H as [<-|[]]. apply match_here_sound in E2; apply E2.
    + destruct H as [<-|[]]. apply match_here_sound in E1; apply E1.
  - simpl in H. destruct sk; [|eapply IH; eauto].
    destruct (match_here fl r false p pv (c :: t)) as [m1|] eqn:E1;
      [|eapply IH; eauto].
    destruct (m_end m1 =? m_start m1).
    + destruct H as [<-|H]; [apply match_here_sound in E1; apply E1|].
      destruct (match_here fl r true p pv (c :: t)) as [m2|] eqn:E2;
        [|eapply IH; eauto].
      destruct H as [<-|H]; [apply match_here_sound in E2; apply E2|].
      eapply IH; eauto.
    + destruct H as [<-|H]; [apply match_here_sound in E1; apply E1|].
      eapply IH; eauto.
Qed.
End Matches.

(** ** Python string methods *)

Lemma lstrip_head c t : PyStr.isspace c = false -> PyStr.lstrip (c :: t) = c :: t.
Proof. intros H. simpl. rewrite H. reflexivity. Qed.

Lemma rstrip_last x d : PyStr.isspace d = false -> PyStr.rstrip (x ++ [d]) = x ++ [d].
Proof.
  intros H. unfold PyStr.rstrip. rewrite rev_app_distr. simpl. rewrite H.
  change (d :: rev x) with (rev [d] ++ rev x).
  rewrite <- rev_app_distr, rev_involutive. reflexivity.
Qed.

(** [strip] leaves alone a text that neither starts nor ends with a blank. *)
Lemma strip_fixed s c t x d :
  s = c :: t -> s = x ++ [d] ->
  PyStr.isspace c = false -> PyStr.isspace d = false ->
  PyStr.strip s = s.
Proof.
  intros Hs Hx Hc Hd. unfold PyStr.strip.
  rewrite Hs, lstrip_head by exact Hc.
  rewrite <- Hs, Hx. apply rstrip_last, Hd.
Qed.

Lemma startswith_nil s : PyStr.startswith s [] = true.
Proof. destruct s; reflexivity. Qed.

(** Replacing one character by another is a map. *)
Lemma replace_char a b s :
  PyStr.replace [a] [b] s = map (fun c => if Ascii.eqb c a then b else c) s.
Proof.
  unfold PyStr.replace. induction s as [|c t IH]; [reflexivity|].
  cbn [PyStr.replace_aux PyStr.startswith map List.length Nat.sub].
  rewrite startswith_nil, Ascii.eqb_sym, andb_true_r.
  destruct (Ascii.eqb c a); simpl; rewrite IH; reflexivity.
Qed.

(** ** Declarations of functions *)

Lemma ends_with_app c a b : ends_with c b -> ends_with c (a ++ b).
Proof. intros [x ->]. exists (a ++ x). apply app_assoc. Qed.

Ltac lang_inv :=
  repeat match goal with
    | H : lang _ (Plus _ _) _ |- _ => unfold Plus in H
    | H : lang _ (Seq _ _) _ |- _ => inversion H; subst; clear H
    | H : lang _ (Group _ _) _ |- _ => inversion H; subst; clear H
    | H : lang _ (Alt _ _) _ |- _ => inversion H; subst; clear H
    | H : lang _ (Str _) _ |- _ => inversion H; subst; clear H
    | H : lang _ (Atom _) _ |- _ => inversion H; subst; clear H
    | H : lang _ Bol _ |- _ => inversion H; subst; clear H
    | H : lang _ Eol _ |- _ => inversion H; subst; clear H
    | H : lang _ Eps _ |- _ => inversion H; subst; clear H
    | H : lang _ (Ahead _) _ |- _ => inversion H; subst; clear H
    end.

(** A declaration found by the pattern starts with its keyword and ends
    with its semicolon. *)
Lemma func_match_shape w :
  lang FUNC_FLAGS FUNC_REGEX w ->
  (exists c t, w = c :: t /\ PyStr.isspace c = false) /\ ends_with ";" w.
Proof.
  unfold FUNC_REGEX. intros H. lang_inv;
    (split; [simpl; eexists; eexists; split; [reflexivity|reflexivity]|]);
    repeat apply ends_with_app; exists (txt ")"); reflexivity.
Qed.

Lemma func_match_one_line w :
  lang FUNC_FLAGS FUNC_REGEX w -> one_line w = newlines_to_spaces w.
Proof.
  intros H. apply func_match_shape in H.
  destruct H as ((c & t & Hw & Hc) & (x & Hx)).
  unfold one_line. rewrite (@strip_fixed _ _ _ _ _ Hw Hx Hc eq_refl).
  apply replace_char.
Qed.

(** ** The loop over the blocks *)

Lemma fold_block_step filename blocks : forall acc,
  fold_left (block_step filename) blocks acc =
  acc ++ flat_map (entries_of_block filename) blocks.
Proof.
  induction blocks as [|b bs IH]; intros acc; simpl.
  - rewrite app_nil_r. reflexivity.
  - rewrite IH. unfold block_step, entries_of_block.
    destruct (entry_of_block _ _ _); simpl.
    + rewrite <- app_assoc. reflexivity.
    + reflexivity.
Qed.

Lemma parse_include_content_blocks content filename :
  parse_include_content content filename =
  flat_map (entries_of_block filename)
           (comment_and_code_blocks (normalize_line_endings content)).
Proof. unfold parse_include_content. apply fold_block_step. Qed.

Lemma function_entries_app a b :
  function_entries (a ++ b) = function_entries a ++ function_entries b.
Proof. unfold function_entries. apply flat_map_app. Qed.

(** ** Methods of a methodmap *)

Lemma parse_param_no_comment piece p :
  In p (parse_param (comment_params_of no_comment) piece) -> p_description p = [].
Proof.
  unfold parse_param. destruct (PyStr.strip piece) as [|c t]; [contradiction|].
  destruct (re_match NOFLAGS PARAM_REGEX (c :: t)); [|contradiction].
  intros [<-|[]]. reflexivity.
Qed.

Lemma parse_params_string_no_comment params_str p :
  In p (parse_params_string params_str no_comment) -> p_description p = [].
Proof.
  unfold parse_params_string. destruct (PyStr.strip params_str); [contradiction|].
  intros H. apply in_flat_map in H. destruct H as (piece & _ & H).
  apply (parse_param_no_comment piece), H.
Qed.

Lemma methodmap_members_methods code_text meth p :
  In meth (fst (methodmap_members code_text)) -> In p (me_params meth) ->
  p_description p = [].
Proof.
  unfold methodmap_members.
  destruct (search DOTALL FULL_MAP_REGEX code_text); [|contradiction].
  simpl. intros H. apply in_map_iff in H. destruct H as (mf & <- & _).
  apply parse_params_string_no_comment.
Qed.

Lemma entry_of_block_methodmap filename comment_text code_text m :
  entry_of_block filename comment_text code_text = Some (Methodmap m) ->
  mm_methods m = fst (methodmap_members code_text) /\
  mm_properties m = snd (methodmap_members code_text).
Proof.
  unfold entry_of_block.
  destruct (search FUNC_FLAGS FUNC_REGEX code_text); [discriminate|].
  destruct (search NOFLAGS METHODMAP_REGEX code_text).
  - destruct (methodmap_members code_text). intros H. injection H as <-. auto.
  - destruct (search NOFLAGS TYPEDEF_REGEX code_text); discriminate.
Qed.

(** C9: in every methodmap of the output, every parameter of every
    method has the empty description: the methods are parsed against a
    comment without [param] tags. *)
Theorem C9_method_parameters_undocumented content filename m meth p :
  In (Methodmap m) (parse_include_content content filename) ->
  In meth (mm_methods m) -> In p (me_params meth) ->
  p_description p = [].
Proof.
  rewrite parse_include_content_blocks. intros H Hm Hp.
  apply in_flat_map in H. destruct H as (b & _ & H).
  unfold entries_of_block in H.
  destruct (entry_of_block _ _ _) as [e|] eqn:E; [|contradiction].
  destruct H as [->|[]].
  apply entry_of_block_methodmap in E. destruct E as (E & _).
  rewrite E in Hm. eapply methodmap_members_methods; eauto.
Qed.

(** C9 on the methodmap of [foo_inline_inc], whose method has a
    parameter. *)
Lemma C9_witness :
  In (Methodmap foo_inline_entry)
     (parse_include_content foo_inline_inc "foo.inc") /\
  In foo_inline_method (mm_methods foo_inline_entry) /\
  In foo_inline_param (me_params foo_inline_method) /\
  p_description foo_inline_param = [].
Proof.
  assert (H1 : In (Methodmap foo_inline_entry)
                  (parse_include_content foo_inline_inc "foo.inc"))
    by (vm_compute; left; reflexivity).
  assert (H2 : In foo_inline_method (mm_methods foo_inline_entry))
    by (simpl; left; reflexivity).
  assert (H3 : In foo_inline_param (me_params foo_inline_method))
    by (simpl; left; reflexivity).
  split; [exact H1|]. split; [exact H2|]. split; [exact H3|].
  exact (@C9_method_parameters_undocumented
           foo_inline_inc (txt "foo.inc") foo_inline_entry
           foo_inline_method foo_inline_param H1 H2 H3).
Defined.

(** ** The examples of the specification *)

Lemma dox_inc_entries filename :
  parse_include_content dox_inc filename = [Function (dox_entry filename)].
Proof. vm_compute. reflexivity. Qed.

(** C1: the file made of the comment of [DoX] and its declaration yields
    exactly one entry: the native [DoX] returning [bool], with its one
    parameter [a] of type [int] described as in the comment, the [return]
    tag and the description of the comment. *)
Theorem C1_round_trip (w : World) (filepath filename : text) :
  read_file w filepath = Ok dox_inc ->
  exists f p,
    parse_include_file w filepath filename = Ok [Function f] /\
    f_name f = "DoX" /\ f_type f = "native" /\ f_return_type f = "bool" /\
    f_params f = [p] /\
    p_name p = "a" /\ p_type p = "int" /\ p_description p = "the value" /\
    t_return (f_tags f) = "true on success" /\
    f_comment f = "Does X.".
Proof.
  intros H. exists (dox_entry filename), dox_param.
  unfold parse_include_file. rewrite H, dox_inc_entries.
  repeat (split; [reflexivity|]). reflexivity.
Qed.

(** C1 on the readable file of [mixed_world]. *)
Lemma C1_witness :
  exists f p,
    parse_include_file mixed_world "inc/dox.inc" "dox.inc" = Ok [Function f] /\
    f_name f = "DoX" /\ f_type f = "native" /\ f_return_type f = "bool" /\
    f_params f = [p] /\
    p_name p = "a" /\ p_type p = "int" /\ p_description p = "the value" /\
    t_return (f_tags f) = "true on success" /\
    f_comment f = "Does X.".
Proof.
  apply (@C1_round_trip mixed_world (txt "inc/dox.inc") (txt "dox.inc")).
  reflexivity.
Defined.

(** C2 as stated fails: a declaration that no comment precedes matches
    the pattern of a function and leaves no entry. *)
Lemma C2_counterexample :
  exists m,
    In m (finditer FUNC_FLAGS FUNC_REGEX undocumented_inc) /\
    group0 m = "native bool DoX(int a);" /\
    parse_include_content undocumented_inc "DoX.inc" = [].
Proof.
  exists (Match 0 23 (txt "native bool DoX(int a);")
                [("params", txt "int a"); ("name", txt "DoX");
                 ("return_type", txt "bool"); ("type", txt "native")]).
  split; [vm_compute; left; reflexivity|].
  split; [reflexivity | vm_compute; reflexivity].
Qed.

(** Of two declarations after one comment only the first leaves an
    entry. *)
Lemma second_declaration_ignored filename :
  map f_name (function_entries
                (parse_include_content two_declarations_inc filename)) =
  [txt "DoX"].
Proof. vm_compute. reflexivity. Qed.

(** C3 as stated fails: for the one-line methodmap no method and no
    property is found. *)
Lemma C3_counterexample :
  ~ exists m meth prop,
      parse_include_content foo_one_line_inc "foo.inc" = [Methodmap m] /\
      mm_inherits m = Some (txt "Bar") /\
      mm_methods m = [meth] /\ me_name meth = "Go" /\
      mm_properties m = [prop] /\
      pr_name prop = "Size" /\ pr_type prop = "int".
Proof.
  intros (m & meth & prop & H & _ & Hm & _).
  assert (E : parse_include_content foo_one_line_inc "foo.inc" =
              [Methodmap (foo_entry "foo.inc")]) by (vm_compute; reflexivity).
  rewrite E in H. injection H as <-. discriminate Hm.
Qed.

(** C3, amended: the one-line methodmap yields one entry, the methodmap
    [Foo] inheriting from [Bar]; as no line of the chunk starts with the
    closing brace and semicolon, no body is found and the entry has no
    method and no property. *)
Theorem C3_one_line_methodmap filename :
  exists m,
    parse_include_content foo_one_line_inc filename = [Methodmap m] /\
    mm_name m = "Foo" /\ mm_inherits m = Some (txt "Bar") /\
    mm_methods m = [] /\ mm_properties m = [] /\
    search DOTALL FULL_MAP_REGEX
      "methodmap Foo < Bar { public native void Go(); public property int Size { ... } };"
    = None.
Proof.
  exists (foo_entry filename).
  split; [vm_compute; reflexivity|].
  repeat (split; [reflexivity|]).
  vm_compute. reflexivity.
Qed.

(** C4: a parameter written with a default value gets the empty text as
    its default, with or without [const]: the lazy group that should
    capture it stops at once. *)
Theorem C4_default_value_lost :
  parse_params_string "int a = 5" no_comment =
    [{| p_name := "a"; p_type := "int"; p_default := Some [];
        p_description := [] |}] /\
  parse_params_string "const float b = 1.0" no_comment =
    [{| p_name := "b"; p_type := "float"; p_default := Some [];
        p_description := [] |}].
Proof. split; vm_compute; reflexivity. Qed.

(** C5: when the first line of the comment body is a tag, that tag ends
    up in the description and is missing from the tags: the cut is made
    at a line feed, and none precedes the first line. *)
Theorem C5_leading_tag_absorbed :
  full_comment_of leading_tag_comment =
    lines ["@param a the value"; "@return true on success"] /\
  parse_comment_block leading_tag_comment =
    {| description := "@param a the value";
       tags := {| t_param := []; t_error := []; t_note := [];
                  t_return := "true on success"; t_more := [] |} |}.
Proof. split; vm_compute; reflexivity. Qed.

(** C6: a method declared on an indented line of the body of a methodmap
    is not collected: the pattern is anchored at the start of a line. *)
Theorem C6_indented_method_missed filename :
  parse_include_content foo_indented_inc filename =
    [Methodmap (foo_entry filename)] /\
  search DOTALL FULL_MAP_REGEX
    (lines ["methodmap Foo < Bar {"; "    public void Go();"; "};"]) <> None /\
  finditer FUNC_FLAGS FUNC_REGEX (lines [""; "    public void Go();"]) = [] /\
  map (fun m => group m "name")
      (finditer FUNC_FLAGS FUNC_REGEX (lines [""; "public void Go();"])) =
    [txt "Go"].
Proof.
  split; [vm_compute; reflexivity|].
  split; [vm_compute; discriminate|].
  split; vm_compute; reflexivity.
Qed.

(** ** The driver *)

Lemma scan_file_data w root st file :
  all_api_data (scan_file w root st file) =
  all_api_data st ++ entries_of_file w root file.
Proof.
  unfold scan_file, entries_of_file.
  destruct (PyStr.endswith file ".inc"); [|symmetry; apply app_nil_r].
  destruct (parse_include_file w (path_join root file) file) as [[|e es]|msg];
    simpl; rewrite ?app_nil_r; reflexivity.
Qed.

Lemma scan_files_data w root files : forall st,
  all_api_data (fold_left (scan_file w root) files st) =
  all_api_data st ++ flat_map (entries_of_file w root) files.
Proof.
  induction files as [|f fs IH]; intros st; simpl.
  - symmetry. apply app_nil_r.
  - rewrite IH, scan_file_data, app_assoc. reflexivity.
Qed.

Lemma scan_dirs_data w dirs : forall st,
  all_api_data (fold_left (scan_dir w) dirs st) =
  all_api_data st ++
  flat_map (fun d => flat_map (entries_of_file w (fst d)) (snd d)) dirs.
Proof.
  induction dirs as [|d ds IH]; intros st; cbn [fold_left flat_map].
  - symmetry. apply app_nil_r.
  - rewrite IH. unfold scan_dir. rewrite scan_files_data, app_assoc.
    reflexivity.
Qed.

(** What has been printed stays printed. *)
Lemma scan_file_printed w root st file line :
  In line (printed st) -> In line (printed (scan_file w root st file)).
Proof.
  unfold scan_file. intros H.
  destruct (PyStr.endswith file ".inc"); [|exact H].
  destruct (parse_include_file w (path_join root file) file); simpl;
    repeat (apply in_or_app; left); exact H.
Qed.

Lemma scan_files_printed w root files line : forall st,
  In line (printed st) ->
  In line (printed (fold_left (scan_file w root) files st)).
Proof.
  induction files as [|f fs IH]; intros st H; simpl; [exact H|].
  apply IH, scan_file_printed, H.
Qed.

(** A file that cannot be read is reported and adds nothing. *)
Lemma scan_file_failure w root st file e :
  PyStr.endswith file ".inc" = true ->
  read_file w (path_join root file) = Raised e ->
  all_api_data (scan_file w root st file) = all_api_data st /\
  In ("    !! Failed to parse " +++ file +++ ": " +++ e)
     (printed (scan_file w root st file)).
Proof.
  intros Hinc Hread. unfold scan_file, parse_include_file.
  rewrite Hinc, Hread. simpl. split; [reflexivity|].
  apply in_or_app. right. left. reflexivity.
Qed.

Lemma scan_all_data w include_dir :
  all_api_data (scan_all w include_dir) =
  flat_map (fun d => flat_map (entries_of_file w (fst d)) (snd d))
           (walk w include_dir).
Proof. unfold scan_all. rewrite scan_dirs_data. reflexivity. Qed.

(** What the scan printed is part of what the run prints, and so is the
    count of the entries, whether or not the output can be opened. *)
Lemma main_printed w include_dir output line :
  isdir w include_dir = true ->
  In line (printed (scan_all w include_dir)) \/
  line = [LF] +++ "Successfully parsed " +++
           PyStr.of_nat (List.length (all_api_data (scan_all w include_dir))) +++
           " API entries." ->
  In line (stdout (main w include_dir output)).
Proof.
  intros H Hl. unfold main. rewrite H. cbn [negb].
  assert (Hout : In line
            (printed (scan_all w include_dir) ++
             [[LF] +++ "Successfully parsed " +++
                PyStr.of_nat (List.length (all_api_data (scan_all w include_dir))) +++
                " API entries."])).
  { apply in_or_app. destruct Hl as [Hl | ->]; [left; exact Hl|].
    right. left. reflexivity. }
  destruct (open_output w output); cbn [stdout]; [|exact Hout].
  apply in_or_app. left. exact Hout.
Qed.

Lemma main_written w include_dir output :
  isdir w include_dir = true ->
  written (main w include_dir output) =
  match open_output w output with
  | Ok _ =>
      Some (output,
            flat_map (fun d => flat_map (entries_of_file w (fst d)) (snd d))
                     (walk w include_dir))
  | Raised _ => None
  end.
Proof.
  intros H. unfold main. rewrite H. cbn [negb].
  destruct (open_output w output); cbn [written]; [|reflexivity].
  rewrite scan_all_data. reflexivity.
Qed.

Lemma main_status w include_dir output :
  isdir w include_dir = true ->
  exit_status (main w include_dir output) =
  match open_output w output with
  | Ok _ => 0
  | Raised _ => 1
  end.
Proof.
  intros H. unfold main. rewrite H. cbn [negb].
  destruct (open_output w output); reflexivity.
Qed.

(** C7: in a directory holding one file that cannot be read and one that
    can, in either order, the scan ends with exactly the entries of the
    readable file: the failure is printed, the scan goes on to its end,
    where the count of these entries is printed, and the failing file
    leaves the entries gathered so far as they were.  That array is what
    is written, and the run ends normally, when the output can be
    opened; when it cannot, that exception is not caught and nothing is
    written. *)
Theorem C7_unreadable_file_is_skipped
        w include_dir output root files bad good e content :
  isdir w include_dir = true ->
  walk w include_dir = [(root, files)] ->
  files = [bad; good] \/ files = [good; bad] ->
  PyStr.endswith bad ".inc" = true ->
  PyStr.endswith good ".inc" = true ->
  read_file w (path_join root bad) = Raised e ->
  read_file w (path_join root good) = Ok content ->
  all_api_data (scan_all w include_dir) = parse_include_content content good /\
  In ("    !! Failed to parse " +++ bad +++ ": " +++ e)
     (stdout (main w include_dir output)) /\
  In ([LF] +++ "Successfully parsed " +++
        PyStr.of_nat (List.length (parse_include_content content good)) +++
        " API entries.")
     (stdout (main w include_dir output)) /\
  (forall st, all_api_data (scan_file w root st bad) = all_api_data st) /\
  match open_output w output with
  | Ok _ =>
      written (main w include_dir output) =
        Some (output, parse_include_content content good) /\
      exit_status (main w include_dir output) = 0
  | Raised _ =>
      written (main w include_dir output) = None /\
      exit_status (main w include_dir output) = 1
  end.
Proof.
  intros Hdir Hwalk Hfiles Hbad Hgood Rbad Rgood.
  assert (Ebad : entries_of_file w root bad = []).
  { unfold entries_of_file, parse_include_file. rewrite Hbad, Rbad. reflexivity. }
  assert (Egood : entries_of_file w root good = parse_include_content content good).
  { unfold entries_of_file, parse_include_file. rewrite Hgood, Rgood. reflexivity. }
  assert (Edata : flat_map (fun d => flat_map (entries_of_file w (fst d)) (snd d))
                    (walk w include_dir)
                  = parse_include_content content good).
  { rewrite Hwalk. cbn [flat_map fst snd]. rewrite app_nil_r.
    destruct Hfiles as [-> | ->]; cbn [flat_map]; rewrite Ebad, Egood;
      cbn [app]; rewrite ?app_nil_r; reflexivity. }
  assert (Escan : all_api_data (scan_all w include_dir)
                  = parse_include_content content good)
    by (rewrite scan_all_data; exact Edata).
  split; [exact Escan|].
  split; [|split; [|split]].
  - apply main_printed; [exact Hdir|]. left.
    unfold scan_all. rewrite Hwalk. cbn [fold_left].
    unfold scan_dir. cbn [fst snd].
    destruct Hfiles as [-> | ->]; cbn [fold_left].
    + apply scan_file_printed.
      apply (scan_file_failure w root _ bad Hbad Rbad).
    + apply (scan_file_failure w root _ bad Hbad Rbad).
  - apply main_printed; [exact Hdir|]. right. rewrite Escan. reflexivity.
  - intros st. apply (scan_file_failure w root st bad Hbad Rbad).
  - rewrite main_written, main_status, Edata by exact Hdir.
    destruct (open_output w output); split; reflexivity.
Qed.

(** C8 as stated fails: the directory exists, and yet nothing is written
    and the run ends with status 1, when the output cannot be opened. *)
Lemma C8_counterexample :
  isdir empty_world "inc" = true /\
  written (main empty_world "inc" "nodir/out.json") = None /\
  exit_status (main empty_world "inc" "nodir/out.json") = 1.
Proof. split; [reflexivity|]. split; vm_compute; reflexivity. Qed.

(** C8, amended: when the directory exists and the output can be opened
    for writing, the output file is written and the run ends with
    status 0, with the empty array when no file gave an entry (as in an
    empty directory); when the directory exists and the output cannot be
    opened, the exception ends the run: nothing is written and the
    status is 1; when the directory does not exist an error is printed
    and nothing is written. *)
Theorem C8_output_is_written w include_dir output :
  (isdir w include_dir = true -> open_output w output = Ok tt ->
     (exists entries, written (main w include_dir output) = Some (output, entries)) /\
     ((forall d file, In d (walk w include_dir) -> In file (snd d) ->
         entries_of_file w (fst d) file = []) ->
      written (main w include_dir output) = Some (output, [])) /\
     exit_status (main w include_dir output) = 0) /\
  (isdir w include_dir = true ->
   forall e, open_output w output = Raised e ->
     written (main w include_dir output) = None /\
     uncaught (main w include_dir output) = Some e /\
     exit_status (main w include_dir output) = 1) /\
  (isdir w include_dir = false ->
     written (main w include_dir output) = None /\
     stdout (main w include_dir output) =
       ["Error: Directory not found at '" +++ include_dir +++ "'"] /\
     exit_status (main w include_dir output) = 0).
Proof.
  split; [|split].
  - intros Hdir Hopen.
    rewrite main_written, main_status, Hopen by exact Hdir.
    split; [eauto|]. split; [|reflexivity].
    intros Hempty. f_equal. f_equal.
    induction (walk w include_dir) as [|d ds IH]; [reflexivity|].
    cbn [flat_map]. rewrite IH.
    + rewrite app_nil_r.
      assert (Hd : forall file, In file (snd d) ->
                entries_of_file w (fst d) file = [])
        by (intros file Hf; apply Hempty; [left; reflexivity | exact Hf]).
      induction (snd d) as [|f fs IHf]; [reflexivity|].
      cbn [flat_map]. rewrite (Hd f) by (left; reflexivity).
      apply IHf. intros file Hf. apply Hd. right. exact Hf.
    + intros d' file Hd' Hf. apply (Hempty d' file); [right; exact Hd' | exact Hf].
  - intros Hdir e Hopen. unfold main. rewrite Hdir, Hopen.
    cbn [negb]. repeat split.
  - intros Hdir. unfold main. rewrite Hdir. repeat split.
Qed.

(** C7 on the directory of [mixed_world]. *)
Lemma C7_witness :
  all_api_data (scan_all mixed_world "inc") =
    parse_include_content dox_inc "dox.inc" /\
  In ("    !! Failed to parse " +++ "bad.inc" +++ ": " +++
      "[Errno 13] Permission denied")
     (stdout (main mixed_world "inc" "sourcemod_api.json")) /\
  In ([LF] +++ "Successfully parsed " +++
        PyStr.of_nat (List.length (parse_include_content dox_inc "dox.inc")) +++
        " API entries.")
     (stdout (main mixed_world "inc" "sourcemod_api.json")) /\
  (forall st,
     all_api_data (scan_file mixed_world "inc" st "bad.inc") = all_api_data st) /\
  written (main mixed_world "inc" "sourcemod_api.json") =
    Some (txt "sourcemod_api.json", parse_include_content dox_inc "dox.inc") /\
  exit_status (main mixed_world "inc" "sourcemod_api.json") = 0.
Proof.
  apply (@C7_unreadable_file_is_skipped
           mixed_world (txt "inc") (txt "sourcemod_api.json") (txt "inc")
           [txt "bad.inc"; txt "dox.inc"] (txt "bad.inc") (txt "dox.inc")
           (txt "[Errno 13] Permission denied") dox_inc).
  - reflexivity.
  - reflexivity.
  - left. reflexivity.
  - reflexivity.
  - reflexivity.
  - reflexivity.
  - reflexivity.
Defined.

(** C8 on an empty directory, with an output that can be opened and with
    one that cannot, and on a missing directory. *)
Lemma C8_witness :
  (written (main empty_world "inc" "sourcemod_api.json") =
     Some (txt "sourcemod_api.json", []) /\
   exit_status (main empty_world "inc" "sourcemod_api.json") = 0) /\
  (written (main empty_world "inc" "nodir/out.json") = None /\
   uncaught (main empty_world "inc" "nodir/out.json") =
     Some (txt "[Errno 2] No such file or directory: 'nodir/out.json'") /\
   exit_status (main empty_world "inc" "nodir/out.json") = 1) /\
  (written (main empty_world "include" "sourcemod_api.json") = None /\
   stdout (main empty_world "include" "sourcemod_api.json") =
     ["Error: Directory not found at '" +++ "include" +++ "'"] /\
   exit_status (main empty_world "include" "sourcemod_api.json") = 0).
Proof.
  split; [|split].
  - destruct (@C8_output_is_written empty_world (txt "inc")
                (txt "sourcemod_api.json")) as [Hyes _].
    destruct (Hyes eq_refl eq_refl) as (_ & Hempty & Hexit).
    split; [|exact Hexit].
    apply Hempty. intros d file [<-|[]] [].
  - destruct (@C8_output_is_written empty_world (txt "inc")
                (txt "nodir/out.json")) as (_ & Hno & _).
    exact (Hno eq_refl _ eq_refl).
  - destruct (@C8_output_is_written empty_world (txt "include")
                (txt "sourcemod_api.json")) as (_ & _ & Hno).
    exact (Hno eq_refl).
Defined.

(** ** Occurrences *)

Lemma startswith_app w s : PyStr.startswith (w ++ s) w = true.
Proof.
  induction w as [|c w IH]; simpl; [apply startswith_nil|].
  rewrite Ascii.eqb_refl. exact IH.
Qed.

Lemma startswith_inv w : forall s,
  PyStr.startswith s w = true -> exists t, s = w ++ t.
Proof.
  induction w as [|c w IH]; intros s H.
  - exists s. reflexivity.
  - destruct s as [|d s]; [discriminate|]. simpl in H.
    apply andb_prop in H. destruct H as [E H].
    apply Ascii.eqb_eq in E. subst d.
    apply IH in H. destruct H as [t ->]. exists t. reflexivity.
Qed.

Lemma occurs_eq sub s :
  occurs sub s =
  PyStr.startswith s sub || match s with [] => false | _ :: t => occurs sub t end.
Proof. destruct s; reflexivity. Qed.

Lemma occurs_cons sub c s : occurs sub s = true -> occurs sub (c :: s) = true.
Proof. intros H. simpl. rewrite H. apply orb_true_r. Qed.

Lemma occurs_app sub a b : occurs sub (a ++ sub ++ b) = true.
Proof.
  induction a as [|c a IH].
  - simpl app. rewrite occurs_eq, startswith_app. reflexivity.
  - apply occurs_cons, IH.
Qed.

Lemma occurs_inv sub : forall s,
  occurs sub s = true -> exists a b, s = a ++ sub ++ b.
Proof.
  induction s as [|c s IH]; intros H; rewrite occurs_eq in H;
    apply orb_prop in H; destruct H as [H|H].
  - apply startswith_inv in H. destruct H as [t H]. exists [], t. exact H.
  - discriminate H.
  - apply startswith_inv in H. destruct H as [t H]. exists [], t. exact H.
  - apply IH in H. destruct H as (a & b & ->). exists (c :: a), b. reflexivity.
Qed.

Lemma occurs_false_suffix sub a : forall b,
  occurs sub (a ++ b) = false -> occurs sub b = false.
Proof.
  induction a as [|c a IH]; intros b H; [exact H|].
  simpl app in H. rewrite occurs_eq in H. apply orb_false_elim in H. apply IH, H.
Qed.

Lemma occurs_false_startswith sub s :
  occurs sub s = false -> PyStr.startswith s sub = false.
Proof.
  rewrite occurs_eq. intros H. apply orb_false_elim in H. apply H.
Qed.

Lemma has_doc_block_eq s :
  has_doc_block s =
  (PyStr.startswith s "/**" && occurs "*/" (skipn 4 s)) ||
  match s with [] => false | _ :: t => has_doc_block t end.
Proof. destruct s; reflexivity. Qed.

(** ** Files without a documentation comment *)

Lemma has_doc_block_suffix a : forall b,
  has_doc_block (a ++ b) = false ->
  PyStr.startswith b "/**" && occurs "*/" (skipn 4 b) = false.
Proof.
  induction a as [|c a IH]; intros b H.
  - simpl app in H. rewrite has_doc_block_eq in H.
    apply orb_false_elim in H. apply H.
  - simpl app in H. rewrite has_doc_block_eq in H.
    apply orb_false_elim in H. apply IH, H.
Qed.

(** A comment block is an opening mark, at least one character and a
    closing mark. *)
Lemma block_match_shape w :
  lang DOTALL BLOCK_REGEX w ->
  exists c x y, w = txt "/**" ++ c :: x ++ txt "*/" ++ y.
Proof.
  unfold BLOCK_REGEX. intros H. lang_inv.
  rewrite <- !app_assoc. simpl.
  eexists. eexists. eexists. reflexivity.
Qed.

Lemma block_match_here_none adv p pv s :
  PyStr.startswith s "/**" && occurs "*/" (skipn 4 s) = false ->
  match_here DOTALL BLOCK_REGEX adv p pv s = None.
Proof.
  intros H. destruct (match_here DOTALL BLOCK_REGEX adv p pv s) as [m|] eqn:E;
    [|reflexivity].
  apply match_here_sound in E. destruct E as (L & _ & _ & (s1 & ->) & _).
  apply block_match_shape in L. destruct L as (c & x & y & L).
  rewrite L in H.
  change ((txt "/**" ++ c :: x ++ txt "*/" ++ y) ++ s1)
    with ("/"%char :: "*"%char :: "*"%char :: c :: (x ++ txt "*/" ++ y) ++ s1) in H.
  cbn [skipn] in H. rewrite <- !app_assoc, occurs_app in H.
  discriminate H.
Qed.

Lemma no_doc_block_no_blocks s :
  has_doc_block s = false -> comment_and_code_blocks s = [].
Proof.
  intros H. unfold comment_and_code_blocks, finditer.
  apply finditer_from_none. intros a b p' pv' ->.
  apply block_match_here_none, (has_doc_block_suffix a), H.
Qed.

(** ** Line endings *)

Lemma cr_to_lf_cons c s :
  cr_to_lf (c :: s) = (if Ascii.eqb c CR then LF else c) :: cr_to_lf s.
Proof. unfold cr_to_lf. rewrite !replace_char. reflexivity. Qed.

Lemma crlf_to_lf_crlf s : crlf_to_lf (CR :: LF :: s) = LF :: crlf_to_lf s.
Proof.
  unfold crlf_to_lf, PyStr.replace.
  cbn [PyStr.replace_aux PyStr.startswith].
  rewrite startswith_nil. reflexivity.
Qed.

Lemma crlf_to_lf_keep c s :
  c <> CR -> crlf_to_lf (c :: s) = c :: crlf_to_lf s.
Proof.
  intros H. unfold crlf_to_lf, PyStr.replace.
  cbn [PyStr.replace_aux PyStr.startswith].
  destruct (Ascii.eqb CR c) eqn:E; [|reflexivity].
  apply Ascii.eqb_eq in E. congruence.
Qed.

Lemma crlf_to_lf_cr c s :
  c <> LF -> crlf_to_lf (CR :: c :: s) = CR :: crlf_to_lf (c :: s).
Proof.
  intros H. unfold crlf_to_lf, PyStr.replace.
  cbn [PyStr.replace_aux PyStr.startswith].
  destruct (Ascii.eqb LF c) eqn:E; [|reflexivity].
  apply Ascii.eqb_eq in E. congruence.
Qed.

Lemma normalize_eq s : normalize_line_endings s = cr_to_lf (crlf_to_lf s).
Proof. reflexivity. Qed.

(** The four ways a text can start, as the normalisation sees them. *)
Lemma line_start_cases (s : text) :
  s = [] \/
  (exists t, s = CR :: LF :: t) \/
  s = [CR] \/
  (exists c t, s = CR :: c :: t /\ c <> LF) \/
  (exists c t, s = c :: t /\ c <> CR).
Proof.
  destruct s as [|c t]; [auto|].
  destruct (ascii_dec c CR) as [->|Hc].
  - destruct t as [|d t]; [auto|].
    destruct (ascii_dec d LF) as [->|Hd]; [eauto|].
    right. right. right. left. eauto.
  - right. right. right. right. eauto.
Qed.

Lemma normalize_line_endings_rel_len n : forall s,
  List.length s <= n -> line_endings s (normalize_line_endings s).
Proof.
  induction n as [|n IH]; intros s Hn.
  - destruct s; [constructor | simpl in Hn; lia].
  - destruct (line_start_cases s)
      as [-> | [(t & ->) | [-> | [(c & t & -> & Hc) | (c & t & -> & Hc)]]]].
    + constructor.
    + rewrite normalize_eq, crlf_to_lf_crlf, cr_to_lf_cons. simpl Ascii.eqb.
      cbv iota. apply LE_crlf. rewrite <- normalize_eq. apply IH.
      simpl in Hn. lia.
    + apply LE_cr. constructor.
    + rewrite normalize_eq, crlf_to_lf_cr, cr_to_lf_cons by exact Hc.
      simpl Ascii.eqb. cbv iota. apply LE_cr. rewrite <- normalize_eq.
      apply IH. simpl in Hn. simpl. lia.
    + rewrite normalize_eq, crlf_to_lf_keep, cr_to_lf_cons by exact Hc.
      destruct (Ascii.eqb c CR) eqn:E;
        [apply Ascii.eqb_eq in E; congruence|].
      apply LE_keep; [exact Hc|]. rewrite <- normalize_eq. apply IH.
      simpl in Hn. lia.
Qed.

Lemma normalize_line_endings_rel s :
  line_endings s (normalize_line_endings s).
Proof. apply (normalize_line_endings_rel_len (n := List.length s)). lia. Qed.

(** The normalisation works on the two parts of a text separately when
    the second part does not start with a line feed. *)
Lemma normalize_app_len n : forall a c b,
  List.length a <= n -> c <> LF ->
  normalize_line_endings (a ++ c :: b) =
  normalize_line_endings a ++ normalize_line_endings (c :: b).
Proof.
  induction n as [|n IH]; intros a c b Hn Hc.
  - destruct a; [reflexivity | simpl in Hn; lia].
  - destruct (line_start_cases a)
      as [-> | [(t & ->) | [-> | [(d & t & -> & Hd) | (d & t & -> & Hd)]]]].
    + reflexivity.
    + simpl app. rewrite !normalize_eq, !crlf_to_lf_crlf, !cr_to_lf_cons.
      simpl app. f_equal. rewrite <- !normalize_eq. apply IH; [|exact Hc].
      simpl in Hn. lia.
    + simpl app. rewrite !normalize_eq, crlf_to_lf_cr by exact Hc.
      rewrite cr_to_lf_cons. reflexivity.
    + simpl app. rewrite !normalize_eq, !crlf_to_lf_cr by exact Hd.
      rewrite !cr_to_lf_cons. simpl app. f_equal.
      rewrite <- !normalize_eq. apply (IH (d :: t)); [|exact Hc].
      simpl in Hn. simpl. lia.
    + simpl app. rewrite !normalize_eq, !crlf_to_lf_keep by exact Hd.
      rewrite !cr_to_lf_cons. simpl app. f_equal.
      rewrite <- !normalize_eq. apply IH; [|exact Hc].
      simpl in Hn. lia.
Qed.

Lemma normalize_app a c b :
  c <> LF ->
  normalize_line_endings (a ++ c :: b) =
  normalize_line_endings a ++ normalize_line_endings (c :: b).
Proof. apply (normalize_app_len (n := List.length a)). lia. Qed.

(** What starts or occurs in the normalised text, and holds no line
    feed, starts or occurs in the text as it was read. *)
Lemma line_endings_startswith w : forall s s',
  line_endings s s' -> ~ In LF w -> PyStr.startswith s' w = true ->
  exists t t', s = w ++ t /\ s' = w ++ t' /\ line_endings t t'.
Proof.
  induction w as [|d w IH]; intros s s' H Hw Hs.
  - exists s, s'. auto.
  - destruct s' as [|d' t']; [discriminate|]. simpl in Hs.
    apply andb_prop in Hs. destruct Hs as [E Hs].
    apply Ascii.eqb_eq in E. subst d'.
    assert (Hd : d <> LF) by (intros ->; apply Hw; left; reflexivity).
    assert (Hw' : ~ In LF w) by (intros F; apply Hw; right; exact F).
    inversion H; subst; try congruence.
    destruct (IH _ _ ltac:(eassumption) Hw' Hs) as (t & t2 & -> & -> & Ht).
    exists t, t2. auto.
Qed.

Lemma line_endings_occurs w s s' :
  line_endings s s' -> ~ In LF w -> occurs w s' = true -> occurs w s = true.
Proof.
  intros H Hw. induction H as [|c s s' Hc H IH|s s' H IH|s s' H IH];
    intros Ho; [exact Ho| | | ];
    rewrite occurs_eq in Ho; apply orb_prop in Ho; destruct Ho as [Ho|Ho].
  - destruct (@line_endings_startswith w _ _ (LE_keep Hc H) Hw Ho) as (t & _ & -> & _).
    apply (occurs_app w [] t).
  - apply occurs_cons, IH, Ho.
  - destruct (@line_endings_startswith w _ _ (LE_cr H) Hw Ho) as (t & _ & -> & _).
    apply (occurs_app w [] t).
  - apply occurs_cons, IH, Ho.
  - destruct (@line_endings_startswith w _ _ (LE_crlf H) Hw Ho) as (t & _ & -> & _).
    apply (occurs_app w [] t).
  - apply occurs_cons, occurs_cons, IH, Ho.
Qed.

Lemma no_lf_in_open : ~ In LF (txt "/**").
Proof. simpl. intros [H|[H|[H|[]]]]; discriminate H. Qed.

Lemma no_lf_in_close : ~ In LF (txt "*/").
Proof. simpl. intros [H|[H|[]]]; discriminate H. Qed.

Lemma has_doc_block_cons c s :
  has_doc_block s = true -> has_doc_block (c :: s) = true.
Proof. intros H. rewrite has_doc_block_eq, H. apply orb_true_r. Qed.

(** [has_doc_block] says what it is meant to say. *)
Lemma has_doc_block_spec s :
  has_doc_block s = true <->
  exists a c x b, s = a ++ txt "/**" ++ c :: x ++ txt "*/" ++ b.
Proof.
  split.
  - induction s as [|d s IH]; intros H; rewrite has_doc_block_eq in H;
      apply orb_prop in H; destruct H as [H|H]; try discriminate H.
    + apply andb_prop in H. destruct H as [Hs Ho].
      apply startswith_inv in Hs. destruct Hs as [t Hs]. rewrite Hs in Ho.
      change (skipn 4 (txt "/**" ++ t)) with (skipn 1 t) in Ho.
      destruct t as [|c t]; [discriminate Ho|]. cbn [skipn] in Ho.
      apply occurs_inv in Ho. destruct Ho as (x & b & ->).
      exists [], c, x, b. exact Hs.
    + destruct (IH H) as (a & c & x & b & ->).
      exists (d :: a), c, x, b. reflexivity.
  - intros (a & c & x & b & ->). induction a as [|d a IH].
    + rewrite has_doc_block_eq. apply orb_true_intro. left.
      cbn [app]. rewrite startswith_app.
      change (skipn 4 (txt "/**" ++ c :: x ++ txt "*/" ++ b))
        with (x ++ txt "*/" ++ b).
      rewrite occurs_app. reflexivity.
    + apply has_doc_block_cons, IH.
Qed.

Lemma line_endings_doc_block_head s s' :
  line_endings s s' ->
  PyStr.startswith s' "/**" && occurs "*/" (skipn 4 s') = true ->
  has_doc_block s = true.
Proof.
  intros H Hh. apply andb_prop in Hh. destruct Hh as [Hs Ho].
  destruct (@line_endings_startswith _ _ _ H no_lf_in_open Hs)
    as (t & t' & -> & -> & Ht).
  rewrite has_doc_block_eq. apply orb_true_intro. left.
  rewrite startswith_app.
  change (skipn 4 (txt "/**" ++ t')) with (skipn 1 t') in Ho.
  change (skipn 4 (txt "/**" ++ t)) with (skipn 1 t).
  inversion Ht; subst; cbn [skipn] in *.
  - discriminate Ho.
  - apply (@line_endings_occurs _ _ _ H1 no_lf_in_close Ho).
  - apply (@line_endings_occurs _ _ _ H0 no_lf_in_close Ho).
  - apply occurs_cons, (@line_endings_occurs _ _ _ H0 no_lf_in_close Ho).
Qed.

Lemma line_endings_doc_block s s' :
  line_endings s s' -> has_doc_block s' = true -> has_doc_block s = true.
Proof.
  intros H. induction H as [|c s s' Hc H IH|s s' H IH|s s' H IH];
    intros Hb; [exact Hb| | | ];
    rewrite has_doc_block_eq in Hb; apply orb_prop in Hb;
    destruct Hb as [Hb|Hb].
  - apply (@line_endings_doc_block_head _ _ (LE_keep Hc H) Hb).
  - apply has_doc_block_cons, IH, Hb.
  - apply (@line_endings_doc_block_head _ _ (LE_cr H) Hb).
  - apply has_doc_block_cons, IH, Hb.
  - apply (@line_endings_doc_block_head _ _ (LE_crlf H) Hb).
  - apply has_doc_block_cons, has_doc_block_cons, IH, Hb.
Qed.

Lemma no_doc_block_no_entries content filename :
  has_doc_block content = false -> parse_include_content content filename = [].
Proof.
  intros H. rewrite parse_include_content_blocks, no_doc_block_no_blocks;
    [reflexivity|].
  destruct (has_doc_block (normalize_line_endings content)) eqn:E;
    [|reflexivity].
  apply (@line_endings_doc_block _ _ (normalize_line_endings_rel content)) in E.
  congruence.
Qed.

(** ** Patterns that do not look behind match the same anywhere *)
Section Shift.
Variables (fl : flags) (d : nat).

Lemma shifted_opt_orelse o1 o2 o1' o2' :
  shifted_opt d o1 o2 -> shifted_opt d o1' o2' ->
  shifted_opt d (match o1 with Some v => Some v | None => o1' end)
                (match o2 with Some v => Some v | None => o2' end).
Proof. destruct o1, o2; simpl; tauto. Qed.

Lemma exec_str_shift w k1 k2 : shifted_cont d k1 k2 ->
  forall s p pv1 pv2 cs,
    shifted_opt d (exec_str w k1 (d + p) pv1 cs s) (exec_str w k2 p pv2 cs s).
Proof.
  intros Hk. induction w as [|c w IH]; intros s p pv1 pv2 cs; simpl.
  - apply Hk. repeat split.
  - destruct s as [|c' t]; [exact I|].
    destruct (Ascii.eqb c c'); [|exact I].
    rewrite <- Nat.add_succ_r. apply IH.
Qed.

Lemma star_greedy_shift a k1 k2 : shifted_cont d k1 k2 ->
  forall s p pv1 pv2 cs,
    shifted_opt d (star_greedy fl a k1 (d + p) pv1 cs s)
                  (star_greedy fl a k2 p pv2 cs s).
Proof.
  intros Hk. induction s as [|c t IH]; intros p pv1 pv2 cs; simpl.
  - apply Hk. repeat split.
  - destruct (atom_ok fl a c).
    + apply shifted_opt_orelse.
      * rewrite <- Nat.add_succ_r. apply IH.
      * apply Hk. repeat split.
    + apply Hk. repeat split.
Qed.

Lemma star_lazy_shift a k1 k2 : shifted_cont d k1 k2 ->
  forall s p pv1 pv2 cs,
    shifted_opt d (star_lazy fl a k1 (d + p) pv1 cs s)
                  (star_lazy fl a k2 p pv2 cs s).
Proof.
  intros Hk. induction s as [|c t IH]; intros p pv1 pv2 cs; simpl.
  - apply shifted_opt_orelse; [|exact I]. apply Hk. repeat split.
  - apply shifted_opt_orelse; [apply Hk; repeat split|].
    destruct (atom_ok fl a c); [|exact I].
    rewrite <- Nat.add_succ_r. apply IH.
Qed.

Lemma shifted_cont_accept : shifted_cont d (fun st => Some st) (fun st => Some st).
Proof. intros st1 st2 H. exact H. Qed.

Theorem exec_shift r : uses_bol r = false ->
  forall k1 k2, shifted_cont d k1 k2 -> shifted_cont d (exec fl r k1) (exec fl r k2).
Proof.
  induction r as [ | a | w | | | r1 IH1 r2 IH2 | r1 IH1 r2 IH2 | r1 IH1
                 | g a | n r1 IH1 | r1 IH1 ];
    intros Hb k1 k2 Hk st1 st2 Hst; simpl in Hb;
    pose proof Hst as (Hp & Hr & Hc); simpl.
  - apply Hk, Hst.
  - rewrite Hr. destruct (rest st2) as [|c t]; [exact I|].
    destruct (atom_ok fl a c); [|exact I].
    apply Hk. repeat split; simpl; [lia | congruence].
  - rewrite Hp, Hr, Hc. apply exec_str_shift, Hk.
  - discriminate Hb.
  - unfold at_eol. rewrite Hr. destruct (rest st2) as [|c t].
    + apply Hk, Hst.
    + destruct (Ascii.eqb c LF && _); [apply Hk, Hst | exact I].
  - apply orb_false_elim in Hb. destruct Hb as [Hb1 Hb2].
    apply IH1; auto.
  - apply orb_false_elim in Hb. destruct Hb as [Hb1 Hb2].
    apply shifted_opt_orelse; [apply IH1 | apply IH2]; auto.
  - apply shifted_opt_orelse; [apply IH1; auto | apply Hk, Hst].
  - rewrite Hp, Hr, Hc. destruct g.
    + apply star_greedy_shift, Hk.
    + apply star_lazy_shift, Hk.
  - apply IH1; auto. intros st1' st2' (Hp' & Hr' & Hc').
    apply Hk. repeat split; simpl; auto.
    rewrite Hp, Hp', Hr, Hc'. do 3 f_equal. lia.
  - pose proof (IH1 Hb _ _ shifted_cont_accept st1 st2 Hst) as H.
    destruct (exec fl r1 (fun st' => Some st') st1),
             (exec fl r1 (fun st' => Some st') st2);
      simpl in H; try contradiction; [apply Hk, Hst | exact I].
Qed.

Lemma match_here_shift r adv p pv1 pv2 s :
  uses_bol r = false ->
  match_here fl r adv (d + p) pv1 s =
  option_map (shift_match d) (match_here fl r adv p pv2 s).
Proof.
  intros Hb. unfold match_here.
  assert (Hk : shifted_cont d
            (fun st => if adv && (pos st =? d + p) then None else Some st)
            (fun st => if adv && (pos st =? p) then None else Some st)).
  { intros st1 st2 (Hp & Hr & Hc). rewrite Hp.
    replace (d + pos st2 =? d + p) with (pos st2 =? p).
    - destruct (adv && _); [exact I | repeat split; auto].
    - destruct (Nat.eqb_spec (pos st2) p), (Nat.eqb_spec (d + pos st2) (d + p));
        auto; lia. }
  pose proof (exec_shift r Hb Hk (st1 := MState (d + p) pv1 s [])
                (st2 := MState p pv2 s [])) as H.
  simpl in H. specialize (H (conj eq_refl (conj eq_refl eq_refl))).
  destruct (exec fl r _ (MState (d + p) pv1 s [])) as [st1|],
           (exec fl r _ (MState p pv2 s [])) as [st2|];
    simpl in H; try contradiction; [|reflexivity].
  destruct H as (Hp & Hr & Hc). simpl. unfold shift_match. simpl.
  rewrite Hp, Hc. do 2 f_equal. f_equal. lia.
Qed.

Lemma shift_match_length m :
  m_end (shift_match d m) - m_start (shift_match d m) = m_end m - m_start m.
Proof. simpl. lia. Qed.

Lemma shift_match_empty m :
  (m_end (shift_match d m) =? m_start (shift_match d m)) =
  (m_end m =? m_start m).
Proof.
  simpl. destruct (Nat.eqb_spec (m_end m) (m_start m)),
           (Nat.eqb_spec (d + m_end m) (d + m_start m)); auto; lia.
Qed.

Lemma finditer_from_shift r : uses_bol r = false ->
  forall s sk p pv1 pv2,
    finditer_from fl r sk (d + p) pv1 s =
    map (shift_match d) (finditer_from fl r sk p pv2 s).
Proof.
  intros Hb. induction s as [|c t IH]; intros sk p pv1 pv2.
  - cbn [finditer_from]. destruct sk; [|reflexivity].
    rewrite (@match_here_shift r false p pv1 pv2 [] Hb).
    rewrite (@match_here_shift r true p pv1 pv2 [] Hb).
    destruct (match_here fl r false p pv2 []) as [m|]; [|reflexivity].
    cbn [option_map]. rewrite shift_match_empty.
    destruct (m_end m =? m_start m); [|reflexivity].
    destruct (match_here fl r true p pv2 []); reflexivity.
  - cbn [finditer_from]. rewrite <- !Nat.add_succ_r. destruct sk.
    + rewrite (@match_here_shift r false p pv1 pv2 (c :: t) Hb).
      rewrite (@match_here_shift r true p pv1 pv2 (c :: t) Hb).
      destruct (match_here fl r false p pv2 (c :: t)) as [m|];
        [|apply IH].
      cbn [option_map]. rewrite shift_match_empty, shift_match_length.
      destruct (m_end m =? m_start m).
      * destruct (match_here fl r true p pv2 (c :: t)) as [m'|];
          cbn [option_map map]; f_equal.
        -- rewrite shift_match_length. f_equal. apply IH.
        -- apply IH.
      * cbn [map]. f_equal. apply IH.
    + apply IH.
Qed.

(** The iterator passes over a prefix in which no attempt succeeds. *)
Lemma finditer_from_skip_prefix r rest : forall pre p pv,
  (forall a c b p' pv', pre = a ++ c :: b ->
     match_here fl r false p' pv' (c :: b ++ rest) = None) ->
  exists pv',
    finditer_from fl r 0 p pv (pre ++ rest) =
    finditer_from fl r 0 (p + List.length pre) pv' rest.
Proof.
  induction pre as [|c pre IH]; intros p pv H.
  - exists pv. rewrite Nat.add_0_r. reflexivity.
  - simpl app. cbn [finditer_from].
    rewrite (H [] c pre p pv eq_refl).
    destruct (IH (S p) (Some c)) as [pv' E].
    + intros a c' b p' pv' ->. apply (H (c :: a) c' b). reflexivity.
    + exists pv'. cbn [Nat.sub]. rewrite E. simpl List.length.
      rewrite Nat.add_succ_r. reflexivity.
Qed.
End Shift.

(** ** Code before the first comment *)

Lemma entries_of_block_shift filename d m :
  entries_of_block filename (shift_match d m) = entries_of_block filename m.
Proof. reflexivity. Qed.

Lemma entries_of_shifted_blocks filename d blocks :
  flat_map (entries_of_block filename) (map (shift_match d) blocks) =
  flat_map (entries_of_block filename) blocks.
Proof.
  induction blocks as [|b bs IH]; [reflexivity|].
  cbn [map flat_map]. rewrite IH, entries_of_block_shift. reflexivity.
Qed.

(** An opening mark cannot begin in a prefix without one when what
    follows begins with a slash. *)
Lemma open_not_straddling c b rest :
  occurs "/**" (c :: b) = false -> PyStr.startswith rest "/" = true ->
  PyStr.startswith ((c :: b) ++ rest) "/**" = false.
Proof.
  intros Ho Hr. apply occurs_false_startswith in Ho.
  apply startswith_inv in Hr. destruct Hr as [r ->].
  destruct b as [|b2 [|b3 b]].
  - simpl. rewrite andb_false_r. reflexivity.
  - simpl. rewrite !andb_false_r. reflexivity.
  - simpl in Ho |- *. rewrite startswith_nil in Ho |- *. exact Ho.
Qed.

Lemma blocks_after_prefix filename pre rest :
  occurs "/**" pre = false -> PyStr.startswith rest "/" = true ->
  flat_map (entries_of_block filename) (comment_and_code_blocks (pre ++ rest)) =
  flat_map (entries_of_block filename) (comment_and_code_blocks rest).
Proof.
  intros Ho Hr. unfold comment_and_code_blocks, finditer.
  destruct (@finditer_from_skip_prefix DOTALL BLOCK_REGEX rest pre 0 None)
    as [pv' E].
  - intros a c b p' pv' ->. apply block_match_here_none.
    apply andb_false_intro1.
    apply (open_not_straddling c b rest); [|exact Hr].
    apply (occurs_false_suffix _ a), Ho.
  - rewrite E. cbn [Nat.add].
    rewrite <- (Nat.add_0_r (List.length pre)).
    rewrite (@finditer_from_shift DOTALL (List.length pre) BLOCK_REGEX
               eq_refl rest 0 0 pv' None).
    apply entries_of_shifted_blocks.
Qed.

Lemma normalize_slash s :
  normalize_line_endings ("/"%char :: s) = "/"%char :: normalize_line_endings s.
Proof.
  rewrite !normalize_eq, crlf_to_lf_keep, cr_to_lf_cons by discriminate.
  reflexivity.
Qed.

Lemma code_before_first_comment content filename pre rest :
  content = pre ++ rest ->
  occurs "/**" pre = false -> PyStr.startswith rest "/**" = true ->
  parse_include_content content filename = parse_include_content rest filename.
Proof.
  intros -> Ho Hr. apply startswith_inv in Hr. destruct Hr as [t ->].
  rewrite !parse_include_content_blocks.
  change (txt "/**" ++ t) with ("/"%char :: txt "**" ++ t).
  rewrite normalize_app by discriminate.
  apply blocks_after_prefix.
  - destruct (occurs "/**" (normalize_line_endings pre)) eqn:E; [|reflexivity].
    apply (@line_endings_occurs _ _ _ (normalize_line_endings_rel pre)
             no_lf_in_open) in E.
    congruence.
  - rewrite normalize_slash. reflexivity.
Qed.

(** C10: a file whose text holds no documentation comment yields no
    entry, whatever declarations it holds; and what precedes the first
    opening mark of a comment adds nothing to the entries of a file. *)
Theorem C10_code_without_comment w filepath filename content :
  read_file w filepath = Ok content ->
  (has_doc_block content = false ->
   parse_include_file w filepath filename = Ok []) /\
  (forall pre rest,
     content = pre ++ rest ->
     occurs "/**" pre = false -> PyStr.startswith rest "/**" = true ->
     parse_include_file w filepath filename =
     Ok (parse_include_content rest filename)).
Proof.
  intros Hread. unfold parse_include_file. rewrite Hread. split.
  - intros H. rewrite no_doc_block_no_entries by exact H. reflexivity.
  - intros pre rest Hc Ho Hr. f_equal.
    apply (@code_before_first_comment content filename pre rest Hc Ho Hr).
Qed.

(** C10 on a file of declarations without comment, and on a file with a
    declaration ahead of its first comment. *)
Lemma C10_witness :
  parse_include_file declarations_world "inc/undocumented.inc"
    "undocumented.inc" = Ok [] /\
  parse_include_file declarations_world "inc/early.inc" "early.inc" =
    Ok (parse_include_content dox_inc "early.inc").
Proof.
  split.
  - destruct (@C10_code_without_comment declarations_world
                (txt "inc/undocumented.inc") (txt "undocumented.inc")
                undocumented_inc eq_refl) as [Hnone _].
    apply Hnone. reflexivity.
  - destruct (@C10_code_without_comment declarations_world
                (txt "inc/early.inc") (txt "early.inc")
                (early_declaration ++ dox_inc) eq_refl) as [_ Hprefix].
    apply (Hprefix early_declaration dox_inc); reflexivity.
Defined.

(** ** Default values of parameters *)

Lemma lookup_absent n (cs : list (string * text)) :
  Forall (fun nv => fst nv <> n) cs -> lookup n cs = None.
Proof.
  induction 1 as [|[n' v] cs Hn _ IH]; [reflexivity|].
  simpl in *. destruct (String.eqb n n') eqn:E; [|exact IH].
  apply String.eqb_eq in E. congruence.
Qed.

Lemma caps_of_absent r n cs :
  ~ In n (group_names r) -> caps_of r cs -> Forall (fun nv => fst nv <> n) cs.
Proof.
  intros Hn. apply Forall_impl. intros nv Hin E. apply Hn. rewrite <- E. exact Hin.
Qed.

Lemma caps_of_nil r cs : group_names r = [] -> caps_of r cs -> cs = [].
Proof.
  intros E H. destruct cs as [|nv cs]; [reflexivity|].
  inversion H; subst. rewrite E in *. contradiction.
Qed.

Lemma exec_seq fl r1 r2 k st :
  exec fl (Seq r1 r2) k st = exec fl r1 (exec fl r2 k) st.
Proof. reflexivity. Qed.

Lemma exec_opt fl r k st :
  exec fl (Opt r) k st =
  match exec fl r k st with Some v => Some v | None => k st end.
Proof. reflexivity. Qed.

(** A lazy group that ends the pattern captures nothing. *)
Lemma exec_lazy_group_last fl n a st :
  exec fl (Group n (Star false a)) (fun st' => Some st') st =
  Some (MState (pos st) (prev st) (rest st) ((n, []) :: caps st)).
Proof.
  cbn [exec]. destruct (rest st); cbn [star_lazy pos prev rest caps];
    rewrite Nat.sub_diag; reflexivity.
Qed.

Ltac peel E C :=
  rewrite exec_seq in E; apply exec_sound in E;
  destruct E as (? & ? & ? & ? & _ & _ & C & E);
  cbn [pos rest caps prev] in E.

(** Whatever the parameter, its default value is either absent or the
    empty text. *)
Lemma param_default_empty param m :
  re_match NOFLAGS PARAM_REGEX param = Some m ->
  group_opt m "default" = None \/ group_opt m "default" = Some [].
Proof.
  unfold re_match, match_here, group_opt.
  destruct (exec NOFLAGS PARAM_REGEX _ _) as [st|] eqn:E; [|discriminate].
  intros H. injection H as <-. cbn [m_caps]. cbn [andb] in E.
  unfold PARAM_REGEX in E.
  peel E C1. peel E C2. peel E C3. peel E C4. peel E C5.
  rewrite exec_opt in E.
  match type of E with
  | match ?x with _ => _ end = _ => destruct x as [st'|] eqn:EX
  end.
  - injection E as <-. right.
    peel EX C6. peel EX C7. peel EX C8.
    rewrite exec_lazy_group_last in EX. injection EX as <-. reflexivity.
  - injection E as <-. left. cbn [caps]. apply lookup_absent.
    repeat (apply Forall_app; split); try apply Forall_nil;
      match goal with
      | C : caps_of ?r ?cs |- Forall _ ?cs =>
          apply (@caps_of_absent r _ cs); [|exact C];
          simpl; intuition discriminate
      end.
Qed.

Lemma parse_params_string_default params_str parsed_comment p :
  In p (parse_params_string params_str parsed_comment) ->
  p_default p = None \/ p_default p = Some [].
Proof.
  unfold parse_params_string.
  destruct (PyStr.strip params_str) as [|c0 t0]; [contradiction|].
  intros H. apply in_flat_map in H. destruct H as (piece & _ & H).
  unfold parse_param in H. destruct (PyStr.strip piece) as [|c t]; [contradiction|].
  destruct (re_match NOFLAGS PARAM_REGEX (c :: t)) as [m|] eqn:E; [|contradiction].
  destruct H as [<-|[]]. apply (@param_default_empty _ _ E).
Qed.

(** ** A tag on the first line of a comment *)

Lemma lstrip_snoc c : PyStr.isspace c = false ->
  forall a, exists u, PyStr.lstrip (a ++ [c]) = u ++ [c].
Proof.
  intros Hc. induction a as [|d a IH].
  - exists []. simpl. rewrite Hc. reflexivity.
  - simpl. destruct (PyStr.isspace d); [exact IH|].
    exists (d :: a). reflexivity.
Qed.

Lemma strip_head c x : PyStr.isspace c = false ->
  exists y, PyStr.strip (c :: x) = c :: y.
Proof.
  intros Hc. unfold PyStr.strip. rewrite lstrip_head by exact Hc.
  unfold PyStr.rstrip. simpl rev.
  destruct (@lstrip_snoc c Hc (rev x)) as [u ->].
  exists (rev u). rewrite rev_app_distr. reflexivity.
Qed.

Lemma tags_split_shape w :
  lang NOFLAGS TAGS_SPLIT_REGEX w -> exists t, w = LF :: t.
Proof.
  unfold TAGS_SPLIT_REGEX. intros H. lang_inv.
  match goal with
  | E : atom_ok _ (AChr LF) ?c = true |- _ =>
      apply Ascii.eqb_eq in E; subst c
  end.
  eexists. reflexivity.
Qed.

(** When the body of the comment starts with a tag, so does the
    description: the tag is never cut off from it. *)
Lemma leading_tag_in_description comment_lines t :
  full_comment_of comment_lines = "@"%char :: t ->
  exists d, description (parse_comment_block comment_lines) = "@"%char :: d.
Proof.
  intros H. unfold parse_comment_block. cbn [description]. rewrite H.
  unfold split1.
  destruct (search NOFLAGS TAGS_SPLIT_REGEX ("@"%char :: t)) as [m|] eqn:E;
    cbn [hd]; [|apply strip_head; reflexivity].
  apply search_sound in E. destruct E as (L & s1 & E & _).
  apply tags_split_shape in L. destruct L as [u L]. rewrite L in E.
  destruct (m_start m) as [|k].
  - discriminate E.
  - cbn [firstn]. apply strip_head. reflexivity.
Qed.

(** ** Where a declaration can be found *)
Section LineStart.
Variables (fl : flags) (r : regex).

Lemma match_here_bol adv p pv s m :
  match_here fl (Seq Bol r) adv p pv s = Some m ->
  pv = None \/ pv = Some LF.
Proof.
  unfold match_here. cbn [exec]. unfold at_bol. cbn [prev].
  destruct pv as [c|]; [|auto].
  destruct (multiline fl && Ascii.eqb c LF) eqn:E; [|discriminate].
  apply andb_prop in E. destruct E as [_ E]. apply Ascii.eqb_eq in E.
  subst c. auto.
Qed.

(** A pattern anchored at the start of a line is only found at the
    start of the subject or right after a line feed. *)
Lemma finditer_from_line_start : forall s sk p pv m,
  In m (finditer_from fl (Seq Bol r) sk p pv s) ->
  exists a b, s = a ++ group0 m ++ b /\
    match rev a with
    | [] => pv = None \/ pv = Some LF
    | c :: _ => c = LF
    end.
Proof.
  assert (Here : forall adv p pv s m,
             match_here fl (Seq Bol r) adv p pv s = Some m ->
             exists a b, s = a ++ group0 m ++ b /\
               match rev a with
               | [] => pv = None \/ pv = Some LF
               | c :: _ => c = LF
               end).
  { intros adv p pv s m E. pose proof (match_here_bol _ _ _ _ E) as Hpv.
    apply match_here_sound in E. destruct E as (_ & _ & _ & (s1 & ->) & _).
    exists [], s1. split; [reflexivity | exact Hpv]. }
  assert (Next : forall c t pv m,
             (exists a b, t = a ++ group0 m ++ b /\
                match rev a with
                | [] => Some c = None \/ Some c = Some LF
                | c' :: _ => c' = LF
                end) ->
             exists a b, c :: t = a ++ group0 m ++ b /\
               match rev a with
               | [] => pv = None \/ pv = Some LF
               | c' :: _ => c' = LF
               end).
  { intros c t pv m (a & b & -> & Ha). exists (c :: a), b.
    split; [reflexivity|]. simpl rev.
    destruct (rev a) as [|c' ra]; simpl.
    - destruct Ha as [Ha|Ha]; congruence.
    - exact Ha. }
  induction s as [|c t IH]; intros sk p pv m H.
  - cbn [finditer_from] in H. destruct sk; [|contradiction].
    destruct (match_here fl (Seq Bol r) false p pv []) as [m1|] eqn:E1;
      [|contradiction].
    destruct (m_end m1 =? m_start m1).
    + destruct H as [<-|H]; [eapply Here; eauto|].
      destruct (match_here fl (Seq Bol r) true p pv []) as [m2|] eqn:E2;
        [|contradiction].
      destruct H as [<-|[]]. eapply Here; eauto.
    + destruct H as [<-|[]]. eapply Here; eauto.
  - cbn [finditer_from] in H. destruct sk; [|apply Next; eapply IH; eauto].
    destruct (match_here fl (Seq Bol r) false p pv (c :: t)) as [m1|] eqn:E1;
      [|apply Next; eapply IH; eauto].
    destruct (m_end m1 =? m_start m1).
    + destruct H as [<-|H]; [eapply Here; eauto|].
      destruct (match_here fl (Seq Bol r) true p pv (c :: t)) as [m2|] eqn:E2;
        [|apply Next; eapply IH; eauto].
      destruct H as [<-|H]; [eapply Here; eauto|].
      apply Next; eapply IH; eauto.
    + destruct H as [<-|H]; [eapply Here; eauto|].
      apply Next; eapply IH; eauto.
Qed.
End LineStart.

(** Every method collected from the body of a methodmap is declared at
    the very start of the body or of one of its lines: never after
    blanks. *)
Lemma methods_start_a_line map_body m :
  In m (finditer FUNC_FLAGS FUNC_REGEX map_body) ->
  exists a b, map_body = a ++ group0 m ++ b /\
    (a = [] \/ exists a', a = a' ++ [LF]).
Proof.
  unfold finditer, FUNC_REGEX. intros H.
  apply finditer_from_line_start in H.
  destruct H as (a & b & E & Ha). exists a, b. split; [exact E|].
  destruct (rev a) as [|c ra] eqn:R.
  - left. apply (f_equal (@rev ascii)) in R. rewrite rev_involutive in R.
    exact R.
  - right. exists (rev ra). subst c.
    apply (f_equal (@rev ascii)) in R. rewrite rev_involutive in R.
    exact R.
Qed.

(** ** What the groups of a match hold *)
Section Captures.
Variable fl : flags.

Theorem exec_caps_sound r : forall k st res,
  exec fl r k st = Some res ->
  exists w s1 pv1 cs',
    lang_caps fl r w cs' /\ rest st = w ++ s1 /\
    k (MState (pos st + List.length w) pv1 s1 (cs' ++ caps st)) = Some res.
Proof.
  induction r as [ | a | w | | | r1 IH1 r2 IH2 | r1 IH1 r2 IH2 | r1 IH1
                 | g a | n r1 IH1 | r1 IH1 ];
    intros k st res H; simpl in H.
  - exists [], (rest st), (prev st), []. rewrite Nat.add_0_r.
    destruct st; simpl in *. repeat split; auto; constructor.
  - destruct (rest st) as [|c t] eqn:R; [discriminate|].
    destruct (atom_ok fl a c) eqn:E; [|discriminate].
    exists [c], t, (Some c), []. rewrite Nat.add_1_r.
    repeat split; auto; constructor; auto.
  - apply exec_str_sound in H. destruct H as (s1 & pv1 & R & H).
    exists w, s1, pv1, []. repeat split; auto; constructor.
  - destruct (at_bol fl st); [|discriminate].
    exists [], (rest st), (prev st), []. rewrite Nat.add_0_r.
    destruct st; simpl in *. repeat split; auto; constructor.
  - destruct (at_eol fl st); [|discriminate].
    exists [], (rest st), (prev st), []. rewrite Nat.add_0_r.
    destruct st; simpl in *. repeat split; auto; constructor.
  - apply IH1 in H. destruct H as (w1 & s1 & pv1 & cs1 & L1 & R1 & H).
    apply IH2 in H. simpl in H.
    destruct H as (w2 & s2 & pv2 & cs2 & L2 & R2 & H).
    exists (w1 ++ w2), s2, pv2, (cs2 ++ cs1).
    split; [constructor; auto|].
    split; [rewrite R1, R2, app_assoc; reflexivity|].
    rewrite length_app, Nat.add_assoc, <- app_assoc. exact H.
  - destruct (exec fl r1 k st) eqn:E1.
    + injection H as <-. apply IH1 in E1.
      destruct E1 as (w & s1 & pv1 & cs1 & L & R & H).
      exists w, s1, pv1, cs1. repeat split; auto. apply LC_alt_l; auto.
    + apply IH2 in H. destruct H as (w & s1 & pv1 & cs1 & L & R & H).
      exists w, s1, pv1, cs1. repeat split; auto. apply LC_alt_r; auto.
  - destruct (exec fl r1 k st) eqn:E1.
    + injection H as <-. apply IH1 in E1.
      destruct E1 as (w & s1 & pv1 & cs1 & L & R & H).
      exists w, s1, pv1, cs1. repeat split; auto. apply LC_opt_some; auto.
    + exists [], (rest st), (prev st), []. rewrite Nat.add_0_r.
      destruct st; simpl in *. repeat split; auto. apply LC_opt_none.
  - destruct g.
    + apply star_greedy_sound in H. destruct H as (w & s1 & pv1 & Hw & R & H).
      exists w, s1, pv1, []. repeat split; auto; constructor; auto.
    + apply star_lazy_sound in H. destruct H as (w & s1 & pv1 & Hw & R & H).
      exists w, s1, pv1, []. repeat split; auto; constructor; auto.
  - apply IH1 in H. simpl in H.
    destruct H as (w & s1 & pv1 & cs1 & L & R & H).
    exists w, s1, pv1, ((n, w) :: cs1).
    split; [constructor; auto|]. split; [exact R|].
    rewrite R, Nat.add_comm, Nat.add_sub, firstn_app, Nat.sub_diag,
      firstn_all in H.
    simpl in H. rewrite app_nil_r, Nat.add_comm in H. exact H.
  - destruct (exec fl r1 (fun st' => Some st') st); [|discriminate].
    exists [], (rest st), (prev st), []. rewrite Nat.add_0_r.
    destruct st; simpl in *. repeat split; auto; constructor.
Qed.

Lemma match_here_caps r adv p pv s m :
  match_here fl r adv p pv s = Some m ->
  lang_caps fl r (group0 m) (m_caps m) /\
  m_start m = p /\ m_end m = p + List.length (group0 m) /\
  exists s1, s = group0 m ++ s1.
Proof.
  unfold match_here. intros H.
  destruct (exec fl r _ _) as [st|] eqn:E; [|discriminate].
  injection H as <-. simpl.
  apply exec_caps_sound in E. simpl in E.
  destruct E as (w & s1 & pv1 & cs' & L & -> & K).
  destruct (adv && _); [discriminate|]. injection K as <-. simpl.
  rewrite Nat.add_comm, Nat.add_sub, firstn_app, Nat.sub_diag, firstn_all.
  simpl. rewrite !app_nil_r.
  repeat split; auto; [lia | eauto].
Qed.

Lemma search_from_caps r : forall s p pv m,
  search_from fl r p pv s = Some m ->
  lang_caps fl r (group0 m) (m_caps m) /\
  exists a s1, s = a ++ group0 m ++ s1 /\ m_start m = p + List.length a.
Proof.
  induction s as [|c t IH]; intros p pv m H; simpl in H.
  - destruct (match_here fl r false p pv []) eqn:E; [|discriminate].
    injection H as ->. apply match_here_caps in E.
    destruct E as (L & S & _ & (s1 & R)). split; auto.
    exists [], s1. simpl. split; auto; lia.
  - destruct (match_here fl r false p pv (c :: t)) eqn:E.
    + injection H as ->. apply match_here_caps in E.
      destruct E as (L & S & _ & (s1 & R)). split; auto.
      exists [], s1. simpl. split; auto; lia.
    + apply IH in H. destruct H as (L & a & s1 & -> & S).
      split; auto. exists (c :: a), s1. simpl. split; auto; lia.
Qed.

Lemma finditer_from_caps r : forall s sk p pv m,
  In m (finditer_from fl r sk p pv s) ->
  lang_caps fl r (group0 m) (m_caps m).
Proof.
  induction s as [|c t IH]; intros sk p pv m H.
  - simpl in H. destruct sk; [|contradiction].
    destruct (match_here fl r false p pv []) as [m1|] eqn:E1; [|contradiction].
    destruct (m_end m1 =? m_start m1).
    + destruct H as [<-|H]; [apply match_here_caps in E1; apply E1|].
      destruct (match_here fl r true p pv []) as [m2|] eqn:E2; [|contradiction].
      destruct H as [<-|[]]. apply match_here_caps in E2; apply E2.
    + destruct H as [<-|[]]. apply match_here_caps in E1; apply E1.
  - simpl in H. destruct sk; [|eapply IH; eauto].
    destruct (match_here fl r false p pv (c :: t)) as [m1|] eqn:E1;
      [|eapply IH; eauto].
    destruct (m_end m1 =? m_start m1).
    + destruct H as [<-|H]; [apply match_here_caps in E1; apply E1|].
      destruct (match_here fl r true p pv (c :: t)) as [m2|] eqn:E2;
        [|eapply IH; eauto].
      destruct H as [<-|H]; [apply match_here_caps in E2; apply E2|].
      eapply IH; eauto.
    + destruct H as [<-|H]; [apply match_here_caps in E1; apply E1|].
      eapply IH; eauto.
Qed.
End Captures.

Ltac caps_inv :=
  repeat match goal with
    | H : lang_caps _ (Plus _ _) _ _ |- _ => unfold Plus in H
    | H : lang_caps _ (Seq _ _) _ _ |- _ => inversion H; subst; clear H
    | H : lang_caps _ (Group _ _) _ _ |- _ => inversion H; subst; clear H
    | H : lang_caps _ (Alt _ _) _ _ |- _ => inversion H; subst; clear H
    | H : lang_caps _ (Opt _) _ _ |- _ => inversion H; subst; clear H
    | H : lang_caps _ (Str _) _ _ |- _ => inversion H; subst; clear H
    | H : lang_caps _ (Atom _) _ _ |- _ => inversion H; subst; clear H
    | H : lang_caps _ (Star _ _) _ _ |- _ => inversion H; subst; clear H
    | H : lang_caps _ Bol _ _ |- _ => inversion H; subst; clear H
    | H : lang_caps _ Eol _ _ |- _ => inversion H; subst; clear H
    | H : lang_caps _ Eps _ _ |- _ => inversion H; subst; clear H
    | H : lang_caps _ (Ahead _) _ _ |- _ => inversion H; subst; clear H
    end.

(** ** Every entry of a file *)

Lemma entries_forall (P : ApiEntry -> Prop) content filename :
  (forall comment_text code_text e,
     entry_of_block filename comment_text code_text = Some e -> P e) ->
  Forall P (parse_include_content content filename).
Proof.
  intros H. rewrite parse_include_content_blocks.
  apply Forall_flat_map, Forall_forall. intros b _.
  unfold entries_of_block.
  destruct (entry_of_block filename _ _) as [e|] eqn:E; simpl.
  - constructor; [eapply H; eauto | constructor].
  - constructor.
Qed.

Lemma function_entries_forall (P : FunctionEntry -> Prop) es :
  Forall (fun e => match e with Function f => P f | _ => True end) es ->
  Forall P (function_entries es).
Proof.
  intros H. unfold function_entries. apply Forall_flat_map.
  revert H. apply Forall_impl. intros [f|m|t] He; simpl; auto.
Qed.

Lemma methodmap_entries_forall (P : MethodmapEntry -> Prop) es :
  Forall (fun e => match e with Methodmap m => P m | _ => True end) es ->
  Forall P (methodmap_entries es).
Proof.
  intros H. unfold methodmap_entries. apply Forall_flat_map.
  revert H. apply Forall_impl. intros [f|m|t] He; simpl; auto.
Qed.

Lemma typedef_entries_forall (P : TypedefEntry -> Prop) es :
  Forall (fun e => match e with Typedef t => P t | _ => True end) es ->
  Forall P (typedef_entries es).
Proof.
  intros H. unfold typedef_entries. apply Forall_flat_map.
  revert H. apply Forall_impl. intros [f|m|t] He; simpl; auto.
Qed.

(** What an entry of each kind is made from. *)
Lemma entry_of_block_function filename comment_text code_text f :
  entry_of_block filename comment_text code_text = Some (Function f) ->
  exists m,
    search FUNC_FLAGS FUNC_REGEX code_text = Some m /\
    f = {| f_name := group m "name";
           f_type := group m "type";
           f_source_file := filename;
           f_return_type := group m "return_type";
           f_comment :=
             description (parse_comment_block (PyStr.split LF comment_text));
           f_tags := tags (parse_comment_block (PyStr.split LF comment_text));
           f_params :=
             parse_params_string (group m "params")
               (parse_comment_block (PyStr.split LF comment_text));
           f_full_declaration := one_line (group0 m) |}.
Proof.
  unfold entry_of_block.
  destruct (search FUNC_FLAGS FUNC_REGEX code_text) as [m|].
  - intros H. injection H as <-. exists m. auto.
  - destruct (search NOFLAGS METHODMAP_REGEX code_text).
    + destruct (methodmap_members code_text). discriminate.
    + destruct (search NOFLAGS TYPEDEF_REGEX code_text); discriminate.
Qed.

Lemma entry_of_block_methodmap_from filename comment_text code_text mm :
  entry_of_block filename comment_text code_text = Some (Methodmap mm) ->
  search FUNC_FLAGS FUNC_REGEX code_text = None /\
  exists m,
    search NOFLAGS METHODMAP_REGEX code_text = Some m /\
    mm = {| mm_name := group m "name";
            mm_source_file := filename;
            mm_inherits := group_opt m "inherits";
            mm_comment :=
              description (parse_comment_block (PyStr.split LF comment_text));
            mm_tags := tags (parse_comment_block (PyStr.split LF comment_text));
            mm_methods := fst (methodmap_members code_text);
            mm_properties := snd (methodmap_members code_text);
            mm_full_declaration := PyStr.strip (group0 m) |}.
Proof.
  unfold entry_of_block.
  destruct (search FUNC_FLAGS FUNC_REGEX code_text); [discriminate|].
  destruct (search NOFLAGS METHODMAP_REGEX code_text) as [m|].
  - destruct (methodmap_members code_text). intros H. injection H as <-.
    split; [reflexivity|]. exists m. auto.
  - destruct (search NOFLAGS TYPEDEF_REGEX code_text); discriminate.
Qed.

Lemma entry_of_block_typedef filename comment_text code_text td :
  entry_of_block filename comment_text code_text = Some (Typedef td) ->
  search FUNC_FLAGS FUNC_REGEX code_text = None /\
  search NOFLAGS METHODMAP_REGEX code_text = None /\
  exists m,
    search NOFLAGS TYPEDEF_REGEX code_text = Some m /\
    td = {| td_name := group m "name";
            td_source_file := filename;
            td_return_type := group m "return_type";
            td_comment :=
              description (parse_comment_block (PyStr.split LF comment_text));
            td_tags := tags (parse_comment_block (PyStr.split LF comment_text));
            td_params :=
              parse_params_string (group m "params")
                (parse_comment_block (PyStr.split LF comment_text));
            td_full_declaration := PyStr.strip (group0 m) |}.
Proof.
  unfold entry_of_block.
  destruct (search FUNC_FLAGS FUNC_REGEX code_text); [discriminate|].
  destruct (search NOFLAGS METHODMAP_REGEX code_text).
  - destruct (methodmap_members code_text). discriminate.
  - destruct (search NOFLAGS TYPEDEF_REGEX code_text) as [m|]; [|discriminate].
    intros H. injection H as <-. repeat split. exists m. auto.
Qed.

(** X1: every entry of the output of a file bears, as its source file,
    the display name the file was scanned under. *)
Theorem X1_entries_carry_source_file content filename :
  Forall (fun e => source_file_of e = filename)
         (parse_include_content content filename).
Proof.
  apply entries_forall. intros c code [f|mm|td] E.
  - apply entry_of_block_function in E. destruct E as (m & _ & ->). reflexivity.
  - apply entry_of_block_methodmap_from in E.
    destruct E as (_ & m & _ & ->). reflexivity.
  - apply entry_of_block_typedef in E.
    destruct E as (_ & _ & m & _ & ->). reflexivity.
Qed.

(** ** The fields of a declaration of a function *)

Lemma lookup_cons_eq n v cs : lookup n ((n, v) :: cs) = Some v.
Proof. simpl. rewrite String.eqb_refl. reflexivity. Qed.

Lemma word_of_plus fl p c w :
  atom_ok fl (ASet p) c = true ->
  Forall (fun c => atom_ok fl (ASet p) c = true) w ->
  word_of p ([c] ++ w).
Proof.
  intros Hc Hw. split; [discriminate|]. constructor; [exact Hc | exact Hw].
Qed.

Lemma newlines_to_spaces_app a b :
  newlines_to_spaces (a ++ b) = newlines_to_spaces a ++ newlines_to_spaces b.
Proof. apply map_app. Qed.

Lemma newlines_to_spaces_no_lf s : ~ In LF (newlines_to_spaces s).
Proof.
  unfold newlines_to_spaces. intros H. apply in_map_iff in H.
  destruct H as (c & E & _). destruct (Ascii.eqb c LF) eqn:Ec.
  - discriminate E.
  - apply Ascii.eqb_neq in Ec. congruence.
Qed.

Lemma newlines_to_spaces_ends c s :
  c <> LF -> ends_with c s -> ends_with c (newlines_to_spaces s).
Proof.
  intros Hc [x ->]. exists (newlines_to_spaces x).
  rewrite newlines_to_spaces_app. simpl.
  destruct (Ascii.eqb c LF) eqn:E; [|reflexivity].
  apply Ascii.eqb_eq in E. contradiction.
Qed.

(** What a match of the pattern of a function holds: the word and the
    four groups. *)
Lemma func_match_groups w cs :
  lang_caps FUNC_FLAGS FUNC_REGEX w cs ->
  exists type return_type name params tail,
    cs = [("params", params); ("name", name);
          ("return_type", return_type); ("type", type)] /\
    w = type ++ tail /\
    In type function_keywords /\
    word_of return_type_char return_type /\
    word_of is_word name.
Proof.
  unfold FUNC_REGEX. intros H. caps_inv;
    (eexists; eexists; eexists; eexists; eexists;
     split; [reflexivity|];
     split; [cbn [app]; reflexivity|];
     split; [unfold function_keywords; simpl; tauto|];
     split; eapply word_of_plus; eassumption).
Qed.

Lemma func_match_fields m :
  lang_caps FUNC_FLAGS FUNC_REGEX (group0 m) (m_caps m) ->
  lang FUNC_FLAGS FUNC_REGEX (group0 m) ->
  function_fields_ok (group m "type") (group m "return_type")
                     (group m "name") (one_line (group0 m)).
Proof.
  intros Hc Hl. pose proof (func_match_shape Hl) as (_ & Hend).
  rewrite (func_match_one_line Hl).
  apply func_match_groups in Hc.
  destruct Hc as (ty & rt & nm & ps & tail & Hcs & Hw & Hty & Hrt & Hnm).
  unfold group, group_opt. rewrite Hcs. cbn [lookup String.eqb Ascii.eqb Bool.eqb].
  cbn.
  repeat split; try assumption; try apply Hrt; try apply Hnm.
  - rewrite Hw, newlines_to_spaces_app.
    replace (newlines_to_spaces ty) with ty.
    + apply startswith_app.
    + unfold function_keywords in Hty. simpl in Hty.
      destruct Hty as [<-|[<-|[<-|[<-|[]]]]]; reflexivity.
  - apply newlines_to_spaces_ends; [discriminate | exact Hend].
  - apply newlines_to_spaces_no_lf.
Qed.

Lemma lang_caps_lang fl r w cs : lang_caps fl r w cs -> lang fl r w.
Proof.
  induction 1;
    first [ apply L_alt_l; assumption | apply L_alt_r; assumption
          | apply L_opt_some; assumption | apply L_opt_none
          | constructor; assumption ].
Qed.

(** X3: every function entry of the output has one of the four keywords
    as its type, a return type and a name that are non-empty words of
    their character classes, and a full declaration on one line that
    starts with the keyword and ends with a semicolon. *)
Theorem X3_function_entries_well_formed content filename :
  Forall (fun f => function_fields_ok (f_type f) (f_return_type f)
                     (f_name f) (f_full_declaration f))
         (function_entries (parse_include_content content filename)).
Proof.
  apply function_entries_forall, entries_forall.
  intros c code [f|mm|td] E; [|exact I|exact I].
  apply entry_of_block_function in E. destruct E as (m & S & ->).
  apply search_from_caps in S. destruct S as (L & _).
  cbn [f_type f_return_type f_name f_full_declaration].
  apply func_match_fields; [exact L | apply (lang_caps_lang L)].
Qed.

Lemma methodmap_members_methods_from code_text me :
  In me (fst (methodmap_members code_text)) ->
  exists m, lang_caps FUNC_FLAGS FUNC_REGEX (group0 m) (m_caps m) /\
            me = method_of_match m.
Proof.
  unfold methodmap_members.
  destruct (search DOTALL FULL_MAP_REGEX code_text) as [fm|]; [|contradiction].
  cbn [fst]. intros H. apply in_map_iff in H. destruct H as (m & <- & H).
  exists m. split; [|reflexivity].
  unfold finditer in H. apply finditer_from_caps in H. exact H.
Qed.

(** X4: the same holds of every method of every methodmap entry of the
    output. *)
Theorem X4_methods_well_formed content filename :
  Forall (fun mm =>
            Forall (fun me => function_fields_ok (me_type me)
                                (me_return_type me) (me_name me)
                                (me_full_declaration me))
                   (mm_methods mm))
         (methodmap_entries (parse_include_content content filename)).
Proof.
  apply methodmap_entries_forall, entries_forall.
  intros c code [f|mm|td] E; [exact I| |exact I].
  apply entry_of_block_methodmap_from in E.
  destruct E as (_ & m & _ & ->). cbn [mm_methods].
  apply Forall_forall. intros me Hme.
  apply methodmap_members_methods_from in Hme.
  destruct Hme as (mf & L & ->).
  cbn [method_of_match me_type me_return_type me_name me_full_declaration].
  apply func_match_fields; [exact L | apply (lang_caps_lang L)].
Qed.

(** ** Patterns anchored at the start of the chunk *)

Lemma is_word_not_space c : is_word c = true -> PyStr.isspace c = false.
Proof.
  destruct c as [[] [] [] [] [] [] [] []]; intros H;
    first [reflexivity | discriminate H].
Qed.

Lemma word_of_last p v :
  word_of p v -> exists x d, v = x ++ [d] /\ p d = true.
Proof.
  intros [Hne Hall]. destruct (exists_last Hne) as (x & d & ->).
  exists x, d. split; [reflexivity|].
  apply Forall_app in Hall. destruct Hall as [_ Hd].
  inversion Hd; assumption.
Qed.

Lemma word_of_head p v :
  word_of p v -> exists c t, v = c :: t /\ p c = true.
Proof.
  intros [Hne Hall]. destruct v as [|c t]; [contradiction|].
  exists c, t. split; [reflexivity|]. inversion Hall; assumption.
Qed.

Lemma lstrip_spaces ws x :
  Forall (fun c => PyStr.isspace c = true) ws ->
  PyStr.lstrip (ws ++ x) = PyStr.lstrip x.
Proof.
  induction 1 as [|c ws Hc _ IH]; [reflexivity|].
  simpl. rewrite Hc. exact IH.
Qed.

Section Anchored.
Variables (fl : flags) (r : regex).
Hypothesis single_line : multiline fl = false.

Lemma match_here_bol_after adv p c s :
  match_here fl (Seq Bol r) adv p (Some c) s = None.
Proof.
  unfold match_here. cbn [exec]. unfold at_bol. cbn [prev].
  rewrite single_line. reflexivity.
Qed.

Lemma search_from_bol_after : forall s p c,
  search_from fl (Seq Bol r) p (Some c) s = None.
Proof.
  induction s as [|d t IH]; intros p c; cbn [search_from];
    rewrite match_here_bol_after; [reflexivity | apply IH].
Qed.

(** Without [re.MULTILINE] a pattern that starts with [^] is found at
    offset 0 or not at all. *)
Lemma search_bol_start s m :
  search fl (Seq Bol r) s = Some m ->
  match_here fl (Seq Bol r) false 0 None s = Some m.
Proof.
  unfold search. destruct s as [|c t]; cbn [search_from];
    destruct (match_here fl (Seq Bol r) false 0 None _) as [m'|];
    try (intros H; exact H); try discriminate.
  rewrite search_from_bol_after. discriminate.
Qed.

Lemma finditer_from_bol_after : forall s sk p c,
  finditer_from fl (Seq Bol r) sk p (Some c) s = [].
Proof.
  induction s as [|d t IH]; intros sk p c; cbn [finditer_from].
  - destruct sk; [|reflexivity]. rewrite match_here_bol_after. reflexivity.
  - destruct sk; [|apply IH]. rewrite match_here_bol_after. apply IH.
Qed.

(** And the iterator finds it at most once, when it cannot match the
    empty text. *)
Lemma finditer_bol_once s :
  (forall w cs, lang_caps fl (Seq Bol r) w cs -> w <> []) ->
  finditer fl (Seq Bol r) s =
  option_list (match_here fl (Seq Bol r) false 0 None s).
Proof.
  intros Hne. unfold finditer.
  destruct s as [|c t]; cbn [finditer_from];
    destruct (match_here fl (Seq Bol r) false 0 None _) as [m|] eqn:E;
    try reflexivity.
  - apply match_here_caps in E. destruct E as (L & S & En & _).
    apply Hne in L. rewrite S, En.
    destruct (0 + List.length (group0 m) =? 0) eqn:Z; [|reflexivity].
    apply Nat.eqb_eq in Z. destruct (group0 m); [contradiction | discriminate Z].
  - apply match_here_caps in E. destruct E as (L & S & En & _).
    apply Hne in L. rewrite S, En.
    destruct (0 + List.length (group0 m) =? 0) eqn:Z.
    + apply Nat.eqb_eq in Z. destruct (group0 m); [contradiction | discriminate Z].
    + cbn [option_list]. f_equal. apply finditer_from_bol_after.
  - cbn [option_list]. apply finditer_from_bol_after.
Qed.
End Anchored.

(** ** Methodmaps, typedefs and properties *)

Lemma lang_caps_plus fl g a w cs :
  lang_caps fl (Plus g a) w cs ->
  cs = [] /\ w <> [] /\ Forall (fun c => atom_ok fl a c = true) w.
Proof.
  unfold Plus. intros H. caps_inv.
  split; [reflexivity|]. split; [discriminate|].
  constructor; assumption.
Qed.

Ltac caps_words :=
  repeat match goal with
    | H : lang_caps _ (Plus _ _) _ _ |- _ =>
        apply lang_caps_plus in H; destruct H as (-> & ? & ?)
    | H : lang_caps _ (Seq _ _) _ _ |- _ => inversion H; subst; clear H
    | H : lang_caps _ (Group _ _) _ _ |- _ => inversion H; subst; clear H
    | H : lang_caps _ (Alt _ _) _ _ |- _ => inversion H; subst; clear H
    | H : lang_caps _ (Opt _) _ _ |- _ => inversion H; subst; clear H
    | H : lang_caps _ (Str _) _ _ |- _ => inversion H; subst; clear H
    | H : lang_caps _ (Atom _) _ _ |- _ => inversion H; subst; clear H
    | H : lang_caps _ (Star _ _) _ _ |- _ => inversion H; subst; clear H
    | H : lang_caps _ Bol _ _ |- _ => inversion H; subst; clear H
    | H : lang_caps _ Eol _ _ |- _ => inversion H; subst; clear H
    | H : lang_caps _ Eps _ _ |- _ => inversion H; subst; clear H
    | H : lang_caps _ (Ahead _) _ _ |- _ => inversion H; subst; clear H
    end.

Lemma last_app (p : ascii -> bool) v (a b : text) :
  (exists x d, b = x ++ [d] /\ p d = v) ->
  exists x d, a ++ b = x ++ [d] /\ p d = v.
Proof.
  intros (x & d & -> & H). exists (a ++ x), d. split; [apply app_assoc | exact H].
Qed.

Lemma last_cons (p : ascii -> bool) v c (b : text) :
  (exists x d, b = x ++ [d] /\ p d = v) ->
  exists x d, c :: b = x ++ [d] /\ p d = v.
Proof. intros H. apply (@last_app p v [c] b H). Qed.

Lemma methodmap_match_groups w cs :
  lang_caps NOFLAGS METHODMAP_REGEX w cs ->
  exists name tail,
    w = txt "methodmap" ++ tail /\
    word_of is_word name /\
    (exists x d, w = x ++ [d] /\ is_word d = true) /\
    (cs = [("name", name)] \/
     exists parent, word_of is_word parent /\
                    cs = [("inherits", parent); ("name", name)]).
Proof.
  unfold METHODMAP_REGEX. intros H. caps_words; cbn [app].
  - match goal with
    | |- context [ [("inherits", ?pa); ("name", ?na)] = _ ] =>
        assert (Wn : word_of is_word na) by (split; assumption);
        assert (Wp : word_of is_word pa) by (split; assumption);
        exists na; eexists; split; [reflexivity|];
        split; [exact Wn|];
        split; [|right; exists pa; split; [exact Wp | reflexivity]];
        repeat first [apply last_cons | apply last_app];
        apply (@word_of_last _ _ Wp)
    end.
  - match goal with
    | |- context [ [("name", ?na)] = _ ] =>
        assert (Wn : word_of is_word na) by (split; assumption);
        exists na; eexists; split; [reflexivity|];
        split; [exact Wn|]; split; [|left; reflexivity];
        rewrite app_nil_r;
        repeat first [apply last_cons | apply last_app];
        apply (@word_of_last _ _ Wn)
    end.
Qed.

Lemma ends_with_cons c d s : ends_with c s -> ends_with c (d :: s).
Proof. intros [x ->]. exists (d :: x). reflexivity. Qed.

Lemma dot_not_lf w :
  Forall (fun c => atom_ok NOFLAGS ADot c = true) w -> ~ In LF w.
Proof.
  intros H Hin. rewrite Forall_forall in H. apply H in Hin. discriminate Hin.
Qed.

Lemma typedef_match_groups w cs :
  lang_caps NOFLAGS TYPEDEF_REGEX w cs ->
  exists name return_type params blanks decl,
    cs = [("params", params); ("return_type", return_type); ("name", name)] /\
    w = blanks ++ decl /\
    Forall (fun c => PyStr.isspace c = true) blanks /\
    PyStr.startswith decl "typedef" = true /\
    ends_with ";" decl /\
    word_of is_word name /\
    word_of typedef_type_char return_type /\
    ~ In LF params.
Proof.
  unfold TYPEDEF_REGEX. intros H. caps_words. cbn [app].
  match goal with
  | |- context [ [("params", ?ps); ("return_type", ?rt); ("name", ?na)] = _ ] =>
      exists na, rt, ps
  end.
  match goal with
  | |- context [ ?b ++ "t"%char :: ?rest ] => exists b, ("t"%char :: rest)
  end.
  split; [reflexivity|].
  split; [reflexivity|].
  split; [assumption|].
  split; [cbn; apply startswith_nil|].
  split; [repeat first [ solve [exists []; reflexivity]
                       | apply ends_with_cons | apply ends_with_app ]|].
  split; [split; assumption|].
  split; [split; assumption|].
  apply dot_not_lf. assumption.
Qed.

Lemma property_match_groups w cs :
  lang_caps NOFLAGS PROPERTY_REGEX w cs ->
  exists name property_type,
    cs = [("name", name); ("property_type", property_type)] /\
    w <> [] /\
    word_of is_word name /\ word_of is_word property_type.
Proof.
  unfold PROPERTY_REGEX. intros H. caps_words. cbn [app].
  match goal with
  | |- context [ [("name", ?na); ("property_type", ?ty)] = _ ] =>
      exists na, ty
  end.
  split; [reflexivity|].
  split; [intros E; apply (f_equal (@List.length ascii)) in E;
          rewrite !length_app in E; simpl in E; lia|].
  split; split; assumption.
Qed.

(** The entries of a file, with the block each comes from. *)
Lemma entries_forall_blocks (P : ApiEntry -> Prop) content filename :
  (forall block e,
     In block (comment_and_code_blocks (normalize_line_endings content)) ->
     entry_of_block filename (group block "comment") (group block "code")
       = Some e -> P e) ->
  Forall P (parse_include_content content filename).
Proof.
  intros H. rewrite parse_include_content_blocks.
  apply Forall_flat_map, Forall_forall. intros b Hb.
  unfold entries_of_block.
  destruct (entry_of_block filename _ _) as [e|] eqn:E; simpl.
  - constructor; [eapply H; eauto | constructor].
  - constructor.
Qed.

(** X5: every methodmap entry of the output has a word as its name, a
    word or nothing as its parent, and as its full declaration the
    header, which starts with the keyword and is the very beginning of
    the code chunk of one of the comment blocks: a methodmap further
    down in the chunk is not recognised. *)
Theorem X5_methodmap_opens_its_chunk content filename :
  Forall (fun mm =>
            word_of is_word (mm_name mm) /\
            match mm_inherits mm with
            | Some parent => word_of is_word parent
            | None => True
            end /\
            PyStr.startswith (mm_full_declaration mm) "methodmap" = true /\
            exists block rest,
              In block (comment_and_code_blocks
                          (normalize_line_endings content)) /\
              group block "code" = mm_full_declaration mm ++ rest)
         (methodmap_entries (parse_include_content content filename)).
Proof.
  apply methodmap_entries_forall, entries_forall_blocks.
  intros b [f|mm|td] Hb E; [exact I| |exact I].
  apply entry_of_block_methodmap_from in E.
  destruct E as (_ & m & S & ->).
  cbn [mm_name mm_inherits mm_full_declaration].
  unfold METHODMAP_REGEX in S. apply search_bol_start in S; [|reflexivity].
  apply match_here_caps in S. destruct S as (L & _ & _ & (rest & Hcode)).
  fold METHODMAP_REGEX in L. apply methodmap_match_groups in L.
  destruct L as (name & tail & Hw & Wn & (x & d & Hx & Hd) & Hcs).
  assert (Hstrip : PyStr.strip (group0 m) = group0 m).
  { apply (@strip_fixed (group0 m) "m"%char
             (txt "ethodmap" ++ tail) x d Hw Hx eq_refl).
    apply is_word_not_space, Hd. }
  rewrite Hstrip. unfold group, group_opt.
  destruct Hcs as [-> | (parent & Wp & ->)]; cbn.
  - repeat split; try apply Wn.
    + rewrite Hw. apply startswith_app.
    + exists b, rest. split; [exact Hb | exact Hcode].
  - repeat split; try apply Wn; try apply Wp.
    + rewrite Hw. apply startswith_app.
    + exists b, rest. split; [exact Hb | exact Hcode].
Qed.

(** X6: every typedef entry of the output has a word as its name, a
    return type made of word characters and colons, and as its full
    declaration a text that starts with the keyword, ends with a
    semicolon and, after blanks at most, is the beginning of the code
    chunk of one of the comment blocks. *)
Theorem X6_typedef_opens_its_chunk content filename :
  Forall (fun td =>
            word_of is_word (td_name td) /\
            word_of typedef_type_char (td_return_type td) /\
            PyStr.startswith (td_full_declaration td) "typedef" = true /\
            ends_with ";" (td_full_declaration td) /\
            exists block blanks rest,
              In block (comment_and_code_blocks
                          (normalize_line_endings content)) /\
              Forall (fun c => PyStr.isspace c = true) blanks /\
              group block "code" = blanks ++ td_full_declaration td ++ rest)
         (typedef_entries (parse_include_content content filename)).
Proof.
  apply typedef_entries_forall, entries_forall_blocks.
  intros b [f|mm|td] Hb E; [exact I|exact I|].
  apply entry_of_block_typedef in E.
  destruct E as (_ & _ & m & S & ->).
  cbn [td_name td_return_type td_full_declaration].
  unfold TYPEDEF_REGEX in S. apply search_bol_start in S; [|reflexivity].
  apply match_here_caps in S. destruct S as (L & _ & _ & (rest & Hcode)).
  fold TYPEDEF_REGEX in L. apply typedef_match_groups in L.
  destruct L as (name & rt & ps & blanks & decl
                 & Hcs & Hw & Hb' & Hs & He & Wn & Wr & _).
  assert (Hstrip : PyStr.strip (group0 m) = decl).
  { rewrite Hw. unfold PyStr.strip. rewrite lstrip_spaces by exact Hb'.
    destruct (startswith_inv _ _ Hs) as [t Ht].
    destruct He as [x Hx].
    rewrite Ht at 1. change (txt "typedef" ++ t)
      with ("t"%char :: (txt "ypedef" ++ t)).
    rewrite lstrip_head by reflexivity.
    change ("t"%char :: (txt "ypedef" ++ t)) with (txt "typedef" ++ t).
    rewrite <- Ht, Hx. apply rstrip_last. reflexivity. }
  assert (Hn : group m "name" = name)
    by (unfold group, group_opt; rewrite Hcs; reflexivity).
  assert (Hr : group m "return_type" = rt)
    by (unfold group, group_opt; rewrite Hcs; reflexivity).
  rewrite Hstrip, Hn, Hr.
  split; [exact Wn|]. split; [exact Wr|]. split; [exact Hs|].
  split; [exact He|].
  exists b, blanks, rest. split; [exact Hb|]. split; [exact Hb'|].
  rewrite Hcode, Hw, <- app_assoc. reflexivity.
Qed.

Lemma methodmap_members_properties code_text :
  exists found,
    snd (methodmap_members code_text) =
      map property_of_match (option_list found) /\
    match found with
    | Some m => lang_caps NOFLAGS PROPERTY_REGEX (group0 m) (m_caps m)
    | None => True
    end.
Proof.
  unfold methodmap_members.
  destruct (search DOTALL FULL_MAP_REGEX code_text) as [fm|];
    [|exists None; split; [reflexivity | exact I]].
  cbn [snd]. unfold PROPERTY_REGEX at 1.
  rewrite finditer_bol_once; [|reflexivity|].
  - fold PROPERTY_REGEX.
    destruct (match_here NOFLAGS PROPERTY_REGEX false 0 None (group fm "1"))
      as [m|] eqn:E.
    + exists (Some m). split; [reflexivity|].
      apply match_here_caps in E. apply E.
    + exists None. split; [reflexivity | exact I].
  - intros w cs L. fold PROPERTY_REGEX in L.
    apply property_match_groups in L. destruct L as (_ & _ & _ & Hne & _).
    exact Hne.
Qed.

(** X7: a methodmap entry of the output has at most one property, and
    the name and the type of the property are words. *)
Theorem X7_at_most_one_property content filename :
  Forall (fun mm =>
            List.length (mm_properties mm) <= 1 /\
            Forall (fun p => word_of is_word (pr_name p) /\
                             word_of is_word (pr_type p))
                   (mm_properties mm))
         (methodmap_entries (parse_include_content content filename)).
Proof.
  apply methodmap_entries_forall, entries_forall.
  intros c code [f|mm|td] E; [exact I| |exact I].
  apply entry_of_block_methodmap_from in E.
  destruct E as (_ & m & _ & ->). cbn [mm_properties].
  destruct (methodmap_members_properties code) as ([pm|] & -> & L).
  - split; [apply Nat.le_refl|].
    constructor; [|constructor].
    apply property_match_groups in L.
    destruct L as (name & ty & Hcs & _ & Wn & Wt).
    unfold property_of_match, group, group_opt. rewrite Hcs. cbn.
    split; assumption.
  - split; [apply Nat.le_0_l | constructor].
Qed.

(** ** Line-ending conventions *)

Lemma normalized_has_no_cr s : ~ In CR (normalize_line_endings s).
Proof.
  rewrite normalize_eq. unfold cr_to_lf. rewrite replace_char.
  intros H. apply in_map_iff in H. destruct H as (c & E & _).
  destruct (Ascii.eqb c CR) eqn:Ec.
  - discriminate E.
  - apply Ascii.eqb_neq in Ec. congruence.
Qed.

Lemma normalize_to_crlf s :
  ~ In CR s -> normalize_line_endings (to_crlf s) = s.
Proof.
  induction s as [|c s IH]; intros H; [reflexivity|].
  assert (Hc : c <> CR) by (intros ->; apply H; left; reflexivity).
  assert (Hs : ~ In CR s) by (intros F; apply H; right; exact F).
  cbn [to_crlf flat_map]. fold (to_crlf s).
  destruct (Ascii.eqb c LF) eqn:E.
  - apply Ascii.eqb_eq in E. subst c. cbn [app].
    rewrite normalize_eq, crlf_to_lf_crlf, cr_to_lf_cons, <- normalize_eq, IH
      by exact Hs.
    reflexivity.
  - cbn [app].
    rewrite normalize_eq, crlf_to_lf_keep, cr_to_lf_cons, <- normalize_eq, IH
      by assumption.
    destruct (Ascii.eqb c CR) eqn:Ec; [|reflexivity].
    apply Ascii.eqb_eq in Ec. contradiction.
Qed.

Lemma crlf_to_lf_no_lf s : ~ In LF s -> crlf_to_lf s = s.
Proof.
  induction s as [|c s IH]; intros H; [reflexivity|].
  assert (Hs : ~ In LF s) by (intros F; apply H; right; exact F).
  destruct (ascii_dec c CR) as [->|Hc].
  - destruct s as [|d s]; [reflexivity|].
    rewrite crlf_to_lf_cr, IH; [reflexivity | exact Hs |].
    intros ->. apply Hs. left. reflexivity.
  - rewrite crlf_to_lf_keep, IH by assumption. reflexivity.
Qed.

Lemma normalize_to_cr s :
  ~ In CR s -> normalize_line_endings (to_cr s) = s.
Proof.
  intros H. rewrite normalize_eq, crlf_to_lf_no_lf.
  - unfold cr_to_lf, to_cr. rewrite replace_char, map_map.
    rewrite <- (map_id s) at 2. apply map_ext_in. intros c Hc.
    destruct (Ascii.eqb c LF) eqn:E.
    + apply Ascii.eqb_eq in E. subst c. reflexivity.
    + destruct (Ascii.eqb c CR) eqn:Ec; [|reflexivity].
      apply Ascii.eqb_eq in Ec. subst c. contradiction.
  - unfold to_cr. intros F. apply in_map_iff in F. destruct F as (c & E & _).
    destruct (Ascii.eqb c LF) eqn:Ec; [discriminate E|].
    apply Ascii.eqb_neq in Ec. congruence.
Qed.

Lemma normalize_no_cr s : ~ In CR s -> normalize_line_endings s = s.
Proof.
  induction s as [|c s IH]; intros H; [reflexivity|].
  assert (Hc : c <> CR) by (intros ->; apply H; left; reflexivity).
  assert (Hs : ~ In CR s) by (intros F; apply H; right; exact F).
  rewrite normalize_eq, crlf_to_lf_keep, cr_to_lf_cons, <- normalize_eq, IH
    by assumption.
  destruct (Ascii.eqb c CR) eqn:Ec; [|reflexivity].
  apply Ascii.eqb_eq in Ec. contradiction.
Qed.

Lemma parse_include_content_normalized content filename :
  parse_include_content (normalize_line_endings content) filename =
  parse_include_content content filename.
Proof.
  rewrite !parse_include_content_blocks.
  rewrite (@normalize_no_cr _ (normalized_has_no_cr content)).
  reflexivity.
Qed.

(** X8: no carriage return is left in a text whose line endings have
    been normalised, a text without carriage return is left as it is,
    and normalising twice is normalising once. *)
Theorem X8_normalized_line_endings s :
  ~ In CR (normalize_line_endings s) /\
  (~ In CR s -> normalize_line_endings s = s) /\
  normalize_line_endings (normalize_line_endings s) = normalize_line_endings s.
Proof.
  split; [apply normalized_has_no_cr|]. split; [apply normalize_no_cr|].
  apply normalize_no_cr, normalized_has_no_cr.
Qed.

(** X8 on a text of two lines. *)
Lemma X8_witness :
  ~ In CR (normalize_line_endings (lines ["a"; "b"])) /\
  normalize_line_endings (lines ["a"; "b"]) = lines ["a"; "b"].
Proof.
  destruct (X8_normalized_line_endings (lines ["a"; "b"])) as (H1 & H2 & _).
  split; [exact H1|]. apply H2. vm_compute. intuition discriminate.
Defined.

(** X9: a file gives the same entries whether its lines end the Unix
    way, the Windows way or the way of the classic Mac. *)
Theorem X9_line_ending_convention content filename :
  ~ In CR content ->
  parse_include_content (to_crlf content) filename =
    parse_include_content content filename /\
  parse_include_content (to_cr content) filename =
    parse_include_content content filename.
Proof.
  intros H. split.
  - rewrite <- (parse_include_content_normalized (to_crlf content)),
      normalize_to_crlf by exact H.
    reflexivity.
  - rewrite <- (parse_include_content_normalized (to_cr content)),
      normalize_to_cr by exact H.
    reflexivity.
Qed.

(** X9 on the file of [DoX]. *)
Lemma X9_witness :
  parse_include_content (to_crlf dox_inc) "dox.inc" =
    parse_include_content dox_inc "dox.inc" /\
  parse_include_content (to_cr dox_inc) "dox.inc" =
    parse_include_content dox_inc "dox.inc".
Proof.
  apply (@X9_line_ending_convention dox_inc (txt "dox.inc")).
  vm_compute. intuition discriminate.
Defined.

(** ** Blank texts and pieces *)

Lemma lstrip_blank s :
  Forall (fun c => PyStr.isspace c = true) s -> PyStr.lstrip s = [].
Proof.
  induction 1 as [|c s Hc _ IH]; [reflexivity|]. simpl. rewrite Hc. exact IH.
Qed.

Lemma lstrip_nil_blank s :
  PyStr.lstrip s = [] -> Forall (fun c => PyStr.isspace c = true) s.
Proof.
  induction s as [|c s IH]; intros H; [constructor|].
  simpl in H. destruct (PyStr.isspace c) eqn:E; [|discriminate].
  constructor; [exact E | apply IH, H].
Qed.

Lemma lstrip_suffix s : exists ws,
  Forall (fun c => PyStr.isspace c = true) ws /\ s = ws ++ PyStr.lstrip s.
Proof.
  induction s as [|c s (ws & Hws & IH)]; [exists []; split; [constructor|reflexivity]|].
  simpl. destruct (PyStr.isspace c) eqn:E.
  - exists (c :: ws). split; [constructor; assumption|].
    simpl. rewrite <- IH. reflexivity.
  - exists []. split; [constructor | reflexivity].
Qed.

Lemma strip_blank s :
  Forall (fun c => PyStr.isspace c = true) s -> PyStr.strip s = [].
Proof. intros H. unfold PyStr.strip. rewrite lstrip_blank by exact H. reflexivity. Qed.

Lemma strip_nil_blank s :
  PyStr.strip s = [] -> Forall (fun c => PyStr.isspace c = true) s.
Proof.
  unfold PyStr.strip, PyStr.rstrip. intros H.
  apply (f_equal (@rev ascii)) in H. rewrite rev_involutive in H. simpl in H.
  apply lstrip_nil_blank in H. apply Forall_rev in H.
  rewrite rev_involutive in H.
  destruct (lstrip_suffix s) as (ws & Hws & E). rewrite E.
  apply Forall_app. split; assumption.
Qed.

Lemma split_aux_no_sep sep s : forall cur,
  ~ In sep s -> PyStr.split_aux sep cur s = [rev cur ++ s].
Proof.
  induction s as [|c s IH]; intros cur H; simpl.
  - rewrite app_nil_r. reflexivity.
  - destruct (Ascii.eqb c sep) eqn:E.
    + apply Ascii.eqb_eq in E. subst c. exfalso. apply H. left. reflexivity.
    + rewrite IH by (intros F; apply H; right; exact F).
      simpl. rewrite <- app_assoc. reflexivity.
Qed.

Lemma split_aux_app sep a b : forall cur,
  PyStr.split_aux sep cur (a ++ sep :: b) =
  PyStr.split_aux sep cur a ++ PyStr.split_aux sep [] b.
Proof.
  induction a as [|c a IH]; intros cur; simpl.
  - rewrite Ascii.eqb_refl. reflexivity.
  - destruct (Ascii.eqb c sep); [rewrite IH; reflexivity | apply IH].
Qed.

(** Cutting at a separator the text made of two texts around one
    separator gives the pieces of the first, then those of the second. *)
Lemma split_app sep a b :
  PyStr.split sep (a ++ sep :: b) = PyStr.split sep a ++ PyStr.split sep b.
Proof. apply split_aux_app. Qed.

Lemma split_aux_length sep s : forall cur,
  List.length (PyStr.split_aux sep cur s) = S (count_char sep s).
Proof.
  unfold count_char. induction s as [|c s IH]; intros cur; simpl; [reflexivity|].
  rewrite (Ascii.eqb_sym sep c). destruct (Ascii.eqb c sep); simpl; rewrite IH;
    reflexivity.
Qed.

(** ** The parameter list, piece by piece *)

Lemma parse_param_blank cp piece :
  Forall (fun c => PyStr.isspace c = true) piece -> parse_param cp piece = [].
Proof. intros H. unfold parse_param. rewrite strip_blank by exact H. reflexivity. Qed.

Lemma parse_params_string_pieces params_str pc :
  parse_params_string params_str pc =
  flat_map (parse_param (comment_params_of pc)) (PyStr.split "," params_str).
Proof.
  unfold parse_params_string.
  destruct (PyStr.strip params_str) as [|c t] eqn:E; [|reflexivity].
  apply strip_nil_blank in E.
  unfold PyStr.split. rewrite split_aux_no_sep.
  - simpl. rewrite app_nil_r. symmetry. apply parse_param_blank, E.
  - intros F. rewrite Forall_forall in E. apply E in F. discriminate F.
Qed.

Lemma parse_param_length cp piece : List.length (parse_param cp piece) <= 1.
Proof.
  unfold parse_param. destruct (PyStr.strip piece); [apply Nat.le_0_l|].
  destruct (re_match NOFLAGS PARAM_REGEX _); simpl; lia.
Qed.

(** X10: the list of parameters is read piece by piece: the parameters
    of two lists joined by a comma are those of the first followed by
    those of the second, so that they come in the order of the source;
    and a list has at most one parameter more than it has commas. *)
Theorem X10_parameters_piece_by_piece pc (a b s : text) :
  parse_params_string (a ++ ","%char :: b) pc =
    parse_params_string a pc ++ parse_params_string b pc /\
  List.length (parse_params_string s pc) <= S (count_char "," s).
Proof.
  split.
  - rewrite !parse_params_string_pieces, split_app. apply flat_map_app.
  - rewrite parse_params_string_pieces.
    unfold PyStr.split. rewrite <- (split_aux_length "," s []).
    induction (PyStr.split_aux "," [] s) as [|p ps IH]; [apply Nat.le_refl|].
    cbn [flat_map]. rewrite length_app.
    pose proof (parse_param_length (comment_params_of pc) p). simpl. lia.
Qed.

(** X11: a list of parameters made of blanks only, the empty one among
    them, has no parameter. *)
Theorem X11_blank_parameter_list pc s :
  Forall (fun c => PyStr.isspace c = true) s -> parse_params_string s pc = [].
Proof.
  intros H. unfold parse_params_string.
  rewrite strip_blank by exact H. reflexivity.
Qed.

(** X11 on a list of two blanks. *)
Lemma X11_witness : parse_params_string "  " no_comment = [].
Proof.
  apply (@X11_blank_parameter_list no_comment (txt "  ")). repeat constructor.
Defined.

(** ** Descriptions and fields of parameters *)

Lemma text_eqb_eq a b : text_eqb a b = true <-> a = b.
Proof.
  unfold text_eqb. destruct (list_eq_dec ascii_dec a b); split; intros H;
    auto; try discriminate; contradiction.
Qed.

Lemma text_eqb_refl a : text_eqb a a = true.
Proof. apply text_eqb_eq. reflexivity. Qed.

Lemma text_eqb_neq a b : a <> b -> text_eqb a b = false.
Proof.
  intros H. destruct (text_eqb a b) eqn:E; [|reflexivity].
  apply text_eqb_eq in E. contradiction.
Qed.

Lemma dict_get_set_same k v d default :
  dict_get k (dict_set k v d) default = v.
Proof.
  induction d as [|[k' v'] d IH]; simpl.
  - rewrite text_eqb_refl. reflexivity.
  - destruct (text_eqb k' k) eqn:E; simpl; rewrite E; [reflexivity | exact IH].
Qed.

Lemma dict_get_set_other k k' v d default :
  k' <> k -> dict_get k (dict_set k' v d) default = dict_get k d default.
Proof.
  intros H. induction d as [|[k2 v2] d IH]; simpl.
  - rewrite text_eqb_neq by exact H. reflexivity.
  - destruct (text_eqb k2 k') eqn:E; simpl.
    + apply text_eqb_eq in E. subst k2.
      rewrite text_eqb_neq by exact H. reflexivity.
    + destruct (text_eqb k2 k); [reflexivity | exact IH].
Qed.

Lemma comment_params_other k ds : forall d default,
  Forall (fun p => pd_name p <> k) ds ->
  dict_get k (fold_left (fun d p => dict_set (pd_name p) (pd_description p) d)
                        ds d) default =
  dict_get k d default.
Proof.
  induction ds as [|p ds IH]; intros d default H; [reflexivity|].
  inversion H; subst. cbn [fold_left].
  rewrite IH by assumption. apply dict_get_set_other. assumption.
Qed.

(** The description kept for a name is that of the last tag that bears
    the name, and none without such a tag. *)
Lemma comment_params_last pc k :
  (Forall (fun p => pd_name p <> k) (t_param (tags pc)) ->
   dict_get k (comment_params_of pc) [] = []) /\
  (forall before p after,
     t_param (tags pc) = before ++ p :: after ->
     pd_name p = k -> Forall (fun q => pd_name q <> k) after ->
     dict_get k (comment_params_of pc) [] = pd_description p).
Proof.
  unfold comment_params_of. split.
  - intros H. rewrite comment_params_other by exact H. reflexivity.
  - intros before p after E Hk Ha. rewrite E, fold_left_app. cbn [fold_left].
    rewrite comment_params_other by exact Ha.
    rewrite <- Hk. apply dict_get_set_same.
Qed.

Lemma param_match_groups w cs :
  lang_caps NOFLAGS PARAM_REGEX w cs ->
  exists type name,
    word_of param_type_char type /\ word_of is_word name /\
    (cs = [("name", name); ("type", type)] \/
     exists value, cs = [("default", value); ("name", name); ("type", type)]).
Proof.
  unfold PARAM_REGEX. intros H. caps_words; cbn [app];
    match goal with
    | |- context [ [("name", ?na); ("type", ?ty)] = _ ] =>
        exists ty, na; split; [split; assumption|];
        split; [split; assumption|]; left; reflexivity
    | |- context [ [("default", ?v); ("name", ?na); ("type", ?ty)] = _ ] =>
        exists ty, na; split; [split; assumption|];
        split; [split; assumption|]; right; exists v; reflexivity
    end.
Qed.

Lemma parse_param_from cp piece p :
  In p (parse_param cp piece) ->
  word_of param_type_char (p_type p) /\ word_of is_word (p_name p) /\
  p_description p = dict_get (p_name p) cp [].
Proof.
  unfold parse_param. destruct (PyStr.strip piece) as [|c t]; [contradiction|].
  destruct (re_match NOFLAGS PARAM_REGEX (c :: t)) as [m|] eqn:E; [|contradiction].
  intros [<-|[]]. cbn [p_name p_type p_description].
  unfold re_match in E. apply match_here_caps in E. destruct E as (L & _).
  apply param_match_groups in L.
  destruct L as (ty & na & Wt & Wn & Hcs).
  assert (Hn : group m "name" = na)
    by (unfold group, group_opt; destruct Hcs as [->|(v & ->)]; reflexivity).
  assert (Ht : group m "type" = ty)
    by (unfold group, group_opt; destruct Hcs as [->|(v & ->)]; reflexivity).
  rewrite Hn, Ht. auto.
Qed.

(** X12: every parameter read from a list has, as its name, a non-empty
    word and, as its type, a non-empty text of word characters, colons
    and square brackets. *)
Theorem X12_parameters_well_formed params_str pc :
  Forall (fun p => word_of is_word (p_name p) /\
                   word_of param_type_char (p_type p))
         (parse_params_string params_str pc).
Proof.
  rewrite parse_params_string_pieces.
  apply Forall_flat_map, Forall_forall. intros piece _.
  apply Forall_forall. intros p Hp. apply parse_param_from in Hp. tauto.
Qed.

(** X13: the description of a parameter is that of the last [param] tag
    of the comment that bears its name, and the empty text when no tag
    bears it. *)
Theorem X13_parameter_descriptions params_str pc :
  Forall (fun p =>
            (Forall (fun d => pd_name d <> p_name p) (t_param (tags pc)) ->
             p_description p = []) /\
            (forall before d after,
               t_param (tags pc) = before ++ d :: after ->
               pd_name d = p_name p ->
               Forall (fun q => pd_name q <> p_name p) after ->
               p_description p = pd_description d))
         (parse_params_string params_str pc).
Proof.
  rewrite parse_params_string_pieces.
  apply Forall_flat_map, Forall_forall. intros piece _.
  apply Forall_forall. intros p Hp. apply parse_param_from in Hp.
  destruct Hp as (_ & _ & ->). apply comment_params_last.
Qed.

(** X13 on a parameter that the comment documents twice. *)
Lemma X13_witness :
  Forall (fun p => p_description p = "second")
         (parse_params_string "int a" twice_documented).
Proof.
  pose proof (X13_parameter_descriptions "int a" twice_documented) as H.
  assert (E : parse_params_string "int a" twice_documented =
              [{| p_name := "a"; p_type := "int"; p_default := None;
                  p_description := "second" |}])
    by (vm_compute; reflexivity).
  rewrite E in H |- *.
  apply Forall_inv in H. destruct H as [_ H].
  constructor; [|constructor].
  apply (H [{| pd_name := "a"; pd_description := "first" |}]
           {| pd_name := "a"; pd_description := "second" |} []).
  - vm_compute. reflexivity.
  - reflexivity.
  - constructor.
Defined.

(** ** Trimmed texts *)

Lemma lstrip_head_not_space s c t :
  PyStr.lstrip s = c :: t -> PyStr.isspace c = false.
Proof.
  induction s as [|d s IH]; intros H; [discriminate|].
  simpl in H. destruct (PyStr.isspace d) eqn:E; [apply IH, H|].
  injection H as <- _. exact E.
Qed.

Lemma rstrip_prefix s : exists ws,
  Forall (fun c => PyStr.isspace c = true) ws /\ s = PyStr.rstrip s ++ ws.
Proof.
  unfold PyStr.rstrip. destruct (lstrip_suffix (rev s)) as (ws & Hws & E).
  exists (rev ws). split; [apply Forall_rev, Hws|].
  rewrite <- rev_app_distr, <- E, rev_involutive. reflexivity.
Qed.

Lemma rstrip_last_not_space s x d :
  PyStr.rstrip s = x ++ [d] -> PyStr.isspace d = false.
Proof.
  unfold PyStr.rstrip. intros H. apply (f_equal (@rev ascii)) in H.
  rewrite rev_involutive, rev_app_distr in H. simpl in H.
  apply lstrip_head_not_space in H. exact H.
Qed.

(** What [strip] returns is trimmed. *)
Lemma strip_trimmed s : trimmed (PyStr.strip s).
Proof.
  unfold PyStr.strip. split.
  - intros c t H. destruct (rstrip_prefix (PyStr.lstrip s)) as (ws & _ & E).
    rewrite H in E. simpl in E. apply lstrip_head_not_space in E. exact E.
  - intros x d H. apply rstrip_last_not_space in H. exact H.
Qed.

Lemma strip_of_trimmed s : trimmed s -> PyStr.strip s = s.
Proof.
  intros [Hh Hl]. destruct s as [|c t]; [reflexivity|].
  destruct (@exists_last _ (c :: t)) as (x & d & E); [discriminate|].
  apply (@strip_fixed (c :: t) c t x d eq_refl E).
  - apply (Hh c t eq_refl).
  - apply (Hl x d E).
Qed.

Lemma strip_idempotent s : PyStr.strip (PyStr.strip s) = PyStr.strip s.
Proof. apply strip_of_trimmed, strip_trimmed. Qed.

Lemma In_lstrip c s : In c (PyStr.lstrip s) -> In c s.
Proof.
  destruct (lstrip_suffix s) as (ws & _ & E). intros H. rewrite E.
  apply in_or_app. right. exact H.
Qed.

Lemma In_rstrip c s : In c (PyStr.rstrip s) -> In c s.
Proof.
  destruct (rstrip_prefix s) as (ws & _ & E). intros H. rewrite E.
  apply in_or_app. left. exact H.
Qed.

Lemma In_strip c s : In c (PyStr.strip s) -> In c s.
Proof. intros H. apply In_lstrip, In_rstrip, H. Qed.

Lemma In_skipn_text c n (s : text) : In c (skipn n s) -> In c s.
Proof.
  intros H. rewrite <- (firstn_skipn n s). apply in_or_app. right. exact H.
Qed.

Lemma In_firstn_text c n (s : text) : In c (firstn n s) -> In c s.
Proof.
  intros H. rewrite <- (firstn_skipn n s). apply in_or_app. left. exact H.
Qed.

Lemma In_if_skipn c (b : bool) n (s : text) :
  In c (if b then skipn n s else s) -> In c s.
Proof. destruct b; [apply In_skipn_text | auto]. Qed.

Lemma In_if_firstn c (b : bool) n (s : text) :
  In c (if b then firstn n s else s) -> In c s.
Proof. destruct b; [apply In_firstn_text | auto]. Qed.

Lemma In_clean_line c line : In c (clean_line line) -> In c line.
Proof.
  unfold clean_line, PyStr.slice_from, PyStr.slice_to_neg. intros H.
  apply In_strip, In_if_skipn, In_if_firstn, In_if_skipn, In_strip in H.
  exact H.
Qed.

Lemma In_join c sep ls :
  In c (PyStr.join sep ls) -> In c sep \/ exists l, In l ls /\ In c l.
Proof.
  induction ls as [|l ls IH]; [contradiction|].
  destruct ls as [|l' ls'].
  - simpl. intros H. right. exists l. auto.
  - change (PyStr.join sep (l :: l' :: ls'))
      with (l ++ sep ++ PyStr.join sep (l' :: ls')).
    intros H. apply in_app_or in H. destruct H as [H|H].
    + right. exists l. split; [left; reflexivity | exact H].
    + apply in_app_or in H. destruct H as [H|H]; [left; exact H|].
      destruct (IH H) as [Hs|(l0 & Hl0 & Hc)]; [left; exact Hs|].
      right. exists l0. split; [right; exact Hl0 | exact Hc].
Qed.

Lemma In_full_comment c comment_lines :
  In c (full_comment_of comment_lines) ->
  c = LF \/ exists line, In line comment_lines /\ In c line.
Proof.
  unfold full_comment_of. intros H. apply In_strip, In_join in H.
  destruct H as [[H|[]]|(l & Hl & Hc)]; [left; symmetry; exact H|].
  apply in_map_iff in Hl. destruct Hl as (line & <- & Hline).
  right. exists line. split; [exact Hline | apply In_clean_line, Hc].
Qed.

(** ** The tags of a comment *)

Lemma parse_comment_block_tags comment_lines :
  tags (parse_comment_block comment_lines) =
  fold_left add_tag (tag_matches_of comment_lines) initial_tags.
Proof. reflexivity. Qed.

Lemma param_tag_match_groups w cs :
  lang_caps NOFLAGS PARAM_TAG_REGEX w cs ->
  exists name desc, cs = [("desc", desc); ("name", name)] /\
                    word_of is_word name.
Proof.
  unfold PARAM_TAG_REGEX. intros H. caps_words. cbn [app].
  match goal with
  | |- context [ [("desc", ?d); ("name", ?na)] = _ ] => exists na, d
  end.
  split; [reflexivity | split; assumption].
Qed.

Lemma add_tag_param_docs t m :
  t_param (add_tag t m) = t_param t \/
  exists name desc,
    word_of is_word name /\
    t_param (add_tag t m) =
      t_param t ++ [{| pd_name := name; pd_description := PyStr.strip desc |}].
Proof.
  unfold add_tag.
  destruct (text_eqb (group m "tag") "param").
  - destruct (re_match NOFLAGS PARAM_TAG_REGEX _) as [pm|] eqn:E; [|left; reflexivity].
    right. unfold re_match in E. apply match_here_caps in E.
    destruct E as (L & _). apply param_tag_match_groups in L.
    destruct L as (name & desc & Hcs & Wn).
    exists name, desc. split; [exact Wn|]. cbn [t_param].
    unfold group, group_opt. rewrite Hcs. reflexivity.
  - left. destruct (text_eqb (group m "tag") "return"); [reflexivity|].
    destruct (existsb _ _); [|reflexivity].
    unfold tags_append.
    destruct (text_eqb (group m "tag") "error"); [reflexivity|].
    destruct (text_eqb (group m "tag") "note"); reflexivity.
Qed.

Lemma fold_add_tag_param_docs ms : forall t,
  Forall (fun d => word_of is_word (pd_name d) /\ trimmed (pd_description d))
         (t_param t) ->
  Forall (fun d => word_of is_word (pd_name d) /\ trimmed (pd_description d))
         (t_param (fold_left add_tag ms t)).
Proof.
  induction ms as [|m ms IH]; intros t H; [exact H|].
  cbn [fold_left]. apply IH.
  destruct (add_tag_param_docs t m) as [->|(name & desc & Wn & ->)]; [exact H|].
  apply Forall_app. split; [exact H|].
  constructor; [|constructor]. split; [exact Wn | apply strip_trimmed].
Qed.

(** X14: the description of a parsed comment neither starts nor ends
    with a blank; every [param] entry of its tags has a non-empty word
    as its name and a description that neither starts nor ends with a
    blank. *)
Theorem X14_comment_is_trimmed comment_lines :
  trimmed (description (parse_comment_block comment_lines)) /\
  Forall (fun d => word_of is_word (pd_name d) /\ trimmed (pd_description d))
         (t_param (tags (parse_comment_block comment_lines))).
Proof.
  split.
  - apply strip_trimmed.
  - rewrite parse_comment_block_tags. apply fold_add_tag_param_docs.
    constructor.
Qed.

Lemma tags_split_has_at w : lang NOFLAGS TAGS_SPLIT_REGEX w -> In "@"%char w.
Proof.
  unfold TAGS_SPLIT_REGEX. intros H. lang_inv.
  apply in_or_app. right. apply in_or_app. right. left. reflexivity.
Qed.

Lemma full_comment_trimmed comment_lines :
  PyStr.strip (full_comment_of comment_lines) = full_comment_of comment_lines.
Proof. apply strip_idempotent. Qed.

(** X15: a comment in which no commercial at occurs has no tag: its
    description is its whole body, stripped of the marks of the comment,
    and its tags are those every comment starts with. *)
Theorem X15_comment_without_tags comment_lines :
  Forall (fun line => ~ In "@"%char line) comment_lines ->
  parse_comment_block comment_lines =
    {| description := full_comment_of comment_lines;
       tags := initial_tags |}.
Proof.
  intros H.
  assert (Hno : ~ In "@"%char (full_comment_of comment_lines)).
  { intros F. apply In_full_comment in F.
    destruct F as [F|(line & Hl & Hc)]; [discriminate F|].
    rewrite Forall_forall in H. apply (H line Hl Hc). }
  assert (S : search NOFLAGS TAGS_SPLIT_REGEX (full_comment_of comment_lines)
              = None).
  { destruct (search _ _ _) as [m|] eqn:E; [|reflexivity].
    apply search_sound in E. destruct E as (L & s1 & E & _).
    apply tags_split_has_at in L. exfalso. apply Hno. rewrite E.
    apply in_or_app. right. apply in_or_app. left. exact L. }
  unfold parse_comment_block, split1. rewrite S. cbn [hd].
  rewrite full_comment_trimmed. reflexivity.
Qed.

(** X15 on a comment of one line. *)
Lemma X15_witness :
  parse_comment_block plain_comment =
    {| description := "Does X."; tags := initial_tags |}.
Proof.
  rewrite (@X15_comment_without_tags plain_comment).
  - reflexivity.
  - constructor; [|constructor]. vm_compute. intuition discriminate.
Defined.

(** ** How the tags add up *)

Lemma add_tag_lists t m :
  t_error (add_tag t m) =
    t_error t ++ (if tag_is "error" m then [tag_content m] else []) /\
  t_note (add_tag t m) =
    t_note t ++ (if tag_is "note" m then [tag_content m] else []) /\
  t_return (add_tag t m) =
    (if tag_is "return" m then tag_content m else t_return t).
Proof.
  unfold add_tag, tag_is, tags_append. fold (tag_content m).
  destruct (text_eqb (group m "tag") "param") eqn:Ep.
  { apply text_eqb_eq in Ep. rewrite Ep. cbn.
    destruct (re_match NOFLAGS PARAM_TAG_REGEX (tag_content m));
      cbn; rewrite !app_nil_r; auto. }
  destruct (text_eqb (group m "tag") "return") eqn:Er.
  { apply text_eqb_eq in Er. rewrite Er. cbn. rewrite !app_nil_r. auto. }
  destruct (text_eqb (group m "tag") "error") eqn:Ee.
  { apply text_eqb_eq in Ee. rewrite Ee. cbn. rewrite !app_nil_r. auto. }
  destruct (text_eqb (group m "tag") "note") eqn:En.
  { apply text_eqb_eq in En. rewrite En. cbn. rewrite !app_nil_r. auto. }
  cbn [existsb]. rewrite Ee, En. cbn [orb].
  destruct (text_eqb (group m "tag") "deprecated" || _);
    cbn; rewrite !app_nil_r; auto.
Qed.

Lemma last_default (x : text) xs d d' : last (x :: xs) d = last (x :: xs) d'.
Proof.
  revert x. induction xs as [|y ys IH]; intros x; [reflexivity|].
  change (last (y :: ys) d = last (y :: ys) d'). apply IH.
Qed.

Lemma fold_add_tag_lists ms : forall t,
  t_error (fold_left add_tag ms t) =
    t_error t ++ map tag_content (filter (tag_is "error") ms) /\
  t_note (fold_left add_tag ms t) =
    t_note t ++ map tag_content (filter (tag_is "note") ms) /\
  t_return (fold_left add_tag ms t) =
    last (map tag_content (filter (tag_is "return") ms)) (t_return t).
Proof.
  induction ms as [|m ms IH]; intros t.
  - cbn. rewrite !app_nil_r. auto.
  - cbn [fold_left filter]. destruct (IH (add_tag t m)) as (He & Hn & Hr).
    destruct (add_tag_lists t m) as (Ae & An & Ar).
    rewrite He, Hn, Hr, Ae, An, Ar. repeat split.
    + destruct (tag_is "error" m); cbn [map]; rewrite <- app_assoc; reflexivity.
    + destruct (tag_is "note" m); cbn [map]; rewrite <- app_assoc; reflexivity.
    + destruct (tag_is "return" m); [|reflexivity]. cbn [map].
      destruct (map tag_content (filter (tag_is "return") ms)) as [|x xs];
        [reflexivity|].
      change (last (tag_content m :: x :: xs) (t_return t))
        with (last (x :: xs) (t_return t)).
      apply last_default.
Qed.

(** X16: the tags of a comment are gathered in the order they are
    written: the [error] entries and the [note] entries are the contents
    of the tags of that name, in order, and [return] is the content of
    the last [return] tag, or empty without one. *)
Theorem X16_tags_in_order comment_lines :
  let t := tags (parse_comment_block comment_lines) in
  let found := tag_matches_of comment_lines in
  t_error t = map tag_content (filter (tag_is "error") found) /\
  t_note t = map tag_content (filter (tag_is "note") found) /\
  t_return t = last (map tag_content (filter (tag_is "return") found)) [].
Proof.
  cbv zeta. rewrite parse_comment_block_tags.
  apply (fold_add_tag_lists (tag_matches_of comment_lines) initial_tags).
Qed.

(** ** Runs *)

Lemma entries_of_file_from w root file e :
  In e (entries_of_file w root file) ->
  PyStr.endswith file ".inc" = true /\
  exists content,
    read_file w (path_join root file) = Ok content /\
    In e (parse_include_content content file).
Proof.
  unfold entries_of_file, parse_include_file.
  destruct (PyStr.endswith file ".inc"); [|contradiction].
  destruct (read_file w (path_join root file)) as [content|msg];
    [|contradiction].
  intros H. split; [reflexivity|]. exists content. auto.
Qed.

Lemma source_file_of_entries content filename e :
  In e (parse_include_content content filename) ->
  source_file_of e = filename.
Proof.
  intros H.
  assert (F : Forall (fun e => source_file_of e = filename)
                     (parse_include_content content filename)).
  { apply entries_forall. intros c code [f|mm|td] E.
    - apply entry_of_block_function in E. destruct E as (m & _ & ->). reflexivity.
    - apply entry_of_block_methodmap_from in E.
      destruct E as (_ & m & _ & ->). reflexivity.
    - apply entry_of_block_typedef in E.
      destruct E as (_ & _ & m & _ & ->). reflexivity. }
  rewrite Forall_forall in F. apply F, H.
Qed.

Lemma main_count_printed w include_dir output :
  isdir w include_dir = true ->
  In ([LF] +++ "Successfully parsed " +++
        PyStr.of_nat (List.length (visited_entries w include_dir)) +++
        " API entries.")
     (stdout (main w include_dir output)).
Proof.
  intros H. apply main_printed; [exact H|]. right.
  rewrite scan_all_data. reflexivity.
Qed.

(** X17: when the directory exists, the array gathered is the entries of
    the visited files, file after file in the order of the visit; it is
    what is written when the output can be opened, and nothing is
    written when it cannot; the count printed is its length; every entry
    of it comes from a visited file whose name ends in [.inc] and could
    be read, and bears the name of that file as its source file. *)
Theorem X17_output_of_a_run w include_dir output :
  isdir w include_dir = true ->
  written (main w include_dir output) =
    match open_output w output with
    | Ok _ => Some (output, visited_entries w include_dir)
    | Raised _ => None
    end /\
  In ([LF] +++ "Successfully parsed " +++
        PyStr.of_nat (List.length (visited_entries w include_dir)) +++
        " API entries.")
     (stdout (main w include_dir output)) /\
  Forall (fun e =>
            exists d file content,
              In d (walk w include_dir) /\ In file (snd d) /\
              PyStr.endswith file ".inc" = true /\
              read_file w (path_join (fst d) file) = Ok content /\
              In e (parse_include_content content file) /\
              source_file_of e = file)
         (visited_entries w include_dir).
Proof.
  intros H. split; [apply main_written, H|].
  split; [apply main_count_printed, H|].
  unfold visited_entries. apply Forall_forall. intros e He.
  apply in_flat_map in He. destruct He as (d & Hd & He).
  apply in_flat_map in He. destruct He as (file & Hf & He).
  apply entries_of_file_from in He. destruct He as (Hinc & content & Hr & He).
  exists d, file, content. repeat split; try assumption.
  apply (source_file_of_entries _ _ _ He).
Qed.

(** X17 on the directory of [mixed_world], with an output that can be
    opened and with one that cannot. *)
Lemma X17_witness :
  written (main mixed_world "inc" "sourcemod_api.json") =
    Some (txt "sourcemod_api.json", visited_entries mixed_world "inc") /\
  written (main mixed_world "inc" "nodir/out.json") = None /\
  In ([LF] +++ "Successfully parsed " +++
        PyStr.of_nat (List.length (visited_entries mixed_world "inc")) +++
        " API entries.")
     (stdout (main mixed_world "inc" "nodir/out.json")).
Proof.
  destruct (@X17_output_of_a_run mixed_world (txt "inc")
              (txt "sourcemod_api.json") eq_refl) as (H1 & _ & _).
  destruct (@X17_output_of_a_run mixed_world (txt "inc")
              (txt "nodir/out.json") eq_refl) as (H2 & H3 & _).
  split; [exact H1|]. split; [exact H2 | exact H3].
Defined.

Lemma scan_file_same w1 w2 root st file :
  (PyStr.endswith file ".inc" = true ->
   read_file w1 (path_join root file) = read_file w2 (path_join root file)) ->
  scan_file w1 root st file = scan_file w2 root st file.
Proof.
  intros H. unfold scan_file, parse_include_file.
  destruct (PyStr.endswith file ".inc"); [|reflexivity].
  rewrite H by reflexivity. reflexivity.
Qed.

Lemma scan_files_same w1 w2 root files : forall st,
  (forall file, In file files -> PyStr.endswith file ".inc" = true ->
     read_file w1 (path_join root file) = read_file w2 (path_join root file)) ->
  fold_left (scan_file w1 root) files st =
  fold_left (scan_file w2 root) files st.
Proof.
  induction files as [|f fs IH]; intros st H; [reflexivity|].
  cbn [fold_left]. rewrite (scan_file_same w1 w2 root st f).
  - apply IH. intros file Hf. apply H. right. exact Hf.
  - apply H. left. reflexivity.
Qed.

Lemma scan_dirs_same w1 w2 dirs : forall st,
  (forall d file, In d dirs -> In file (snd d) ->
     PyStr.endswith file ".inc" = true ->
     read_file w1 (path_join (fst d) file) =
     read_file w2 (path_join (fst d) file)) ->
  fold_left (scan_dir w1) dirs st = fold_left (scan_dir w2) dirs st.
Proof.
  induction dirs as [|d ds IH]; intros st H; [reflexivity|].
  cbn [fold_left]. unfold scan_dir at 2 4.
  rewrite (scan_files_same w1 w2 (fst d) (snd d)).
  - apply IH. intros d' file Hd. apply H. right. exact Hd.
  - intros file Hf. apply H; [left; reflexivity | exact Hf].
Qed.

(** X18: a run never looks into a file whose name does not end in
    [.inc]: two worlds with the same directories, the same contents for
    the visited [.inc] files and the same answer when the output is
    opened for writing give the same run, whatever else they hold. *)
Theorem X18_only_inc_files_are_read w1 w2 include_dir output :
  same_includes w1 w2 include_dir output ->
  main w1 include_dir output = main w2 include_dir output.
Proof.
  intros (Hd & Hw & Ho & Hr). unfold main, scan_all.
  rewrite <- Hd, <- Hw, <- Ho.
  destruct (isdir w1 include_dir); [|reflexivity]. cbn [negb].
  rewrite (scan_dirs_same w1 w2 (walk w1 include_dir) _ Hr). reflexivity.
Qed.

(** X18 on a directory with a note that can be read in one world and not
    in the other. *)
Lemma X18_witness :
  main noted_world "inc" "sourcemod_api.json" =
  main unread_note_world "inc" "sourcemod_api.json".
Proof.
  apply (@X18_only_inc_files_are_read noted_world unread_note_world
           (txt "inc") (txt "sourcemod_api.json")).
  split; [reflexivity|]. split; [reflexivity|]. split; [reflexivity|].
  intros d file [<-|[]] Hf Hinc. cbn [fst snd] in *.
  destruct Hf as [<-|[<-|[<-|[]]]]; [reflexivity | reflexivity|].
  vm_compute in Hinc. discriminate Hinc.
Defined.

(** ** The blocks of a file *)

(** The lazy star stops at the first place where what follows
    succeeds. *)
Lemma star_lazy_first fl a k : forall s p pv cs res,
  star_lazy fl a k p pv cs s = Some res ->
  exists w s1 pv1,
    s = w ++ s1 /\
    k (MState (p + List.length w) pv1 s1 cs) = Some res /\
    forall w1 w2, w = w1 ++ w2 -> w2 <> [] ->
      exists pv', k (MState (p + List.length w1) pv' (w2 ++ s1) cs) = None.
Proof.
  induction s as [|c t IH]; intros p pv cs res H; simpl in H.
  - destruct (k (MState p pv [] cs)) eqn:K; [|discriminate].
    exists [], [], pv. rewrite Nat.add_0_r.
    split; [reflexivity|]. split; [congruence|].
    intros w1 w2 E Hne. symmetry in E. apply app_eq_nil in E.
    destruct E as [_ E]. contradiction.
  - destruct (k (MState p pv (c :: t) cs)) eqn:K.
    + exists [], (c :: t), pv. rewrite Nat.add_0_r.
      split; [reflexivity|]. split; [congruence|].
      intros w1 w2 E Hne. symmetry in E. apply app_eq_nil in E.
      destruct E as [_ E]. contradiction.
    + destruct (atom_ok fl a c); [|discriminate].
      apply IH in H. destruct H as (w & s1 & pv1 & -> & Hk & Hmin).
      exists (c :: w), s1, pv1. split; [reflexivity|].
      split; [simpl; rewrite <- Nat.add_succ_comm; exact Hk|].
      intros w1 w2 E Hne. destruct w1 as [|c' w1].
      * simpl in E. subst w2. exists pv. rewrite Nat.add_0_r. exact K.
      * simpl in E. injection E as <- E.
        destruct (Hmin w1 w2 E Hne) as [pv' Hn]. exists pv'.
        simpl. rewrite <- Nat.add_succ_comm. exact Hn.
Qed.

(** A literal word that does not match, before something that accepts
    whatever comes, is not what the subject starts with. *)
Lemma exec_str_refuses w : forall p pv cs s,
  exec_str w (fun st => Some st) p pv cs s = None ->
  PyStr.startswith s w = false.
Proof.
  induction w as [|d w IH]; intros p pv cs s H; [discriminate|].
  simpl in H. destruct s as [|c t]; [reflexivity|].
  simpl. destruct (Ascii.eqb d c); [apply (IH _ _ _ _ H) | reflexivity].
Qed.

Lemma occurs_from_splits sub (w s1 : text) :
  (forall w1 w2, w = w1 ++ w2 -> w2 <> [] ->
     PyStr.startswith (w2 ++ s1) sub = false) ->
  sub <> [] -> occurs sub w = false.
Proof.
  intros H Hsub. destruct (occurs sub w) eqn:E; [|reflexivity].
  apply occurs_inv in E. destruct E as (a & b & ->).
  assert (F : PyStr.startswith ((sub ++ b) ++ s1) sub = false).
  { apply (H a (sub ++ b) eq_refl). destruct sub; [contradiction | discriminate]. }
  rewrite <- app_assoc, startswith_app in F. discriminate F.
Qed.

Lemma exec_group fl n r k st :
  exec fl (Group n r) k st =
  exec fl r
    (fun st' =>
       k (MState (pos st') (prev st') (rest st')
            ((n, firstn (pos st' - pos st) (rest st)) :: caps st')))
    st.
Proof. reflexivity. Qed.

Lemma exec_star_lazy fl a k st :
  exec fl (Star false a) k st =
  star_lazy fl a k (pos st) (prev st) (caps st) (rest st).
Proof. reflexivity. Qed.

Lemma exec_star_greedy fl a k st :
  exec fl (Star true a) k st =
  star_greedy fl a k (pos st) (prev st) (caps st) (rest st).
Proof. reflexivity. Qed.

(** A lazy star over any character succeeds as soon as what follows
    succeeds at the end of the subject. *)
Lemma star_lazy_dot_total k cs : forall s p pv,
  (forall p' pv', p <= p' -> k (MState p' pv' [] cs) <> None) ->
  star_lazy DOTALL ADot k p pv cs s <> None.
Proof.
  induction s as [|c t IH]; intros p pv H; simpl.
  - specialize (H p pv (le_n _)).
    destruct (k (MState p pv [] cs)); [discriminate | contradiction].
  - destruct (k (MState p pv (c :: t) cs)); [discriminate|].
    apply IH. intros p' pv' Hle. apply H. lia.
Qed.

Lemma star_greedy_total fl a k cs : forall s p pv,
  (forall p' pv' s', p <= p' -> k (MState p' pv' s' cs) <> None) ->
  star_greedy fl a k p pv cs s <> None.
Proof.
  induction s as [|c t IH]; intros p pv T; simpl.
  - apply T. apply le_n.
  - destruct (atom_ok fl a c); [|apply T; apply le_n].
    assert (G : star_greedy fl a k (S p) (Some c) cs t <> None)
      by (apply IH; intros p' pv' s' Hle; apply T; lia).
    destruct (star_greedy fl a k (S p) (Some c) cs t);
      [discriminate | contradiction].
Qed.

(** A greedy star gives nothing back when what follows cannot fail. *)
Lemma star_greedy_max fl a k cs : forall s p pv res,
  (forall p' pv' s', p <= p' -> k (MState p' pv' s' cs) <> None) ->
  star_greedy fl a k p pv cs s = Some res ->
  exists w s1 pv1,
    s = w ++ s1 /\
    Forall (fun c => atom_ok fl a c = true) w /\
    k (MState (p + List.length w) pv1 s1 cs) = Some res /\
    match s1 with
    | c :: _ => atom_ok fl a c = false
    | [] => True
    end.
Proof.
  induction s as [|c t IH]; intros p pv res T H; simpl in H.
  - exists [], [], pv. rewrite Nat.add_0_r.
    split; [reflexivity|]. split; [constructor|]. split; [exact H | exact I].
  - destruct (atom_ok fl a c) eqn:E.
    + assert (T' : forall p' pv' s', S p <= p' ->
                     k (MState p' pv' s' cs) <> None)
        by (intros p' pv' s' Hle; apply T; lia).
      pose proof (@star_greedy_total fl a k cs t (S p) (Some c) T') as G.
      destruct (star_greedy fl a k (S p) (Some c) cs t) as [v|] eqn:G';
        [|contradiction].
      injection H as <-. apply IH in G'; [|exact T'].
      destruct G' as (w & s1 & pv1 & -> & F & K & M).
      exists (c :: w), s1, pv1.
      split; [reflexivity|]. split; [constructor; assumption|].
      split; [simpl; rewrite <- Nat.add_succ_comm; exact K | exact M].
    + exists [], (c :: t), pv. rewrite Nat.add_0_r.
      split; [reflexivity|]. split; [constructor|]. split; [exact H | exact E].
Qed.

Lemma exec_str_none w : forall k p pv cs s,
  exec_str w k p pv cs s = None ->
  PyStr.startswith s w = false \/
  exists s1 pv1, s = w ++ s1 /\
    k (MState (p + List.length w) pv1 s1 cs) = None.
Proof.
  induction w as [|d w IH]; intros k p pv cs s H; simpl in H.
  - right. exists s, pv. rewrite Nat.add_0_r. split; [reflexivity | exact H].
  - destruct s as [|c t]; [left; reflexivity|]. simpl.
    destruct (Ascii.eqb d c) eqn:E; [|left; reflexivity].
    apply Ascii.eqb_eq in E. subst c. apply IH in H.
    destruct H as [H|(s1 & pv1 & -> & H)]; [left; exact H | right].
    exists s1, pv1. split; [reflexivity|].
    simpl. rewrite <- Nat.add_succ_comm. exact H.
Qed.

Lemma exec_ahead_some fl w k st res :
  exec fl (Ahead (Alt (Str w) Eol)) k st = Some res ->
  k st = Some res /\
  (PyStr.startswith (rest st) w = true \/ at_eol fl st = true).
Proof.
  cbn [exec]. destruct (exec_str w _ _ _ _ _) eqn:ES.
  - intros H. split; [exact H|]. left.
    apply exec_str_sound in ES. destruct ES as (s1 & pv1 & -> & _).
    apply startswith_app.
  - destruct (at_eol fl st); [|discriminate].
    intros H. split; [exact H | right; reflexivity].
Qed.


Lemma firstn_prefix (a b : text) n :
  n = List.length a -> firstn n (a ++ b) = a.
Proof.
  intros ->. rewrite firstn_app, Nat.sub_diag, firstn_all. apply app_nil_r.
Qed.

Lemma firstn_three (a b c d : text) n :
  n = List.length a + List.length b + List.length c ->
  firstn n (a ++ b ++ c ++ d) = a ++ b ++ c.
Proof.
  intros ->. rewrite !app_assoc, <- !length_app.
  rewrite firstn_app, Nat.sub_diag, firstn_all. apply app_nil_r.
Qed.

(** After the comment of a block, the rest of the pattern cannot
    fail. *)
Lemma block_code_total adv p0 st :
  p0 < pos st ->
  exec DOTALL
    (Seq (Group "code" (Star false ADot)) (Ahead (Alt (Str "/**") Eol)))
    (fun st' => if adv && (pos st' =? p0) then None else Some st') st
  <> None.
Proof.
  intros Hp. rewrite exec_seq, exec_group, exec_star_lazy.
  apply star_lazy_dot_total. intros p' pv' Hle.
  cbn. replace (p' =? p0) with false by (symmetry; apply Nat.eqb_neq; lia).
  rewrite andb_false_r. discriminate.
Qed.

Lemma block_tail_total adv p0 st :
  p0 < pos st ->
  exec DOTALL
    (Seq (Star true space)
       (Seq (Group "code" (Star false ADot)) (Ahead (Alt (Str "/**") Eol))))
    (fun st' => if adv && (pos st' =? p0) then None else Some st') st
  <> None.
Proof.
  intros Hp. rewrite exec_seq, exec_star_greedy.
  apply star_greedy_total. intros p' pv' s' Hle.
  apply block_code_total. cbn [pos]. lia.
Qed.

Lemma exec_ahead_none fl w k st :
  exec fl (Ahead (Alt (Str w) Eol)) k st = None ->
  k st = None \/
  (PyStr.startswith (rest st) w = false /\ at_eol fl st = false).
Proof.
  cbn [exec].
  destruct (exec_str w _ _ _ _ _) eqn:ES; [left; assumption|].
  destruct (at_eol fl st); [left; assumption|].
  intros _. right. split; [|reflexivity].
  apply (exec_str_refuses _ _ _ _ _ ES).
Qed.

Lemma at_eol_dotall st : at_eol DOTALL st = at_end (rest st).
Proof.
  unfold at_eol, at_end. destruct (rest st) as [|c [|d t]]; cbn;
    rewrite ?andb_true_r, ?andb_false_r; reflexivity.
Qed.

(** One match of the pattern of the blocks, with all that fixes it: the
    comment ends with the first closing mark, the blanks are all the
    blanks there are, and the code ends at the first place where an
    opener or the end of the text follows. *)
Lemma block_match_here_exact adv p pv s m :
  match_here DOTALL BLOCK_REGEX adv p pv s = Some m ->
  exists c x blanks code after,
    s = (txt "/**" ++ c :: x ++ txt "*/") ++ blanks ++ code ++ after /\
    group0 m = (txt "/**" ++ c :: x ++ txt "*/") ++ blanks ++ code /\
    group m "comment" = txt "/**" ++ c :: x ++ txt "*/" /\
    group m "code" = code /\
    m_start m = p /\
    m_end m =
      p + (6 + List.length x + List.length blanks + List.length code) /\
    (forall u1 u2, x = u1 ++ u2 -> u2 <> [] ->
       PyStr.startswith (u2 ++ txt "*/" ++ blanks ++ code ++ after) "*/"
       = false) /\
    Forall (fun c => PyStr.isspace c = true) blanks /\
    match code ++ after with
    | d :: _ => PyStr.isspace d = false
    | [] => True
    end /\
    (forall u1 u2, code = u1 ++ u2 -> u2 <> [] ->
       PyStr.startswith (u2 ++ after) "/**" = false /\
       at_end (u2 ++ after) = false) /\
    (PyStr.startswith after "/**" = true \/ at_end after = true).
Proof.
  unfold match_here. intros H.
  destruct (exec DOTALL BLOCK_REGEX _ _) as [st|] eqn:E; [|discriminate].
  injection H as <-. unfold BLOCK_REGEX in E.
  rewrite exec_seq, exec_group in E.
  rewrite exec_seq in E. cbn [pos rest] in E.
  match type of E with
  | exec _ _ (exec _ _ ?k) _ = _ => set (K := k) in E
  end.
  assert (KT : forall st', p < pos st' -> K st' <> None).
  { intros st' Hp. unfold K. apply block_tail_total. exact Hp. }
  apply exec_caps_sound in E.
  destruct E as (w1 & s1 & pv1 & cs1 & L1 & R1 & E).
  inversion L1; subst w1 cs1; clear L1. cbn [pos rest caps] in *.
  unfold Plus in E. rewrite !exec_seq in E.
  apply exec_caps_sound in E.
  destruct E as (w2 & s2 & pv2 & cs2 & L2 & R2 & E).
  inversion L2; subst w2 cs2; clear L2. cbn [pos rest caps] in *.
  rewrite exec_star_lazy in E. cbn [pos prev rest caps] in E.
  apply star_lazy_first in E.
  destruct E as (x & s3 & pv3 & R3 & E & Hmin).
  apply exec_caps_sound in E.
  destruct E as (w4 & s4 & pv4 & cs4 & L4 & R4 & E).
  inversion L4; subst w4 cs4; clear L4. cbn [pos rest caps] in *.
  assert (Hx : forall u1 u2, x = u1 ++ u2 -> u2 <> [] ->
                 PyStr.startswith (u2 ++ s3) "*/" = false).
  { intros u1 u2 Eu Hne. destruct (Hmin u1 u2 Eu Hne) as [pv' Hn].
    apply exec_str_none in Hn. cbn [pos prev rest caps] in Hn.
    destruct Hn as [Hn|(sx & pvx & _ & Hn)]; [exact Hn|].
    exfalso. revert Hn. apply KT. cbn [pos List.length]. lia. }
  clear Hmin KT.
  unfold K in E. cbn [pos prev rest caps List.length app] in E.
  rewrite exec_seq, exec_star_greedy in E. cbn [pos prev rest caps] in E.
  apply star_greedy_max in E;
    [|intros p' pv' s' Hle; apply block_code_total; cbn [pos]; lia].
  destruct E as (blanks & s5 & pv5 & R5 & Fb & E & Hmax).
  rewrite exec_seq, exec_group, exec_star_lazy in E.
  cbn [pos prev rest caps] in E.
  apply star_lazy_first in E.
  destruct E as (code & after & pv6 & R6 & E & Hmin).
  cbn [pos prev rest caps] in E.
  apply exec_ahead_some in E. destruct E as [E Hafter].
  cbn [pos rest] in E, Hafter.
  assert (Hadv : forall q, p < q -> adv && (q =? p) = false).
  { intros q Hq. destruct adv; [|reflexivity]. apply Nat.eqb_neq. lia. }
  assert (Hcode : forall u1 u2, code = u1 ++ u2 -> u2 <> [] ->
                    PyStr.startswith (u2 ++ after) "/**" = false /\
                    at_end (u2 ++ after) = false).
  { intros u1 u2 Eu Hne. destruct (Hmin u1 u2 Eu Hne) as [pv' Hn].
    cbn [pos prev rest caps] in Hn.
    apply exec_ahead_none in Hn. cbn [pos rest] in Hn.
    rewrite Hadv in Hn by lia. rewrite at_eol_dotall in Hn.
    destruct Hn as [Hn|Hn]; [discriminate | exact Hn]. }
  clear Hmin.
  rewrite at_eol_dotall in Hafter. cbn [rest] in Hafter.
  rewrite Hadv in E by lia. injection E as <-.
  clear Hadv K.
  unfold group, group_opt. cbn [m_caps group0 pos caps m_start m_end].
  cbn [lookup String.eqb Ascii.eqb Bool.eqb].
  subst s s1 s2 s3 s4 s5.
  assert (Hs : txt "/**" ++ [c] ++ x ++ txt "*/" ++ blanks ++ code ++ after
               = (txt "/**" ++ c :: x ++ txt "*/") ++ blanks ++ code ++ after).
  { simpl. rewrite <- app_assoc. reflexivity. }
  cbv [txt list_ascii_of_string] in Hs. rewrite Hs. clear Hs.
  set (comment := [ "/"%char; "*"%char; "*"%char ] ++
                    c :: x ++ [ "*"%char; "/"%char ]).
  assert (Hlen : List.length comment = 3 + 1 + List.length x + 2).
  { unfold comment. simpl. rewrite length_app. simpl. lia. }
  rewrite (@firstn_three comment blanks code after) by lia.
  rewrite (@firstn_prefix comment (blanks ++ code ++ after)) by lia.
  rewrite (@firstn_prefix code after) by lia.
  exists c, x, blanks, code, after.
  split; [reflexivity|].
  split; [rewrite <- !app_assoc; reflexivity|].
  split; [reflexivity|].
  split; [reflexivity|].
  split; [reflexivity|].
  split; [lia|].
  split; [exact Hx|].
  split; [exact Fb|].
  split; [exact Hmax|].
  split; [exact Hcode | exact Hafter].
Qed.

(** What one match of the pattern of the blocks holds. *)
Lemma block_match_here adv p pv s m :
  match_here DOTALL BLOCK_REGEX adv p pv s = Some m ->
  exists c x blanks code after,
    s = group0 m ++ after /\
    group0 m = group m "comment" ++ blanks ++ code /\
    group m "comment" = txt "/**" ++ c :: x ++ txt "*/" /\
    group m "code" = code /\
    occurs "*/" x = false /\
    Forall (fun c => PyStr.isspace c = true) blanks /\
    match code ++ after with
    | d :: _ => PyStr.isspace d = false
    | [] => True
    end /\
    occurs "/**" code = false /\
    (PyStr.startswith after "/**" = true \/ after = [] \/ after = [LF]).
Proof.
  intros H. apply block_match_here_exact in H.
  destruct H as (c & x & blanks & code & after & Hs & H0 & Hc & Hcode
                 & _ & _ & Hx & Hb & Hmax & Hmin & Hafter).
  exists c, x, blanks, code, after.
  split; [rewrite Hs, H0, <- !app_assoc; reflexivity|].
  split; [rewrite H0, Hc; reflexivity|].
  split; [exact Hc|].
  split; [exact Hcode|].
  split; [apply (@occurs_from_splits (txt "*/") x
                   (txt "*/" ++ blanks ++ code ++ after) Hx); discriminate|].
  split; [exact Hb|].
  split; [exact Hmax|].
  split.
  - apply (@occurs_from_splits (txt "/**") code after); [|discriminate].
    intros u1 u2 E Hne. apply (Hmin u1 u2 E Hne).
  - destruct Hafter as [Ha|Ha]; [left; exact Ha | right].
    destruct after as [|d [|d' t]];
      [left; reflexivity | right | discriminate Ha].
    apply Ascii.eqb_eq in Ha. subst d. reflexivity.
Qed.

(** Every match the iterator yields was found by one attempt at some
    position: a property of the attempts that moves one character to the
    left holds of all that is yielded. *)
Lemma finditer_from_attempts fl r
      (P : nat -> option ascii -> text -> match_obj -> Prop) :
  (forall adv p pv s m, match_here fl r adv p pv s = Some m -> P p pv s m) ->
  (forall c t p pv m, P (S p) (Some c) t m -> P p pv (c :: t) m) ->
  forall s sk p pv m, In m (finditer_from fl r sk p pv s) -> P p pv s m.
Proof.
  intros Here Next.
  induction s as [|c t IH]; intros sk p pv m H.
  - simpl in H. destruct sk; [|contradiction].
    destruct (match_here fl r false p pv []) as [m1|] eqn:E1; [|contradiction].
    destruct (m_end m1 =? m_start m1).
    + destruct H as [<-|H]; [eapply Here; eauto|].
      destruct (match_here fl r true p pv []) as [m2|] eqn:E2; [|contradiction].
      destruct H as [<-|[]]. eapply Here; eauto.
    + destruct H as [<-|[]]. eapply Here; eauto.
  - simpl in H. destruct sk; [|apply Next; eapply IH; eauto].
    destruct (match_here fl r false p pv (c :: t)) as [m1|] eqn:E1;
      [|apply Next; eapply IH; eauto].
    destruct (m_end m1 =? m_start m1).
    + destruct H as [<-|H]; [eapply Here; eauto|].
      destruct (match_here fl r true p pv (c :: t)) as [m2|] eqn:E2;
        [|apply Next; eapply IH; eauto].
      destruct H as [<-|H]; [eapply Here; eauto|].
      apply Next. eapply IH; eauto.
    + destruct H as [<-|H]; [eapply Here; eauto|].
      apply Next. eapply IH; eauto.
Qed.

Lemma prev_after_cons pv c a : prev_after pv (c :: a) = prev_after (Some c) a.
Proof.
  unfold prev_after. simpl rev.
  destruct (rev a) as [|d l]; reflexivity.
Qed.

Lemma finditer_from_origin fl r : forall s sk p pv m,
  In m (finditer_from fl r sk p pv s) ->
  exists a b adv,
    s = a ++ b /\
    match_here fl r adv (p + List.length a) (prev_after pv a) b = Some m.
Proof.
  apply (@finditer_from_attempts fl r
           (fun p pv s m =>
              exists a b adv,
                s = a ++ b /\
                match_here fl r adv (p + List.length a) (prev_after pv a) b
                = Some m)).
  - intros adv p pv s m E. exists [], s, adv.
    rewrite Nat.add_0_r. split; [reflexivity | exact E].
  - intros c t p pv m (a & b & adv & -> & E). exists (c :: a), b, adv.
    split; [reflexivity|].
    rewrite prev_after_cons. simpl. rewrite <- Nat.add_succ_comm. exact E.
Qed.

Lemma blocks_forall (P : text -> match_obj -> Prop) content :
  (forall before adv p pv s m,
     content = before ++ s ->
     match_here DOTALL BLOCK_REGEX adv p pv s = Some m -> P content m) ->
  Forall (P content) (comment_and_code_blocks content).
Proof.
  intros H. apply Forall_forall. intros b Hb.
  unfold comment_and_code_blocks, finditer in Hb.
  apply finditer_from_origin in Hb.
  destruct Hb as (a & s & adv & -> & E). eapply H; eauto.
Qed.

(** X19: every comment the scanner cuts out of a file starts with the
    opener "/**", has at least one character after it, and ends with
    the first "*/" behind that character: no "*/" lies in between. *)
Theorem X19_comment_of_a_block content :
  Forall (fun block =>
            exists c x,
              group block "comment" = txt "/**" ++ c :: x ++ txt "*/" /\
              occurs "*/" x = false)
         (comment_and_code_blocks content).
Proof.
  apply (@blocks_forall
           (fun _ block =>
              exists c x,
                group block "comment" = txt "/**" ++ c :: x ++ txt "*/" /\
                occurs "*/" x = false)).
  intros before adv p pv s m _ E. apply block_match_here in E.
  destruct E as (c & x & _ & _ & _ & _ & _ & Hc & _ & Hx & _).
  exists c, x. split; [exact Hc | exact Hx].
Qed.

(** X20: the code chunk of a block is the piece of the file between the
    blanks that follow the comment and the next opener "/**" or the end
    of the file, a last line feed left out.  It holds no opener and does
    not start with a blank. *)
Theorem X20_code_of_a_block content :
  Forall (fun block =>
            exists before blanks after,
              content = before ++ group block "comment" ++ blanks ++
                        group block "code" ++ after /\
              Forall (fun c => PyStr.isspace c = true) blanks /\
              match group block "code" with
              | d :: _ => PyStr.isspace d = false
              | [] => True
              end /\
              occurs "/**" (group block "code") = false /\
              (PyStr.startswith after "/**" = true \/
               after = [] \/ after = [LF]))
         (comment_and_code_blocks content).
Proof.
  apply (@blocks_forall
           (fun content block =>
              exists before blanks after,
                content = before ++ group block "comment" ++ blanks ++
                          group block "code" ++ after /\
                Forall (fun c => PyStr.isspace c = true) blanks /\
                match group block "code" with
                | d :: _ => PyStr.isspace d = false
                | [] => True
                end /\
                occurs "/**" (group block "code") = false /\
                (PyStr.startswith after "/**" = true \/
                 after = [] \/ after = [LF]))).
  intros before adv p pv s m -> E. apply block_match_here in E.
  destruct E as (c & x & blanks & code & after
                 & Hs & H0 & _ & Hcode & _ & Hb & Hmax & Hocc & Hafter).
  exists before, blanks, after. rewrite Hcode.
  split; [rewrite Hs, H0, <- !app_assoc; reflexivity|].
  split; [exact Hb|].
  split; [destruct code; [exact I | exact Hmax]|].
  split; [exact Hocc | exact Hafter].
Qed.

(** ** Matching on a longer subject *)

Section Extend.
Variable fl : flags.
Variable tail : text.

Lemma star_greedy_fallback a k p pv cs s :
  k (MState p pv s cs) <> None -> star_greedy fl a k p pv cs s <> None.
Proof.
  intros H. destruct s as [|c t]; simpl; [exact H|].
  destruct (atom_ok fl a c); [|exact H].
  destruct (star_greedy fl a k (S p) (Some c) cs t); [discriminate | exact H].
Qed.

Lemma star_lazy_now a k p pv cs s :
  k (MState p pv s cs) <> None -> star_lazy fl a k p pv cs s <> None.
Proof.
  intros H. destruct s as [|c t]; simpl;
    destruct (k (MState p pv _ cs)); try discriminate; contradiction.
Qed.

Lemma exec_str_extend w : forall k1 k2 p1 p2 pv cs1 cs2 s,
  extended_cont tail k1 k2 ->
  exec_str w k1 p1 pv cs1 s <> None ->
  exec_str w k2 p2 pv cs2 (s ++ tail) <> None.
Proof.
  induction w as [|d w IH]; intros k1 k2 p1 p2 pv cs1 cs2 s HK H; simpl in *.
  - revert H. apply HK. split; reflexivity.
  - destruct s as [|c t]; [contradiction|]. simpl.
    destruct (Ascii.eqb d c); [|contradiction].
    revert H. apply IH. exact HK.
Qed.

Lemma star_greedy_extend a k1 k2 :
  extended_cont tail k1 k2 ->
  forall s p1 p2 pv cs1 cs2,
    star_greedy fl a k1 p1 pv cs1 s <> None ->
    star_greedy fl a k2 p2 pv cs2 (s ++ tail) <> None.
Proof.
  intros HK. induction s as [|c t IH]; intros p1 p2 pv cs1 cs2 H.
  - simpl in *. apply star_greedy_fallback. revert H. apply HK.
    split; reflexivity.
  - simpl in *. destruct (atom_ok fl a c).
    + destruct (star_greedy fl a k1 (S p1) (Some c) cs1 t) eqn:G.
      * assert (G' : star_greedy fl a k2 (S p2) (Some c) cs2 (t ++ tail)
                     <> None)
          by (apply (IH (S p1) (S p2) (Some c) cs1 cs2);
              rewrite G; discriminate).
        destruct (star_greedy fl a k2 (S p2) (Some c) cs2 (t ++ tail));
          [discriminate | contradiction].
      * destruct (star_greedy fl a k2 (S p2) (Some c) cs2 (t ++ tail));
          [discriminate|].
        revert H. apply HK. split; reflexivity.
    + revert H. apply HK. split; reflexivity.
Qed.

Lemma star_lazy_extend a k1 k2 :
  extended_cont tail k1 k2 ->
  forall s p1 p2 pv cs1 cs2,
    star_lazy fl a k1 p1 pv cs1 s <> None ->
    star_lazy fl a k2 p2 pv cs2 (s ++ tail) <> None.
Proof.
  intros HK. induction s as [|c t IH]; intros p1 p2 pv cs1 cs2 H.
  - apply star_lazy_now. simpl in *.
    destruct (k1 (MState p1 pv [] cs1)) eqn:K1; [|contradiction].
    apply (HK (MState p1 pv [] cs1)); [split; reflexivity|].
    rewrite K1. discriminate.
  - simpl in *.
    destruct (k1 (MState p1 pv (c :: t) cs1)) eqn:K1.
    + assert (K2 : k2 (MState p2 pv (c :: t ++ tail) cs2) <> None).
      { apply (HK (MState p1 pv (c :: t) cs1)); [split; reflexivity|].
        rewrite K1. discriminate. }
      destruct (k2 (MState p2 pv (c :: t ++ tail) cs2));
        [discriminate | contradiction].
    + destruct (k2 (MState p2 pv (c :: t ++ tail) cs2)); [discriminate|].
      destruct (atom_ok fl a c); [|contradiction].
      revert H. apply IH.
Qed.

(** A pattern that does not look at what follows the match still
    matches when the subject goes on. *)
Lemma exec_extend r :
  looks_ahead r = false ->
  forall k1 k2 st1 st2,
    extended_cont tail k1 k2 -> extended tail st1 st2 ->
    exec fl r k1 st1 <> None -> exec fl r k2 st2 <> None.
Proof.
  induction r as [ | a | w | | | r1 IH1 r2 IH2 | r1 IH1 r2 IH2 | r1 IH1
                 | g a | n r1 IH1 | r1 IH1 ];
    intros Hla k1 k2 st1 st2 HK HS H; simpl in Hla; try discriminate Hla.
  - simpl in *. revert H. apply HK. exact HS.
  - simpl in *. destruct HS as [HR HP]. rewrite HR.
    destruct (rest st1) as [|c t]; [contradiction|]. simpl.
    destruct (atom_ok fl a c); [|contradiction].
    revert H. apply HK. split; reflexivity.
  - simpl in *. destruct HS as [HR HP]. rewrite HR, HP.
    revert H. apply exec_str_extend. exact HK.
  - simpl in *. assert (B : at_bol fl st2 = at_bol fl st1)
      by (unfold at_bol; destruct HS as [_ ->]; reflexivity).
    rewrite B. destruct (at_bol fl st1); [|contradiction].
    revert H. apply HK. exact HS.
  - apply orb_false_elim in Hla. destruct Hla as [H1 H2].
    rewrite exec_seq in *. revert H. apply (IH1 H1); [|exact HS].
    intros s1 s2 Hs. apply (IH2 H2); assumption.
  - apply orb_false_elim in Hla. destruct Hla as [H1 H2].
    simpl in *. destruct (exec fl r1 k1 st1) eqn:E1.
    + assert (E2 : exec fl r1 k2 st2 <> None)
        by (apply (IH1 H1 k1 k2 st1 st2 HK HS); rewrite E1; discriminate).
      destruct (exec fl r1 k2 st2); [discriminate | contradiction].
    + destruct (exec fl r1 k2 st2); [discriminate|].
      revert H. apply (IH2 H2); assumption.
  - simpl in *. destruct (exec fl r1 k1 st1) eqn:E1.
    + assert (E2 : exec fl r1 k2 st2 <> None)
        by (apply (IH1 Hla k1 k2 st1 st2 HK HS); rewrite E1; discriminate).
      destruct (exec fl r1 k2 st2); [discriminate | contradiction].
    + destruct (exec fl r1 k2 st2); [discriminate|].
      revert H. apply HK. exact HS.
  - destruct HS as [HR HP]. destruct g; simpl in *; rewrite HR, HP;
      revert H; [apply star_greedy_extend | apply star_lazy_extend]; exact HK.
  - simpl in *. revert H. apply (IH1 Hla); [|exact HS].
    intros s1 s2 [HR HP]. apply HK. split; [exact HR | exact HP].
Qed.

Lemma match_here_extend r adv p q pv s m :
  looks_ahead r = false ->
  match_here fl r adv p pv s = Some m ->
  match_here fl r false q pv (s ++ tail) <> None.
Proof.
  unfold match_here. intros Hla H.
  match goal with
  | |- match ?e with _ => _ end <> None =>
      assert (E : e <> None); [|destruct e; [discriminate | contradiction]]
  end.
  apply (@exec_extend r Hla
           (fun st => if adv && (pos st =? p) then None else Some st)
           _ (MState p pv s []) _).
  - intros s1 s2 _ _. simpl. discriminate.
  - split; reflexivity.
  - destruct (exec fl r _ (MState p pv s [])); [discriminate | discriminate H].
Qed.
End Extend.

(** ** What a search cannot miss *)

Lemma search_from_eq fl r p pv s :
  search_from fl r p pv s =
  match match_here fl r false p pv s with
  | Some m => Some m
  | None =>
      match s with
      | [] => None
      | c :: t => search_from fl r (S p) (Some c) t
      end
  end.
Proof. destruct s; reflexivity. Qed.

Lemma search_from_finds fl r : forall a p pv b,
  match_here fl r false (p + List.length a) (prev_after pv a) b <> None ->
  search_from fl r p pv (a ++ b) <> None.
Proof.
  induction a as [|c a IH]; intros p pv b H; rewrite search_from_eq.
  - cbn [app List.length] in *. change (prev_after pv []) with pv in H.
    rewrite Nat.add_0_r in H.
    destruct (match_here fl r false p pv b); [discriminate | congruence].
  - simpl app. destruct (match_here fl r false p pv (c :: a ++ b));
      [discriminate|].
    apply IH. rewrite prev_after_cons in H. cbn [List.length] in H.
    rewrite <- Nat.add_succ_comm in H. exact H.
Qed.

Lemma prev_after_app pv pv' (x a : text) :
  a <> [] -> prev_after pv (x ++ a) = prev_after pv' a.
Proof.
  intros Ha. unfold prev_after. rewrite rev_app_distr.
  destruct (rev a) as [|d l] eqn:E; [|reflexivity].
  exfalso. apply Ha. apply (f_equal (@rev ascii)) in E.
  rewrite rev_involutive in E. exact E.
Qed.

(** What is found inside a piece of a text, not at its very start, by a
    pattern that does not look ahead, is found in the whole text too. *)
Lemma found_inside_found fl r (before piece after : text) m :
  looks_ahead r = false ->
  In m (finditer fl r piece) ->
  m_start m <> 0 ->
  search fl r (before ++ piece ++ after) <> None.
Proof.
  intros Hla Hin Hst. unfold finditer in Hin.
  apply finditer_from_origin in Hin.
  destruct Hin as (a & b & adv & -> & E).
  pose proof E as Hs. apply match_here_caps in Hs.
  destruct Hs as (_ & Hs & _). simpl in Hs. assert (Ha : a <> []) by (intros ->; apply Hst; exact Hs).
  unfold search. rewrite <- app_assoc, app_assoc.
  apply search_from_finds.
  rewrite (@prev_after_app None None before a Ha).
  apply (@match_here_extend fl after r adv _ _ _ _ _ Hla E).
Qed.

(** Matches of a pattern that never matches the empty word start
    further and further to the right. *)
Lemma finditer_from_not_before fl r : forall s sk p pv m,
  In m (finditer_from fl r sk p pv s) -> p <= m_start m.
Proof.
  apply (@finditer_from_attempts fl r (fun p _ _ m => p <= m_start m)).
  - intros adv p pv s m E. apply match_here_caps in E.
    destruct E as (_ & -> & _). apply le_n.
  - intros c t p pv m H. lia.
Qed.

Lemma finditer_all_at_start fl r s :
  (forall w cs, lang_caps fl r w cs -> w <> []) ->
  (forall m, In m (finditer fl r s) -> m_start m = 0) ->
  List.length (finditer fl r s) <= 1.
Proof.
  intros Hne H0. unfold finditer in *.
  assert (Later : forall l : list match_obj,
            (forall m, In m l -> m_start m = 0) ->
            (forall m, In m l -> 1 <= m_start m) -> l = []).
  { intros [|m l] Z P; [reflexivity|].
    specialize (Z m (or_introl eq_refl)).
    specialize (P m (or_introl eq_refl)). lia. }
  destruct s as [|c t]; cbn [finditer_from] in *.
  - destruct (match_here fl r false 0 None []) as [m|] eqn:E; [|apply Nat.le_0_l].
    pose proof E as E'. apply match_here_caps in E'.
    destruct E' as (L & S & En & _).
    apply Hne in L. rewrite S, En.
    destruct (0 + List.length (group0 m) =? 0) eqn:Z; [|apply le_n].
    apply Nat.eqb_eq in Z. destruct (group0 m); [contradiction | discriminate Z].
  - destruct (match_here fl r false 0 None (c :: t)) as [m|] eqn:E.
    + pose proof E as E'. apply match_here_caps in E'.
      destruct E' as (L & S & En & _).
      apply Hne in L. rewrite S, En in *.
      destruct (0 + List.length (group0 m) =? 0) eqn:Z.
      { apply Nat.eqb_eq in Z.
        destruct (group0 m); [contradiction | discriminate Z]. }
      simpl. apply le_n_S.
      rewrite (Later (finditer_from fl r _ 1 (Some c) t)); [apply le_n| |].
      * intros m' Hm'. apply H0. right. exact Hm'.
      * intros m' Hm'. apply finditer_from_not_before in Hm'. exact Hm'.
    + rewrite (Later (finditer_from fl r _ 1 (Some c) t)); [apply Nat.le_0_l| |].
      * intros m' Hm'. apply H0. exact Hm'.
      * intros m' Hm'. apply finditer_from_not_before in Hm'. exact Hm'.
Qed.

(** ** The methods of a methodmap *)

Lemma full_map_groups w cs :
  lang_caps DOTALL FULL_MAP_REGEX w cs ->
  exists head body tail, cs = [("1", body)] /\ w = head ++ body ++ tail.
Proof.
  unfold FULL_MAP_REGEX. intros H. caps_words. cbn [app].
  match goal with
  | |- context [ [("1", ?b)] = _ ] => rename b into body
  end.
  match goal with
  | |- context [ ?w0 ++ ?w2 ++ "{"%char :: body ++ ?t ] =>
      exists (txt "methodmap" ++ w0 ++ w2 ++ txt "{"), body, t
  end.
  split; [reflexivity|].
  simpl. rewrite <- !app_assoc. reflexivity.
Qed.

Lemma func_match_not_empty w cs :
  lang_caps FUNC_FLAGS FUNC_REGEX w cs -> w <> [].
Proof.
  intros H. apply func_match_groups in H.
  destruct H as (ty & _ & _ & _ & tail & _ & -> & Hty & _).
  unfold function_keywords in Hty. simpl in Hty.
  intros E. apply app_eq_nil in E. destruct E as [E _]. subst ty.
  repeat (destruct Hty as [Hty|Hty]; [discriminate Hty|]). exact Hty.
Qed.

Lemma methods_at_most_one code_text :
  search FUNC_FLAGS FUNC_REGEX code_text = None ->
  List.length (fst (methodmap_members code_text)) <= 1.
Proof.
  intros Hnone. unfold methodmap_members.
  destruct (search DOTALL FULL_MAP_REGEX code_text) as [fm|] eqn:S;
    [|apply Nat.le_0_l].
  cbn [fst]. rewrite length_map.
  apply finditer_all_at_start; [exact func_match_not_empty|].
  intros m Hm. destruct (Nat.eq_dec (m_start m) 0) as [Z|Z]; [exact Z|].
  exfalso. unfold search in S. apply search_from_caps in S.
  destruct S as (L & a & s1 & Hcode & _).
  apply full_map_groups in L. destruct L as (head & body & tail & Hcs & Hw).
  assert (Hb : group fm "1" = body)
    by (unfold group, group_opt; rewrite Hcs; reflexivity).
  rewrite Hb in Hm.
  assert (F : search FUNC_FLAGS FUNC_REGEX
                ((a ++ head) ++ body ++ (tail ++ s1)) <> None)
    by (apply (@found_inside_found FUNC_FLAGS FUNC_REGEX (a ++ head) body
                 (tail ++ s1) m eq_refl Hm Z)).
  apply F. rewrite <- Hnone. f_equal.
  rewrite Hcode, Hw, <- !app_assoc. reflexivity.
Qed.

(** X21: a methodmap entry of the output lists at most one method,
    however many the methodmap declares.  A method is only found where
    a function declaration would be found too, at the start of a line,
    and a chunk with such a line is recorded as a function; what is left
    is a declaration right behind the opening brace. *)
Theorem X21_at_most_one_method content filename :
  Forall (fun mm => List.length (mm_methods mm) <= 1)
         (methodmap_entries (parse_include_content content filename)).
Proof.
  apply methodmap_entries_forall, entries_forall.
  intros c code [f|mm|td] E; [exact I| |exact I].
  apply entry_of_block_methodmap_from in E.
  destruct E as (Hnone & m & _ & ->). cbn [mm_methods].
  apply methods_at_most_one. exact Hnone.
Qed.

(** The bound is reached: the method right behind the brace is the one
    that is listed. *)
Lemma method_behind_the_brace filename :
  map (fun mm => map me_name (mm_methods mm))
      (methodmap_entries (parse_include_content brace_method_inc filename)) =
  [[txt "Go"]].
Proof. vm_compute. reflexivity. Qed.

(** ** The other tags *)

Lemma more_lookup_cons key k vs d :
  more_lookup key ((k, vs) :: d) =
  if text_eqb k key then Some vs else more_lookup key d.
Proof.
  unfold more_lookup. cbn [find fst]. destruct (text_eqb k key); reflexivity.
Qed.

Lemma setdefault_append_lookup key tag v : forall d,
  more_lookup key (setdefault_append tag v d) =
  if text_eqb tag key
  then Some (match more_lookup key d with
             | Some l => l ++ [v]
             | None => [v]
             end)
  else more_lookup key d.
Proof.
  induction d as [|[k vs] d IH]; cbn [setdefault_append].
  - rewrite more_lookup_cons. reflexivity.
  - destruct (text_eqb k tag) eqn:Ek.
    + apply text_eqb_eq in Ek. subst k. rewrite !more_lookup_cons.
      destruct (text_eqb tag key); reflexivity.
    + rewrite !more_lookup_cons, IH.
      destruct (text_eqb k key) eqn:Ekk; [|reflexivity].
      apply text_eqb_eq in Ekk. subst k.
      rewrite text_eqb_neq; [reflexivity|].
      intros ->. rewrite text_eqb_refl in Ek. discriminate Ek.
Qed.

Lemma collected_key_cases key :
  existsb (text_eqb key) collected_keys = true ->
  key = txt "deprecated" \/ key = txt "see" \/ key = txt "author".
Proof.
  unfold collected_keys. cbn [existsb]. rewrite orb_false_r.
  intros H. apply orb_prop in H. destruct H as [H|H];
    [left; apply text_eqb_eq; exact H|].
  apply orb_prop in H. destruct H as [H|H];
    [right; left | right; right]; apply text_eqb_eq; exact H.
Qed.

Lemma add_tag_more t m key :
  t_param (add_tag t m) =
    t_param t ++ (if tag_is "param" m then param_of_tag m else []) /\
  more_lookup key (t_more (add_tag t m)) =
    if existsb (text_eqb key) collected_keys && tag_is key m
    then Some (match more_lookup key (t_more t) with
               | Some l => l ++ [tag_content m]
               | None => [tag_content m]
               end)
    else more_lookup key (t_more t).
Proof.
  assert (Known : forall name,
            In name [txt "param"; txt "return"; txt "error"; txt "note"] ->
            group m "tag" = name ->
            existsb (text_eqb key) collected_keys && tag_is key m = false).
  { intros name Hin Hname. unfold tag_is. rewrite Hname.
    destruct (existsb (text_eqb key) collected_keys) eqn:Ek; [|reflexivity].
    apply collected_key_cases in Ek.
    destruct Ek as [ -> | [ -> | -> ] ];
      repeat (destruct Hin as [<-|Hin]; [reflexivity|]); contradiction. }
  unfold add_tag, param_of_tag, tags_append. fold (tag_content m).
  unfold tag_is at 1.
  destruct (text_eqb (group m "tag") "param") eqn:Ep.
  { apply text_eqb_eq in Ep.
    rewrite (Known (txt "param")); [|simpl; auto|exact Ep].
    destruct (re_match NOFLAGS PARAM_TAG_REGEX (tag_content m));
      cbn; rewrite ?app_nil_r; auto. }
  rewrite app_nil_r.
  destruct (text_eqb (group m "tag") "return") eqn:Er.
  { apply text_eqb_eq in Er.
    rewrite (Known (txt "return")); [|simpl; auto|exact Er]. cbn. auto. }
  destruct (text_eqb (group m "tag") "error") eqn:Ee.
  { apply text_eqb_eq in Ee.
    rewrite (Known (txt "error")); [|simpl; auto|exact Ee].
    rewrite Ee. cbn. auto. }
  destruct (text_eqb (group m "tag") "note") eqn:En.
  { apply text_eqb_eq in En.
    rewrite (Known (txt "note")); [|simpl; auto|exact En].
    rewrite En. cbn. auto. }
  cbn [existsb]. rewrite Ee, En. cbn [orb].
  change (text_eqb (group m "tag") "deprecated" ||
          (text_eqb (group m "tag") "see" ||
           (text_eqb (group m "tag") "author" || false)))
    with (existsb (text_eqb (group m "tag")) collected_keys).
  unfold tag_is.
  destruct (text_eqb (group m "tag") key) eqn:Ek.
  - apply text_eqb_eq in Ek. rewrite Ek. rewrite andb_true_r.
    destruct (existsb (text_eqb key) collected_keys); cbn [t_param t_more].
    + split; [reflexivity|].
      rewrite setdefault_append_lookup, text_eqb_refl. reflexivity.
    + split; reflexivity.
  - rewrite andb_false_r.
    destruct (existsb (text_eqb (group m "tag")) collected_keys);
      cbn [t_param t_more]; (split; [reflexivity|]); [|reflexivity].
    rewrite setdefault_append_lookup, Ek. reflexivity.
Qed.

Lemma fold_add_tag_more key ms : forall t,
  t_param (fold_left add_tag ms t) =
    t_param t ++ flat_map param_of_tag (filter (tag_is "param") ms) /\
  more_lookup key (t_more (fold_left add_tag ms t)) =
    if existsb (text_eqb key) collected_keys
    then match more_lookup key (t_more t) with
         | Some l => Some (l ++ map tag_content (filter (tag_is key) ms))
         | None => some_if_any (map tag_content (filter (tag_is key) ms))
         end
    else more_lookup key (t_more t).
Proof.
  induction ms as [|m ms IH]; intros t.
  - cbn [fold_left filter map flat_map some_if_any].
    rewrite app_nil_r. split; [reflexivity|].
    destruct (existsb (text_eqb key) collected_keys); [|reflexivity].
    destruct (more_lookup key (t_more t)); [rewrite app_nil_r|]; reflexivity.
  - cbn [fold_left filter]. destruct (IH (add_tag t m)) as (Hp & Hm).
    destruct (add_tag_more t m key) as (Ap & Am).
    rewrite Hp, Hm, Ap, Am. split.
    + destruct (tag_is "param" m); cbn [flat_map];
        rewrite <- app_assoc; reflexivity.
    + destruct (existsb (text_eqb key) collected_keys); [|reflexivity].
      cbn [andb]. destruct (tag_is key m); [|reflexivity].
      cbn [map]. destruct (more_lookup key (t_more t));
        [rewrite <- app_assoc|]; reflexivity.
Qed.

(** X22: the [param] entries of a comment are those its [param] tags
    leave, in the order they are written.  The tags named [deprecated],
    [see] and [author] are gathered each under a key of its own, present
    when the comment has such a tag, with the contents in order; a tag of
    any other name leaves no key. *)
Theorem X22_other_tags comment_lines key :
  let t := tags (parse_comment_block comment_lines) in
  let found := tag_matches_of comment_lines in
  t_param t = flat_map param_of_tag (filter (tag_is "param") found) /\
  more_lookup key (t_more t) =
    if existsb (text_eqb key) collected_keys
    then some_if_any (map tag_content (filter (tag_is key) found))
    else None.
Proof.
  cbv zeta. rewrite parse_comment_block_tags.
  apply (fold_add_tag_more key (tag_matches_of comment_lines) initial_tags).
Qed.

(** ** Where a declaration of a function ends *)

Lemma lang_caps_can_hold fl r w cs c :
  lang_caps fl r w cs -> In c w -> can_hold fl c r = true.
Proof.
  induction 1 as [ | a d Ha | w | | | r1 r2 w1 w2 cs1 cs2 _ IH1 _ IH2
                 | r1 r2 w cs _ IH | r1 r2 w cs _ IH | r1 w cs _ IH | r1
                 | g a w Hw | n r1 w cs _ IH | r1 ];
    intros Hin; cbn [can_hold]; try contradiction.
  - destruct Hin as [<-|[]]. exact Ha.
  - apply existsb_exists. exists c. split; [exact Hin | apply Ascii.eqb_refl].
  - apply in_app_or in Hin. destruct Hin as [Hin|Hin];
      [rewrite (IH1 Hin); reflexivity | rewrite (IH2 Hin); apply orb_true_r].
  - rewrite (IH Hin). reflexivity.
  - rewrite (IH Hin). apply orb_true_r.
  - exact (IH Hin).
  - rewrite Forall_forall in Hw. apply Hw. exact Hin.
  - exact (IH Hin).
Qed.

Lemma occurs_app_first c1 sub a b :
  occurs (c1 :: sub) (a ++ b) = true ->
  In c1 a \/ occurs (c1 :: sub) b = true.
Proof.
  induction a as [|d a IH]; intros H; [right; exact H|].
  cbn [app] in H. rewrite occurs_eq in H. apply orb_prop in H.
  destruct H as [H|H].
  - left. left. cbn [PyStr.startswith] in H. apply andb_prop in H.
    destruct H as [H _]. apply Ascii.eqb_eq in H. symmetry. exact H.
  - destruct (IH H) as [Hin|Ho]; [left; right; exact Hin | right; exact Ho].
Qed.

Lemma search_from_origin fl r : forall s p pv m,
  search_from fl r p pv s = Some m ->
  exists a b,
    s = a ++ b /\
    match_here fl r false (p + List.length a) (prev_after pv a) b = Some m.
Proof.
  induction s as [|c t IH]; intros p pv m H; rewrite search_from_eq in H.
  - destruct (match_here fl r false p pv []) eqn:E; [|discriminate].
    exists [], []. rewrite Nat.add_0_r. split; [reflexivity|].
    rewrite <- H. exact E.
  - destruct (match_here fl r false p pv (c :: t)) eqn:E.
    + exists [], (c :: t). rewrite Nat.add_0_r. split; [reflexivity|].
      rewrite <- H. exact E.
    + apply IH in H. destruct H as (a & b & -> & H).
      exists (c :: a), b. split; [reflexivity|].
      rewrite prev_after_cons. cbn [List.length].
      rewrite <- Nat.add_succ_comm. exact H.
Qed.

(** A match of the pattern of the functions ends with the first ");"
    behind its start. *)
Lemma func_match_first_close adv p pv s m :
  match_here FUNC_FLAGS FUNC_REGEX adv p pv s = Some m ->
  exists x, group0 m = x ++ txt ");" /\ occurs ");" x = false.
Proof.
  unfold match_here. intros H.
  destruct (exec FUNC_FLAGS FUNC_REGEX _ _) as [st|] eqn:E; [|discriminate].
  injection H as <-. cbn [group0].
  set (PRE := (Bol ;;
               Group "type"
                 (Alt (Str "native")
                    (Alt (Str "stock") (Alt (Str "forward") (Str "public")))) ;;
               Plus true space ;;
               Opt (Str "New:" ;; Star true space) ;;
               Group "return_type" (Plus true (ASet return_type_char)) ;;
               Plus true space ;;
               Group "name" (Plus true word) ;;
               Star true space ;;
               Str "(")%re).
  match type of E with
  | exec _ _ ?k ?st0 = _ =>
      change (exec FUNC_FLAGS
                (Seq PRE (Seq (Group "params" (Star false ADot)) (Str ");")))
                k st0 = Some st) in E
  end.
  rewrite exec_seq in E. apply exec_caps_sound in E.
  destruct E as (w1 & s1 & pv1 & cs1 & L1 & R1 & E).
  cbn [pos rest caps] in *.
  assert (N1 : ~ In ")"%char w1).
  { intros Hin. apply (@lang_caps_can_hold _ _ _ _ _ L1) in Hin.
    vm_compute in Hin. discriminate Hin. }
  clear L1.
  rewrite exec_seq, exec_group, exec_star_lazy in E.
  cbn [pos prev rest caps] in E.
  apply star_lazy_first in E.
  destruct E as (params & s3 & pv3 & R3 & E & Hmin).
  assert (Hadv : forall q, p < q -> adv && (q =? p) = false).
  { intros q Hq. destruct adv; [|reflexivity]. apply Nat.eqb_neq. lia. }
  assert (Hp : occurs ");" params = false).
  { apply (@occurs_from_splits (txt ");") params s3); [|discriminate].
    intros u1 u2 Eu Hne. destruct (Hmin u1 u2 Eu Hne) as [pv' Hn].
    apply exec_str_none in Hn. cbn [pos prev rest caps] in Hn.
    destruct Hn as [Hn|(sx & pvx & _ & Hn)]; [exact Hn|].
    exfalso. cbn [pos List.length] in Hn.
    rewrite Hadv in Hn by (simpl; lia). discriminate Hn. }
  clear Hmin.
  apply exec_caps_sound in E.
  destruct E as (w4 & s4 & pv4 & cs4 & L4 & R4 & E).
  inversion L4; subst w4 cs4; clear L4. cbn [pos rest caps] in *.
  rewrite Hadv in E by (simpl; lia). injection E as <-. cbn [pos].
  exists (w1 ++ params). split.
  - subst s s1 s3. rewrite <- app_assoc.
    apply firstn_three. simpl. lia.
  - destruct (occurs ");" (w1 ++ params)) eqn:O; [|reflexivity].
    apply occurs_app_first in O. destruct O as [O|O];
      [contradiction | destruct (eq_true_false_abs _ O Hp)].
Qed.

(** X23: the function recorded for a block is declared at the start of
    a line of the code chunk of that block, its full declaration is that
    declaration with every line feed turned into a blank, and the
    declaration ends with the first ");" behind its start: whatever
    follows that mark is not part of it. *)
Theorem X23_function_declaration_ends content filename :
  Forall (fun f =>
            exists block before decl after x,
              In block (comment_and_code_blocks
                          (normalize_line_endings content)) /\
              group block "code" = before ++ decl ++ after /\
              (before = [] \/ exists l, before = l ++ [LF]) /\
              f_full_declaration f = newlines_to_spaces decl /\
              decl = x ++ txt ");" /\ occurs ");" x = false)
         (function_entries (parse_include_content content filename)).
Proof.
  apply function_entries_forall, entries_forall_blocks.
  intros b [f|mm|td] Hb E; [|exact I|exact I].
  apply entry_of_block_function in E. destruct E as (m & S & ->).
  cbn [f_full_declaration].
  pose proof S as Hl. apply search_sound in Hl. destruct Hl as [Hl _].
  rewrite (func_match_one_line Hl).
  unfold search in S. apply search_from_origin in S.
  destruct S as (before & rest & Hcode & E).
  pose proof E as Hb'. unfold FUNC_REGEX in Hb'. apply match_here_bol in Hb'.
  pose proof E as Hc. apply match_here_caps in Hc.
  destruct Hc as (_ & _ & _ & (after & Hrest)).
  apply func_match_first_close in E. destruct E as (x & Hx & Ho).
  exists b, before, (group0 m), after, x.
  split; [exact Hb|].
  split; [rewrite Hcode, Hrest; reflexivity|].
  split; [|split; [reflexivity | split; [exact Hx | exact Ho]]].
  unfold prev_after in Hb'. destruct (rev before) as [|c l] eqn:R.
  - left. apply (f_equal (@rev ascii)) in R. rewrite rev_involutive in R.
    exact R.
  - right. exists (rev l). destruct Hb' as [Hb'|Hb']; [discriminate Hb'|].
    injection Hb' as ->.
    apply (f_equal (@rev ascii)) in R. rewrite rev_involutive in R.
    exact R.
Qed.

(** ** What the matcher cannot miss *)

Lemma prev_after_app_l pv (w1 w2 : text) :
  prev_after pv (w1 ++ w2) = prev_after (prev_after pv w1) w2.
Proof.
  revert pv. induction w1 as [|c w1 IH]; intros pv; [reflexivity|].
  cbn [app]. rewrite !prev_after_cons. apply IH.
Qed.

Lemma exec_str_app w k : forall p pv cs s1,
  exec_str w k p pv cs (w ++ s1) =
  k (MState (p + List.length w) (prev_after pv w) s1 cs).
Proof.
  induction w as [|d w IH]; intros p pv cs s1.
  - simpl. rewrite Nat.add_0_r. reflexivity.
  - cbn [app exec_str]. rewrite Ascii.eqb_refl, IH, prev_after_cons.
    cbn [List.length]. rewrite <- Nat.add_succ_comm. reflexivity.
Qed.

Section Complete.
Variable fl : flags.

Lemma star_greedy_reaches a k cs : forall w p pv s1,
  Forall (fun c => atom_ok fl a c = true) w ->
  k (MState (p + List.length w) (prev_after pv w) s1 cs) <> None ->
  star_greedy fl a k p pv cs (w ++ s1) <> None.
Proof.
  induction w as [|c w IH]; intros p pv s1 Hw Hk.
  - apply star_greedy_fallback. cbn [List.length] in Hk.
    rewrite Nat.add_0_r in Hk. exact Hk.
  - inversion Hw as [|c' w' Hc Hw']; subst. cbn [app star_greedy].
    rewrite Hc.
    assert (G : star_greedy fl a k (S p) (Some c) cs (w ++ s1) <> None).
    { apply IH; [exact Hw'|]. rewrite prev_after_cons in Hk.
      cbn [List.length] in Hk. rewrite <- Nat.add_succ_comm in Hk. exact Hk. }
    destruct (star_greedy fl a k (S p) (Some c) cs (w ++ s1));
      [discriminate | contradiction].
Qed.

Lemma star_lazy_reaches a k cs : forall w p pv s1,
  Forall (fun c => atom_ok fl a c = true) w ->
  k (MState (p + List.length w) (prev_after pv w) s1 cs) <> None ->
  star_lazy fl a k p pv cs (w ++ s1) <> None.
Proof.
  induction w as [|c w IH]; intros p pv s1 Hw Hk.
  - apply star_lazy_now. cbn [List.length] in Hk.
    rewrite Nat.add_0_r in Hk. exact Hk.
  - inversion Hw as [|c' w' Hc Hw']; subst. cbn [app star_lazy].
    destruct (k (MState p pv (c :: w ++ s1) cs)); [discriminate|].
    rewrite Hc. apply IH; [exact Hw'|]. rewrite prev_after_cons in Hk.
    cbn [List.length] in Hk. rewrite <- Nat.add_succ_comm in Hk. exact Hk.
Qed.

(** Completeness of the matcher: a pattern without anchors matches
    every word of its language that the subject starts with, as long as
    what follows accepts the place behind the word. *)
Theorem exec_complete r w :
  lang fl r w -> plain r = true ->
  forall k st s1,
    rest st = w ++ s1 ->
    (forall cs, k (MState (pos st + List.length w)
                     (prev_after (prev st) w) s1 cs) <> None) ->
    exec fl r k st <> None.
Proof.
  induction 1 as [ | a c Ha | w | | | r1 r2 w1 w2 _ IH1 _ IH2
                 | r1 r2 w _ IH | r1 r2 w _ IH | r1 w _ IH | r1
                 | g a w Hw | n r1 w _ IH | r1 ];
    intros Hp k st s1 Hr Hk; cbn [plain] in Hp; try discriminate Hp.
  - cbn [exec]. specialize (Hk (caps st)). cbn [List.length] in Hk.
    rewrite Nat.add_0_r in Hk. destruct st. cbn in *. subst. exact Hk.
  - cbn [exec]. rewrite Hr. cbn [app]. rewrite Ha.
    specialize (Hk (caps st)). cbn [List.length] in Hk.
    rewrite Nat.add_1_r in Hk. exact Hk.
  - cbn [exec]. rewrite Hr, exec_str_app. apply Hk.
  - apply andb_prop in Hp. destruct Hp as [P1 P2].
    rewrite exec_seq. rewrite <- app_assoc in Hr.
    apply (IH1 P1 _ _ _ Hr). intros cs.
    apply (IH2 P2 k _ s1); [reflexivity|]. cbn [pos prev]. intros cs'.
    rewrite <- Nat.add_assoc, <- length_app, <- prev_after_app_l. apply Hk.
  - apply andb_prop in Hp. destruct Hp as [P1 P2]. cbn [exec].
    pose proof (IH P1 k st s1 Hr Hk) as E.
    destruct (exec fl r1 k st); [discriminate | contradiction].
  - apply andb_prop in Hp. destruct Hp as [P1 P2]. cbn [exec].
    destruct (exec fl r1 k st); [discriminate|].
    apply (IH P2 k st s1 Hr Hk).
  - cbn [exec]. pose proof (IH Hp k st s1 Hr Hk) as E.
    destruct (exec fl r1 k st); [discriminate | contradiction].
  - cbn [exec]. destruct (exec fl r1 k st); [discriminate|].
    specialize (Hk (caps st)). cbn [List.length] in Hk.
    rewrite Nat.add_0_r in Hk. destruct st. cbn in *. subst. exact Hk.
  - destruct g; cbn [exec]; rewrite Hr;
      [apply star_greedy_reaches | apply star_lazy_reaches];
      try exact Hw; apply Hk.
  - rewrite exec_group. apply (IH Hp _ _ _ Hr). intros cs. apply Hk.
Qed.

(** A pattern anchored at the start of a line matches wherever a line
    starts with a word of its language. *)
Lemma match_here_complete r w p pv s1 :
  lang fl r w -> plain r = true ->
  at_bol fl (MState p pv (w ++ s1) []) = true ->
  match_here fl (Seq Bol r) false p pv (w ++ s1) <> None.
Proof.
  intros L P B. unfold match_here. rewrite exec_seq. cbn [exec]. rewrite B.
  assert (E : exec fl r
                (fun st => if false && (pos st =? p) then None else Some st)
                (MState p pv (w ++ s1) []) <> None).
  { apply (@exec_complete r w L P _ _ s1); [reflexivity|].
    intros cs. discriminate. }
  match goal with
  | |- match ?e with _ => _ end <> None =>
      destruct e; [discriminate | contradiction]
  end.
Qed.
End Complete.

(** A search yields the leftmost place where an attempt succeeds. *)
Lemma search_from_leftmost fl r : forall a p pv b m,
  search_from fl r p pv (a ++ b) = Some m ->
  match_here fl r false (p + List.length a) (prev_after pv a) b <> None ->
  m_start m <= p + List.length a.
Proof.
  induction a as [|c a IH]; intros p pv b m S H; rewrite search_from_eq in S.
  - cbn [app List.length] in *. change (prev_after pv []) with pv in H.
    rewrite Nat.add_0_r in H.
    destruct (match_here fl r false p pv b) as [m0|] eqn:E; [|congruence].
    injection S as <-. apply match_here_caps in E.
    destruct E as (_ & -> & _). lia.
  - cbn [app] in S.
    destruct (match_here fl r false p pv (c :: a ++ b)) as [m0|] eqn:E.
    + injection S as <-. apply match_here_caps in E.
      destruct E as (_ & -> & _). lia.
    + rewrite prev_after_cons in H. cbn [List.length] in *.
      rewrite <- Nat.add_succ_comm in H.
      apply (IH _ _ _ _ S) in H. lia.
Qed.

(** ** The blocks the scanner finds are the blocks described *)

Lemma cut_at_eq sub s :
  cut_at sub s =
  if PyStr.startswith s sub then Some ([], skipn (List.length sub) s)
  else match s with
       | [] => None
       | c :: t =>
           match cut_at sub t with
           | Some (a, b) => Some (c :: a, b)
           | None => None
           end
       end.
Proof. destruct s; reflexivity. Qed.

Lemma cut_at_first sub r : forall x,
  (forall u1 u2, x = u1 ++ u2 -> u2 <> [] ->
     PyStr.startswith (u2 ++ sub ++ r) sub = false) ->
  cut_at sub (x ++ sub ++ r) = Some (x, r).
Proof.
  induction x as [|c x IH]; intros H; rewrite cut_at_eq.
  - cbn [app]. rewrite startswith_app.
    rewrite skipn_app, skipn_all, Nat.sub_diag. reflexivity.
  - rewrite (H [] (c :: x) eq_refl) by discriminate. cbn [app].
    rewrite IH; [reflexivity|].
    intros u1 u2 E Hne. apply (H (c :: u1) u2); [|exact Hne].
    rewrite E. reflexivity.
Qed.

Lemma startswith_skipn s sub :
  PyStr.startswith s sub = true -> s = sub ++ skipn (List.length sub) s.
Proof.
  intros E. apply startswith_inv in E. destruct E as [t ->].
  rewrite skipn_app, skipn_all, Nat.sub_diag. reflexivity.
Qed.

Lemma cut_at_sound sub : forall s x r,
  cut_at sub s = Some (x, r) -> s = x ++ sub ++ r.
Proof.
  induction s as [|c s IH]; intros x r H; rewrite cut_at_eq in H.
  - destruct (PyStr.startswith [] sub) eqn:E; [|discriminate].
    injection H as <- <-. apply (startswith_skipn _ _ E).
  - destruct (PyStr.startswith (c :: s) sub) eqn:E.
    + injection H as <- <-. apply (startswith_skipn _ _ E).
    + destruct (cut_at sub s) as [[a b]|] eqn:C; [|discriminate].
      injection H as <- <-. rewrite (IH _ _ eq_refl) at 1. reflexivity.
Qed.

Lemma chunk_first after :
  PyStr.startswith after "/**" = true \/ at_end after = true ->
  forall code,
    (forall u1 u2, code = u1 ++ u2 -> u2 <> [] ->
       PyStr.startswith (u2 ++ after) "/**" = false /\
       at_end (u2 ++ after) = false) ->
    chunk (code ++ after) = code.
Proof.
  intros Ha. induction code as [|c code IH]; intros H.
  - cbn [app]. destruct after as [|d t]; [reflexivity|]. cbn [chunk].
    destruct Ha as [-> | ->]; [reflexivity | rewrite orb_true_r; reflexivity].
  - destruct (H [] (c :: code) eq_refl) as [H1 H2]; [discriminate|].
    cbn [app] in *. cbn [chunk]. rewrite H1, H2. cbn [orb]. f_equal.
    apply IH. intros u1 u2 E Hne. apply (H (c :: u1) u2); [|exact Hne].
    rewrite E. reflexivity.
Qed.

Lemma lstrip_blanks blanks s :
  Forall (fun c => PyStr.isspace c = true) blanks ->
  match s with
  | d :: _ => PyStr.isspace d = false
  | [] => True
  end ->
  PyStr.lstrip (blanks ++ s) = s.
Proof.
  intros Hb Hs. rewrite lstrip_spaces by exact Hb.
  destruct s as [|d t]; [reflexivity|]. simpl. rewrite Hs. reflexivity.
Qed.

(** What the scanner matches at a place is the block described
    there. *)
Lemma block_at_of_match adv p pv s m :
  match_here DOTALL BLOCK_REGEX adv p pv s = Some m ->
  block_at s = Some (block_texts m, m_end m - m_start m) /\
  m_end m <> m_start m.
Proof.
  intros H. apply block_match_here_exact in H.
  destruct H as (c & x & blanks & code & after & Hs & _ & Hc & Hcode
                 & Hstart & Hend & Hx & Hb & Hmax & Hmin & Hafter).
  split; [|lia].
  unfold block_texts. rewrite Hc, Hcode, Hstart, Hend.
  rewrite Hs. unfold block_at.
  rewrite <- !app_assoc. rewrite startswith_app.
  change (skipn 3 (txt "/**" ++ (c :: x ++ txt "*/") ++ blanks ++ code ++ after))
    with (c :: (x ++ txt "*/") ++ blanks ++ code ++ after).
  rewrite <- app_assoc.
  rewrite (@cut_at_first (txt "*/") (blanks ++ code ++ after) x Hx).
  rewrite (@lstrip_blanks blanks (code ++ after) Hb Hmax).
  rewrite (@chunk_first after Hafter code Hmin).
  rewrite !length_app.
  replace (List.length blanks + (List.length code + List.length after) -
           (List.length code + List.length after))
    with (List.length blanks) by lia.
  f_equal. f_equal. lia.
Qed.

(** Where a block is described the scanner finds a match. *)
Lemma match_here_block_complete adv p pv s :
  block_at s <> None -> match_here DOTALL BLOCK_REGEX adv p pv s <> None.
Proof.
  unfold block_at. intros H.
  destruct (PyStr.startswith s "/**") eqn:E; [|contradiction].
  apply startswith_inv in E. destruct E as [t ->].
  change (skipn 3 (txt "/**" ++ t)) with t in H.
  destruct t as [|c t]; [contradiction|].
  destruct (cut_at "*/" t) as [[x r]|] eqn:C; [|contradiction]. clear H.
  apply cut_at_sound in C. subst t.
  unfold match_here.
  match goal with
  | |- match ?e with _ => _ end <> None =>
      assert (G : e <> None); [|destruct e; [discriminate | contradiction]]
  end.
  unfold BLOCK_REGEX. rewrite exec_seq.
  apply (@exec_complete DOTALL _ (txt "/**" ++ c :: x ++ txt "*/")) with (s1 := r).
  - apply L_group. apply L_seq; [apply L_str|].
    change (c :: x ++ txt "*/") with (([c] ++ x) ++ txt "*/").
    apply L_seq; [|apply L_str].
    unfold Plus. apply L_seq; [apply L_atom; reflexivity|].
    apply L_star. apply Forall_forall. intros d _. reflexivity.
  - reflexivity.
  - cbn [rest]. rewrite <- app_assoc. cbn [app]. rewrite <- app_assoc.
    reflexivity.
  - intros cs. apply block_tail_total. cbn [pos].
    rewrite length_app. simpl. lia.
Qed.

Lemma blocks_refine : forall s sk p pv,
  map block_texts (finditer_from DOTALL BLOCK_REGEX sk p pv s) =
  doc_blocks_from sk s.
Proof.
  induction s as [|c t IH]; intros sk p pv.
  - cbn [finditer_from doc_blocks_from]. destruct sk; [|reflexivity].
    destruct (match_here DOTALL BLOCK_REGEX false p pv []) as [m|] eqn:E;
      [|reflexivity].
    apply block_at_of_match in E. destruct E as [E _]. discriminate E.
  - cbn [finditer_from doc_blocks_from]. destruct sk as [|n].
    + destruct (match_here DOTALL BLOCK_REGEX false p pv (c :: t))
        as [m|] eqn:E.
      * apply block_at_of_match in E. destruct E as [E Hne].
        rewrite E. apply Nat.eqb_neq in Hne. rewrite Hne.
        cbn [map]. rewrite IH. reflexivity.
      * destruct (block_at (c :: t)) as [[[cm cd] len]|] eqn:B.
        -- exfalso.
           apply (@match_here_block_complete false p pv (c :: t));
             [rewrite B; discriminate | exact E].
        -- apply IH.
    + rewrite Nat.sub_succ, Nat.sub_0_r. apply IH.
Qed.

(** The scanner's blocks are those of the description. *)
Lemma comment_and_code_blocks_described s :
  map block_texts (comment_and_code_blocks s) = doc_blocks s.
Proof. apply blocks_refine. Qed.

(** ** The function of a chunk *)

Lemma line_start_prev before :
  line_start before <->
  prev_after None before = None \/ prev_after None before = Some LF.
Proof.
  unfold line_start, prev_after. split.
  - intros [-> | [l ->]]; [left; reflexivity|].
    rewrite rev_app_distr. right. reflexivity.
  - destruct (rev before) as [|c l] eqn:R; intros H.
    + left. apply (f_equal (@rev ascii)) in R.
      rewrite rev_involutive in R. exact R.
    + right. exists (rev l). destruct H as [H|H]; [discriminate H|].
      injection H as ->. apply (f_equal (@rev ascii)) in R.
      rewrite rev_involutive in R. exact R.
Qed.

(** A chunk that holds a declaration at the start of a line is one in
    which the search finds something. *)
Lemma declares_function_found code :
  declares_function code -> search FUNC_FLAGS FUNC_REGEX code <> None.
Proof.
  intros (before & w & after & -> & Hb & L).
  unfold search. apply search_from_finds.
  unfold FUNC_REGEX in *.
  inversion L as [ | | | | | r1 r2 w1 w2 L1 L2 | | | | | | | ]; subst.
  inversion L1; subst. cbn [app].
  apply match_here_complete; [exact L2 | reflexivity|].
  apply line_start_prev in Hb. unfold at_bol. cbn [prev].
  destruct Hb as [-> | ->]; reflexivity.
Qed.

(** What the search finds in a chunk is its first declaration. *)
Lemma search_first_declaration code m :
  search FUNC_FLAGS FUNC_REGEX code = Some m ->
  first_declaration code (group0 m).
Proof.
  intros S. pose proof S as L. apply search_sound in L. destruct L as [L _].
  unfold search in S. pose proof S as O. apply search_from_origin in O.
  destruct O as (before & rest & Hcode & E).
  pose proof E as Hb. unfold FUNC_REGEX in Hb. apply match_here_bol in Hb.
  pose proof E as Hc. apply match_here_caps in Hc.
  destruct Hc as (_ & Hstart & _ & (after & Hrest)).
  apply func_match_first_close in E. destruct E as (x & Hx & Ho).
  exists before, after, x.
  split; [rewrite Hcode, Hrest; reflexivity|].
  split; [apply line_start_prev; exact Hb|].
  split; [exact L|]. split; [exact Hx|]. split; [exact Ho|].
  intros before' w' after' Hcode' Hb' L'.
  assert (F : match_here FUNC_FLAGS FUNC_REGEX false
                (0 + List.length before') (prev_after None before')
                (w' ++ after') <> None).
  { unfold FUNC_REGEX in *.
    inversion L' as [ | | | | | r1 r2 w1 w2 L1 L2 | | | | | | | ]; subst.
    inversion L1; subst. cbn [app].
    apply match_here_complete; [exact L2 | reflexivity|].
    apply line_start_prev in Hb'. unfold at_bol. cbn [prev].
    destruct Hb' as [-> | ->]; reflexivity. }
  rewrite Hcode' in S.
  pose proof (@search_from_leftmost _ _ _ _ _ _ _ S F) as Hle.
  cbn [Nat.add] in Hstart, Hle. lia.
Qed.

Lemma first_declaration_declares code decl :
  first_declaration code decl -> declares_function code.
Proof.
  intros (before & after & x & Hcode & Hb & L & _).
  exists before, decl, after. auto.
Qed.

(** The function entries one block adds: one for the first declaration
    the search finds in the code, none without. *)
Lemma entry_of_block_functions filename comment_text code_text :
  function_entries
    (option_list (entry_of_block filename comment_text code_text)) =
  match search FUNC_FLAGS FUNC_REGEX code_text with
  | Some m =>
      [{| f_name := group m "name";
          f_type := group m "type";
          f_source_file := filename;
          f_return_type := group m "return_type";
          f_comment :=
            description (parse_comment_block (PyStr.split LF comment_text));
          f_tags := tags (parse_comment_block (PyStr.split LF comment_text));
          f_params :=
            parse_params_string (group m "params")
              (parse_comment_block (PyStr.split LF comment_text));
          f_full_declaration := newlines_to_spaces (group0 m) |}]
  | None => []
  end.
Proof.
  unfold entry_of_block.
  destruct (search FUNC_FLAGS FUNC_REGEX code_text) as [m|] eqn:E.
  - cbn. apply search_sound in E. destruct E as (L & _).
    rewrite (@func_match_one_line _ L). reflexivity.
  - destruct (search NOFLAGS METHODMAP_REGEX code_text).
    + destruct (methodmap_members code_text). reflexivity.
    + destruct (search NOFLAGS TYPEDEF_REGEX code_text); reflexivity.
Qed.

Lemma function_entries_flat_map {A} (f : A -> list ApiEntry) l :
  function_entries (flat_map f l) =
  flat_map (fun a => function_entries (f a)) l.
Proof.
  induction l as [|a l IH]; [reflexivity|].
  cbn [flat_map]. rewrite function_entries_app, IH. reflexivity.
Qed.

Lemma flat_map_of_map {A B C} (g : A -> B) (f : B -> list C) l :
  flat_map f (map g l) = flat_map (fun a => f (g a)) l.
Proof.
  induction l as [|a l IH]; [reflexivity|].
  cbn [map flat_map]. rewrite IH. reflexivity.
Qed.

(** C2, amended: the blocks the scanner works on are the blocks of the
    description; the function entries of the output are those the
    blocks give, block after block; a block whose code chunk holds, at
    the start of a line, a declaration of a function gives exactly one
    function entry, that of the first such declaration, whose full
    declaration is the declaration with every line feed turned into a
    blank; and a block whose chunk holds none gives no function
    entry. *)
Theorem C2_function_declarations content filename :
  map block_texts (comment_and_code_blocks (normalize_line_endings content)) =
    doc_blocks (normalize_line_endings content) /\
  function_entries (parse_include_content content filename) =
    flat_map
      (fun b =>
         function_entries (option_list (entry_of_block filename (fst b) (snd b))))
      (doc_blocks (normalize_line_endings content)) /\
  forall comment_text code_text,
    (declares_function code_text ->
     exists f decl,
       function_entries
         (option_list (entry_of_block filename comment_text code_text)) = [f] /\
       first_declaration code_text decl /\
       f_full_declaration f = newlines_to_spaces decl) /\
    (~ declares_function code_text ->
     function_entries
       (option_list (entry_of_block filename comment_text code_text)) = []).
Proof.
  split; [apply comment_and_code_blocks_described|].
  split.
  - rewrite parse_include_content_blocks, function_entries_flat_map.
    rewrite <- comment_and_code_blocks_described, flat_map_of_map.
    reflexivity.
  - intros comment_text code_text.
    rewrite entry_of_block_functions. split.
    + intros D. apply declares_function_found in D.
      destruct (search FUNC_FLAGS FUNC_REGEX code_text) as [m|] eqn:S;
        [|contradiction].
      eexists. exists (group0 m). split; [reflexivity|].
      split; [apply search_first_declaration; exact S | reflexivity].
    + intros N.
      destruct (search FUNC_FLAGS FUNC_REGEX code_text) as [m|] eqn:S;
        [|reflexivity].
      exfalso. apply N.
      apply (@first_declaration_declares code_text (group0 m)).
      apply search_first_declaration. exact S.
Qed.

(** C2 on the declaration of [DoX], which gives its entry, and on the
    same text without the keyword, which gives none. *)
Lemma C2_witness :
  (exists f decl,
     function_entries
       (option_list (entry_of_block "dox.inc" "/** Does X. */" dox_declaration))
     = [f] /\
     first_declaration dox_declaration decl /\
     f_full_declaration f = newlines_to_spaces decl) /\
  function_entries
    (option_list (entry_of_block "dox.inc" "/** Does X. */" bare_declaration))
  = [].
Proof.
  destruct (C2_function_declarations dox_inc "dox.inc") as (_ & _ & H).
  split.
  - apply (proj1 (H (txt "/** Does X. */") dox_declaration)).
    exists [], dox_declaration, []. split; [reflexivity|].
    split; [left; reflexivity|].
    unfold FUNC_REGEX, Plus.
    change dox_declaration
      with ([] ++ txt "native" ++ ([" "%char] ++ []) ++ [] ++
            (["b"%char] ++ txt "ool") ++ ([" "%char] ++ []) ++
            (["D"%char] ++ txt "oX") ++ [] ++ txt "(" ++ txt "int a" ++
            txt ");").
    repeat first [ apply L_seq | apply L_group | apply L_str | apply L_bol
                 | apply L_opt_none | apply L_atom; reflexivity
                 | apply L_star; repeat constructor
                 | apply L_alt_l; apply L_str ].
  - apply (proj2 (H (txt "/** Does X. */") bare_declaration)).
    intros D. apply declares_function_found in D. apply D.
    vm_compute. reflexivity.
Defined.

(** ** One entry a block, the first shape found *)

(** X2: the output is what the blocks of the description give, block
    after block, each at most one entry; and the shapes are tried in a
    fixed order: a block gives a function exactly when its chunk holds a
    declaration of a function at the start of a line, whatever else the
    chunk holds; it gives a methodmap when it holds none and the header
    of a methodmap is found, a typedef when neither is found and a
    typedef is, and nothing otherwise. *)
Theorem X2_one_entry_per_block_in_order content filename :
  parse_include_content content filename =
    flat_map (fun b => option_list (entry_of_block filename (fst b) (snd b)))
             (doc_blocks (normalize_line_endings content)) /\
  forall comment_text code_text,
    match entry_of_block filename comment_text code_text with
    | Some (Function _) => declares_function code_text
    | Some (Methodmap _) =>
        ~ declares_function code_text /\
        search NOFLAGS METHODMAP_REGEX code_text <> None
    | Some (Typedef _) =>
        ~ declares_function code_text /\
        search NOFLAGS METHODMAP_REGEX code_text = None /\
        search NOFLAGS TYPEDEF_REGEX code_text <> None
    | None =>
        ~ declares_function code_text /\
        search NOFLAGS METHODMAP_REGEX code_text = None /\
        search NOFLAGS TYPEDEF_REGEX code_text = None
    end.
Proof.
  split.
  - rewrite parse_include_content_blocks.
    rewrite <- comment_and_code_blocks_described, flat_map_of_map.
    reflexivity.
  - intros comment_text code_text. unfold entry_of_block.
    destruct (search FUNC_FLAGS FUNC_REGEX code_text) as [m|] eqn:S.
    + apply (@first_declaration_declares code_text (group0 m)).
      apply search_first_declaration. exact S.
    + assert (N : ~ declares_function code_text).
      { intros D. apply declares_function_found in D. contradiction. }
      destruct (search NOFLAGS METHODMAP_REGEX code_text) as [mm|] eqn:M.
      * destruct (methodmap_members code_text).
        split; [exact N | discriminate].
      * destruct (search NOFLAGS TYPEDEF_REGEX code_text) as [td|] eqn:T.
        -- split; [exact N|]. split; [reflexivity | discriminate].
        -- split; [exact N|]. split; reflexivity.
Qed.
